(** * Chess Tic-Tac-Toe: rules engine and search opponent

    A shallow embedding of [types.ts], [constants.tsx], [gameLogic.ts],
    [cpuOpponent.ts] and of the state transition [executeMove] of [App.tsx],
    followed by the properties of the specification proved about it. *)

From Stdlib Require Import ZArith Lia Ascii.
From stdpp Require Import base option list sorting strings pretty gmap.

Local Open Scope string_scope.
Local Open Scope nat_scope.

(** ** types.ts *)

Inductive Color := white | black.

(** [enum PieceType { PAWN = 'P', ROOK = 'R', KNIGHT = 'N', BISHOP = 'B' }] *)
Inductive PieceType := PAWN | ROOK | KNIGHT | BISHOP.

Inductive GameMode := ai | local | online.
Inductive Difficulty := easy | medium | hard.

Record Piece := mkPiece {
  type : PieceType;
  color : Color;
  id : string;
}.

(** [(Piece | null)[][]] *)
Abbreviation Board := (list (list (option Piece))).

(** Coordinates are array indices. *)
Record Position := mkPos { r : nat; c : nat }.

(** [Move.type] is ['place' | 'move']; the origin [from] is present exactly
    on a ['move'] (the code reads it as [move.from!]), so it is carried by
    the tag. *)
Inductive MoveType := place | move (from : Position).

Record Move := mkMove {
  mtype : MoveType;
  pieceType : PieceType;
  to : Position;
  captured : option Piece;
  pieceId : option string;
  logicFeedback : option string;
}.

Record Hands := mkHands { hwhite : list PieceType; hblack : list PieceType }.
Record PawnDirections := mkDirs { dwhite : Z; dblack : Z }.

(** [winner: Color | 'draw' | null] *)
Inductive Winner := Won (w : Color) | draw.

Record GameState := mkState {
  board : Board;
  hands : Hands;
  pawnDirections : PawnDirections;
  currentPlayer : Color;
  winner : option Winner;
  winningLine : option (list Position);
  history : list Move;
  statusMessage : string;
  gameMode : GameMode;
  difficulty : Difficulty;
  positionCounts : gmap string nat;
}.

#[global] Instance Color_eq_dec : EqDecision Color.
Proof. solve_decision. Defined.
#[global] Instance PieceType_eq_dec : EqDecision PieceType.
Proof. solve_decision. Defined.
#[global] Instance Position_eq_dec : EqDecision Position.
Proof. solve_decision. Defined.

(** ** constants.tsx *)

Definition GRID_SIZE : nat := 4.

Definition INITIAL_HAND : list PieceType := [PAWN; ROOK; KNIGHT; BISHOP].

(** ** Indexing helpers *)

Definition otherColor (player : Color) : Color :=
  match player with white => black | black => white end.

(** [hands[color]] and [hands[color] = h] *)
Definition handOf (h : Hands) (col : Color) : list PieceType :=
  match col with white => hwhite h | black => hblack h end.

Definition setHand (h : Hands) (col : Color) (l : list PieceType) : Hands :=
  match col with
  | white => mkHands l (hblack h)
  | black => mkHands (hwhite h) l
  end.

Definition dirOf (d : PawnDirections) (col : Color) : Z :=
  match col with white => dwhite d | black => dblack d end.

Definition setDir (d : PawnDirections) (col : Color) (z : Z) : PawnDirections :=
  match col with
  | white => mkDirs z (dblack d)
  | black => mkDirs (dwhite d) z
  end.

(** [board[pos.r][pos.c]].  On a square of the grid this is the cell; the
    falsy results [null] and [undefined] are both [None].  (Off the grid
    JavaScript answers [undefined] for a column past the row's end and
    raises a TypeError for a missing row; the properties below are stated
    for boards of the grid's shape and squares on it.) *)
Definition getCell (b : Board) (pos : Position)
  : option Piece :=
  match b !! r pos with
  | Some row => match row !! c pos with Some cell => cell | None => None end
  | None => None
  end.

(** [board[pos.r][pos.c] = v] on a square of the grid.  (Off the grid
    JavaScript would grow the row or raise; the update below leaves the
    board as it is there, and every property that depends on a write
    assumes the square is on the grid.) *)
Definition setCell (b : Board) (pos : Position)
    (v : option Piece) : Board :=
  match b !! r pos with
  | Some row => <[r pos := <[c pos := v]> row]> b
  | None => b
  end.

Definition onGrid (pos : Position) : Prop :=
  r pos < GRID_SIZE ∧ c pos < GRID_SIZE.

Definition wfBoard (b : Board) : Prop :=
  length b = GRID_SIZE ∧ Forall (λ row, length row = GRID_SIZE) b.

(** [Array.from({ length: n }, (_, i) => f i)] *)
Definition arrayFrom {A} (n : nat) (f : nat → A) : list A := f <$> seq 0 n.

(** ** gameLogic.ts *)

(** [Array(GRID_SIZE).fill(null).map(() => Array(GRID_SIZE).fill(null))] *)
Definition createEmptyBoard : Board :=
  replicate GRID_SIZE (replicate GRID_SIZE None).

Definition isPosEqual (p1 p2 : Position) : bool :=
  bool_decide (r p1 = r p2) && bool_decide (c p1 = c p2).

(** The candidate lines of [checkWin], in the order they are pushed. *)
Definition rowLines : list (list Position) :=
  arrayFrom GRID_SIZE (λ r, arrayFrom GRID_SIZE (λ c, mkPos r c)).
Definition colLines : list (list Position) :=
  arrayFrom GRID_SIZE (λ c, arrayFrom GRID_SIZE (λ r, mkPos r c)).
Definition diagLines : list (list Position) :=
  [ arrayFrom GRID_SIZE (λ i, mkPos i i);
    arrayFrom GRID_SIZE (λ i, mkPos i (GRID_SIZE - 1 - i)) ].

Definition winLines : list (list Position) :=
  rowLines ++ colLines ++ diagLines.

(** [board[pos.r][pos.c]?.color === color] *)
Definition ownedBy (b : Board) (col : Color)
    (pos : Position) : bool :=
  match getCell b pos with
  | Some p => bool_decide (color p = col)
  | None => false
  end.

Definition checkWin (b : Board) (col : Color)
  : option (list Position) :=
  find (λ line, forallb (ownedBy b col) line) winLines.

(** *** serializeState *)

Definition colorStr (col : Color) : string :=
  match col with white => "white" | black => "black" end.

Definition typeStr (t : PieceType) : string :=
  match t with PAWN => "P" | ROOK => "R" | KNIGHT => "N" | BISHOP => "B" end.

(** [l.join(sep)] *)
Fixpoint join (sep : string) (l : list string) : string :=
  match l with
  | [] => ""
  | [s] => s
  | s :: rest => s +:+ sep +:+ join sep rest
  end.

(** [p ? `${p.color}${p.type}` : '-'] *)
Definition cellStr (cell : option Piece) : string :=
  match cell with
  | Some p => colorStr (color p) +:+ typeStr (type p)
  | None => "-"
  end.

(** The default [sort()] of an array of kinds orders them by the code unit
    of their one-character string: B < N < P < R. *)
Definition typeCode (t : PieceType) : nat :=
  match t with BISHOP => 66 | KNIGHT => 78 | PAWN => 80 | ROOK => 82 end.

Definition typeLe (t1 t2 : PieceType) : Prop :=
  (typeCode t1 ≤ typeCode t2)%nat.

#[global] Instance typeLe_dec : RelDecision typeLe.
Proof. intros t1 t2. unfold typeLe. apply _. Defined.

Definition sortHand (h : list PieceType) : list PieceType :=
  merge_sort typeLe h.

(** [`${n}`] of an integer is its decimal numeral ([pretty]); the code
    only ever stores the directions [1] and [-1]. *)
Definition serializeState (b : Board) (h : Hands)
    (player : Color) (dirs : PawnDirections) : string :=
  let boardStr := join "," (cellStr <$> concat b) in
  let handW := join "" (typeStr <$> sortHand (hwhite h)) in
  let handB := join "" (typeStr <$> sortHand (hblack h)) in
  let pawnDir := pretty (dwhite dirs) +:+ "," +:+ pretty (dblack dirs) in
  boardStr +:+ "|" +:+ handW +:+ "|" +:+ handB +:+ "|" +:+
  colorStr player +:+ "|" +:+ pawnDir.

(** *** isValidMove *)

(** [{ valid: true }] or [{ valid: false, message }] *)
Inductive Validation := Valid | Invalid (message : string).

Definition isValid (v : Validation) : bool :=
  match v with Valid => true | Invalid _ => false end.

(** A cell read at signed coordinates, as the path loops compute them. *)
Definition getCellZ (b : Board) (rz cz : Z)
  : option Piece :=
  if bool_decide (0 ≤ rz)%Z && bool_decide (0 ≤ cz)%Z
  then getCell b (mkPos (Z.to_nat rz) (Z.to_nat cz))
  else None.

(** The path loop shared (textually) by the rook and the bishop:
    [while (currR !== to.r || currC !== to.c) { if (board[currR][currC])
    return blocked; currR += rStep; currC += cStep; }].
    [fuel] bounds the iterations; a walk between two squares of the grid
    takes fewer than [GRID_SIZE] of them.  The result is [true] when the
    loop ends without meeting a piece. *)
Fixpoint pathClear (fuel : nat) (b : Board)
    (currR currC rStep cStep toR toC : Z) : bool :=
  if bool_decide (currR = toR) && bool_decide (currC = toC) then true
  else match fuel with
       | 0 => false
       | S fuel' =>
           match getCellZ b currR currC with
           | Some _ => false
           | None =>
               pathClear fuel' b (currR + rStep) (currC + cStep)
                 rStep cStep toR toC
           end
       end.

(** Coordinates being array indices, the tests [to.r < 0] and [to.c < 0] of
    the bounds check have no counterpart.  The path loops get [GRID_SIZE]
    iterations, more than a walk between two squares of the grid takes; the
    one call that would exhaust them, a bishop asked to stay where it is,
    is answered "blocked" (the loop of the code walks off the board
    there). *)
Definition isValidMove (gameState : GameState) (piece : Piece)
    (from to : Position) : Validation :=
  let b := board gameState in
  let dr := (Z.of_nat (r to) - Z.of_nat (r from))%Z in
  let dc := (Z.of_nat (c to) - Z.of_nat (c from))%Z in
  let absDr := Z.abs dr in
  let absDc := Z.abs dc in
  if bool_decide (GRID_SIZE ≤ r to) || bool_decide (GRID_SIZE ≤ c to)
  then Invalid "Move is out of bounds."
  else
  let targetPiece := getCell b to in
  if match targetPiece with
     | Some t => bool_decide (color t = color piece)
     | None => false
     end
  then Invalid "You cannot capture your own piece."
  else
  match type piece with
  | ROOK =>
      if bool_decide (dr ≠ 0%Z) && bool_decide (dc ≠ 0%Z)
      then Invalid "Rooks move straight."
      else
        let rStep := Z.sgn dr in
        let cStep := Z.sgn dc in
        if pathClear GRID_SIZE b (Z.of_nat (r from) + rStep)
             (Z.of_nat (c from) + cStep) rStep cStep
             (Z.of_nat (r to)) (Z.of_nat (c to))
        then Valid else Invalid "The path is blocked."
  | BISHOP =>
      if bool_decide (absDr ≠ absDc)
      then Invalid "Bishops move diagonally."
      else
        let brStep := if bool_decide (0 < dr)%Z then 1%Z else (-1)%Z in
        let bcStep := if bool_decide (0 < dc)%Z then 1%Z else (-1)%Z in
        if pathClear GRID_SIZE b (Z.of_nat (r from) + brStep)
             (Z.of_nat (c from) + bcStep) brStep bcStep
             (Z.of_nat (r to)) (Z.of_nat (c to))
        then Valid else Invalid "The path is blocked."
  | KNIGHT =>
      if negb ((bool_decide (absDr = 2%Z) && bool_decide (absDc = 1%Z))
               || (bool_decide (absDr = 1%Z) && bool_decide (absDc = 2%Z)))
      then Invalid "Knights move in an L-shape."
      else Valid
  | PAWN =>
      let dir := dirOf (pawnDirections gameState) (color piece) in
      if bool_decide (dc = 0%Z) && bool_decide (dr = dir) then
        match targetPiece with
        | Some _ => Invalid "Pawns can only move forward into empty squares."
        | None => Valid
        end
      else if bool_decide (absDc = 1%Z) && bool_decide (dr = dir) then
        match targetPiece with
        | Some t =>
            if bool_decide (color t = color piece)
            then Invalid "Pawns can only capture diagonally."
            else Valid
        | None => Invalid "Pawns can only capture diagonally."
        end
      else Invalid "Invalid pawn movement."
  end.

(** *** getLegalMoves *)

(** [Array.from(new Set(l))]: the distinct elements in the order of their
    first occurrence. *)
Fixpoint uniqueFrom (seen l : list PieceType) : list PieceType :=
  match l with
  | [] => []
  | x :: rest =>
      if bool_decide (x ∈ seen) then uniqueFrom seen rest
      else x :: uniqueFrom (x :: seen) rest
  end.

Definition unique (l : list PieceType) : list PieceType := uniqueFrom [] l.

Definition squares : list Position :=
  r ← seq 0 GRID_SIZE; c ← seq 0 GRID_SIZE; [mkPos r c].

Definition placeMove (pt : PieceType) (dest : Position) : Move :=
  mkMove place pt dest None None None.

Definition boardMove (piece : Piece) (from dest : Position)
    (target : option Piece) : Move :=
  mkMove (move from) (type piece) dest target None None.

Definition getLegalMoves (gameState : GameState) (col : Color) : list Move :=
  let b := board gameState in
  let colorHand := handOf (hands gameState) col in
  let uniqueHandPieces := unique colorHand in
  let placements :=
    pt ← uniqueHandPieces;
    dest ← squares;
    match getCell b dest with
    | None => [placeMove pt dest]
    | Some _ => []
    end in
  let boardMoves :=
    from ← squares;
    match getCell b from with
    | Some piece =>
        if bool_decide (color piece = col) then
          dest ← squares;
          if bool_decide (from = dest) then []
          else if isValid (isValidMove gameState piece from dest)
               then [boardMove piece from dest (getCell b dest)]
               else []
        else []
    | None => []
    end in
  placements ++ boardMoves.

(** ** App.tsx: resetGame and executeMove *)

Definition capitalized (col : Color) : string :=
  match col with white => "White" | black => "Black" end.

Definition upperCase (col : Color) : string :=
  match col with white => "WHITE" | black => "BLACK" end.

Definition difficultyStr (d : Difficulty) : string :=
  match d with easy => "easy" | medium => "medium" | hard => "hard" end.

Definition resetGame (mode : GameMode) (diff : Difficulty)
    (firstPlayer : Color) : GameState :=
  let emptyBoard := createEmptyBoard in
  let initialHands := mkHands INITIAL_HAND INITIAL_HAND in
  let initialPawnDirs := mkDirs (-1) 1 in
  let initialHash :=
    serializeState emptyBoard initialHands firstPlayer initialPawnDirs in
  {| board := emptyBoard;
     hands := initialHands;
     pawnDirections := initialPawnDirs;
     currentPlayer := firstPlayer;
     winner := None;
     winningLine := None;
     history := [];
     statusMessage :=
       match mode with
       | online => "Waiting for players..."
       | _ => capitalized firstPlayer +:+ "'s turn."
       end;
     gameMode := mode;
     difficulty := diff;
     positionCounts := {[ initialHash := 1 ]} |}.

(** [l.indexOf(x)], with [None] for -1. *)
Fixpoint indexOf (x : PieceType) (l : list PieceType) : option nat :=
  match l with
  | [] => None
  | y :: rest => if bool_decide (y = x) then Some 0 else S <$> indexOf x rest
  end.

(** A string used as a condition: empty and absent are both falsy. *)
Definition truthy (s : option string) : option string :=
  match s with
  | Some "" => None
  | other => other
  end.

(** The status text computed at the end of [executeMove]. *)
Definition statusOf (prev : GameState) (myColor : option Color) (m : Move)
    (win : option Winner) (nextPlayer : Color) : string :=
  match win with
  | Some draw => "DRAW: 3-FOLD REPETITION"
  | Some (Won w) => upperCase w +:+ " WINS!"
  | None =>
      match truthy (logicFeedback m) with
      | Some msg => msg
      | None =>
          match gameMode prev with
          | online =>
              if bool_decide (myColor = Some nextPlayer)
              then "Your Turn" else "Opponent's Turn"
          | ai =>
              match nextPlayer with
              | white => "Your Turn"
              | black =>
                  "CPU Thinking (" +:+ difficultyStr (difficulty prev) +:+ ")..."
              end
          | local => capitalized nextPlayer +:+ "'s Turn"
          end
      end
  end.

(** The second half of [executeMove], from [const targetCell = ...] on:
    [newBoard] and [newHands] are the copies already updated by the branch
    for the move's type, [activePiece] the piece that lands. *)
Definition landPiece (myColor : option Color) (prev : GameState) (m : Move)
    (newBoard : Board) (newHands : Hands)
    (activePiece : Piece) : GameState :=
  let player := currentPlayer prev in
  let opponent := otherColor player in
  let targetCell := getCell newBoard (to m) in
  let newHands :=
    match targetCell with
    | Some t => setHand newHands opponent (handOf newHands opponent ++ [type t])
    | None => newHands
    end in
  let newBoard := setCell newBoard (to m) (Some activePiece) in
  let newPawnDirs := pawnDirections prev in
  let newPawnDirs :=
    match type activePiece with
    | PAWN =>
        let d := if bool_decide (r (to m) = 0)
                 then setDir newPawnDirs player 1 else newPawnDirs in
        if bool_decide (r (to m) = GRID_SIZE - 1)
        then setDir d player (-1) else d
    | _ => newPawnDirs
    end in
  let winningLine := checkWin newBoard player in
  let winner0 := match winningLine with Some _ => Some (Won player) | None => None end in
  let nextPlayer := match winner0 with Some _ => player | None => opponent end in
  let '(newPositionCounts, winner1) :=
    match winner0 with
    | Some _ => (positionCounts prev, winner0)
    | None =>
        let hash := serializeState newBoard newHands nextPlayer newPawnDirs in
        let n := default 0 (positionCounts prev !! hash) + 1 in
        (<[hash := n]> (positionCounts prev),
         if bool_decide (3 ≤ n) then Some draw else None)
    end in
  {| board := newBoard;
     hands := newHands;
     pawnDirections := newPawnDirs;
     currentPlayer := nextPlayer;
     winner := winner1;
     winningLine := winningLine;
     history := history prev ++ [m];
     statusMessage := statusOf prev myColor m winner1 nextPlayer;
     gameMode := gameMode prev;
     difficulty := difficulty prev;
     positionCounts := newPositionCounts |}.

(** The state updater of [executeMove].  [myColor] is the component's colour
    in an online game and [now] the reading of [Date.now()]; the sounds and
    the message sent to the peer do not touch the state and are left out. *)
Definition executeMove (myColor : option Color) (now : N) (prev : GameState)
    (m : Move) : GameState :=
  match winner prev with
  | Some _ => prev
  | None =>
      let player := currentPlayer prev in
      match mtype m with
      | place =>
          match indexOf (pieceType m) (handOf (hands prev) player) with
          | None => prev
          | Some handIdx =>
              let newHands :=
                setHand (hands prev) player
                  (delete handIdx (handOf (hands prev) player)) in
              let activePiece :=
                {| type := pieceType m;
                   color := player;
                   id := match truthy (pieceId m) with
                         | Some i => i
                         | None =>
                             colorStr player +:+ "-" +:+ typeStr (pieceType m)
                             +:+ "-" +:+ pretty now
                         end |} in
              landPiece myColor prev m (board prev) newHands activePiece
          end
      | move from =>
          match getCell (board prev) from with
          | None => prev
          | Some fromPiece =>
              let newBoard := setCell (board prev) from None in
              landPiece myColor prev m newBoard (hands prev) fromPiece
          end
      end
  end.

(** ** cpuOpponent.ts *)

Module SCORES.
Definition WIN : Z := 100000.
Definition THREE_IN_ROW : Z := 1000.
Definition TWO_IN_ROW : Z := 100.
Definition CENTER : Z := 80.
Definition PIECE_ON_BOARD : Z := 50.
Definition PIECE_IN_HAND : Z := 30. (* retention value *)
End SCORES.

Definition CENTER_SQUARES : list Position :=
  [mkPos 1 1; mkPos 1 2; mkPos 2 1; mkPos 2 2].

(** [getLines()], and the same loop inlined in [evaluateBoard]: row [i] and
    column [i] alternate, then the two diagonals. *)
Definition getLines : list (list Position) :=
  (i ← seq 0 GRID_SIZE;
   [ arrayFrom GRID_SIZE (λ j, mkPos i j);
     arrayFrom GRID_SIZE (λ j, mkPos j i) ])
  ++ [ arrayFrom GRID_SIZE (λ i, mkPos i i);
       arrayFrom GRID_SIZE (λ i, mkPos i (GRID_SIZE - 1 - i)) ].

(** The counters [mine] and [theirs] of one line. *)
Definition countLine (b : Board) (aiColor : Color)
    (line : list Position) : nat * nat :=
  foldl (λ '(mine, theirs) pos,
           match getCell b pos with
           | Some p =>
               if bool_decide (color p = aiColor) then (S mine, theirs)
               else (mine, S theirs)
           | None => (mine, theirs)
           end) (0, 0) line.

(** The contribution of one line to the score.  [THREE_IN_ROW * 1.5] is the
    integer 1500; every number of the evaluator is an integer far below
    2^53, so the floating-point arithmetic of the code is exact integer
    arithmetic. *)
Definition lineScore (b : Board) (aiColor : Color)
    (line : list Position) : Z :=
  let '(mine, theirs) := countLine b aiColor line in
  let bonus : Z :=
    if bool_decide (theirs = 0) then
      if bool_decide (mine = 3) then SCORES.THREE_IN_ROW
      else if bool_decide (mine = 2) then SCORES.TWO_IN_ROW else 0%Z
    else 0%Z in
  let penalty : Z :=
    if bool_decide (mine = 0) then
      if bool_decide (theirs = 3) then (SCORES.THREE_IN_ROW * 3 / 2)%Z
      else if bool_decide (theirs = 2) then SCORES.TWO_IN_ROW else 0%Z
    else 0%Z in
  (bonus - penalty)%Z.

(** The contribution of one square to the score. *)
Definition squareScore (b : Board) (aiColor : Color)
    (pos : Position) : Z :=
  match getCell b pos with
  | None => 0%Z
  | Some p =>
      let val :=
        (SCORES.PIECE_ON_BOARD +
         if existsb (λ cs, bool_decide (r cs = r pos) && bool_decide (c cs = c pos))
              CENTER_SQUARES
         then SCORES.CENTER else 0)%Z in
      if bool_decide (color p = aiColor) then val else (- val)%Z
  end.

Definition sumZ (l : list Z) : Z := foldl Z.add 0%Z l.

(** The score when neither colour has a line. *)
Definition heuristic (b : Board) (h : Hands)
    (aiColor : Color) : Z :=
  let opponent := otherColor aiColor in
  (sumZ (lineScore b aiColor <$> getLines)
   + sumZ (squareScore b aiColor <$> squares)
   + Z.of_nat (length (handOf h aiColor)) * SCORES.PIECE_IN_HAND
   - Z.of_nat (length (handOf h opponent)) * SCORES.PIECE_IN_HAND)%Z.

Definition evaluateBoard (b : Board) (h : Hands)
    (aiColor : Color) : Z :=
  let opponent := otherColor aiColor in
  match checkWin b aiColor with
  | Some _ => SCORES.WIN
  | None =>
      match checkWin b opponent with
      | Some _ => (- SCORES.WIN)%Z
      | None => heuristic b h aiColor
      end
  end.

Definition simulateMove (gameState : GameState) (m : Move) : GameState :=
  let player := currentPlayer gameState in
  let opponent := otherColor player in
  let '(newBoard, newHands) :=
    match mtype m with
    | place =>
        let newHands :=
          match indexOf (pieceType m) (handOf (hands gameState) player) with
          | Some idx =>
              setHand (hands gameState) player
                (delete idx (handOf (hands gameState) player))
          | None => hands gameState
          end in
        (setCell (board gameState) (to m)
           (Some {| type := pieceType m; color := player; id := "sim" |}),
         newHands)
    | move from =>
        let p := getCell (board gameState) from in
        let newBoard := setCell (board gameState) from None in
        let target := getCell newBoard (to m) in
        let newHands :=
          match target with
          | Some t =>
              setHand (hands gameState) opponent
                (handOf (hands gameState) opponent ++ [type t])
          | None => hands gameState
          end in
        (setCell newBoard (to m) p, newHands)
    end in
  {| board := newBoard;
     hands := newHands;
     pawnDirections := pawnDirections gameState;
     currentPlayer := opponent;
     winner := winner gameState;
     winningLine := winningLine gameState;
     history := history gameState;
     statusMessage := statusMessage gameState;
     gameMode := gameMode gameState;
     difficulty := difficulty gameState;
     positionCounts := positionCounts gameState |}.

(** *** Scores with the two infinities *)

Inductive num := NegInf | Fin (z : Z) | PosInf.

Definition num_leb (x y : num) : bool :=
  match x, y with
  | NegInf, _ => true
  | _, PosInf => true
  | Fin a, Fin b => bool_decide (a ≤ b)%Z
  | _, _ => false
  end.

Definition num_ltb (x y : num) : bool := negb (num_leb y x).

(** [Math.max] and [Math.min] *)
Definition num_max (x y : num) : num := if num_leb x y then y else x.
Definition num_min (x y : num) : num := if num_leb x y then x else y.

(** *** minimax *)

(** The loop of a maximizing node; [child m alpha beta] is the recursive
    call on the state after [m]. *)
Fixpoint maxLoop (child : Move → num → num → num) (moves : list Move)
    (alpha beta maxEval : num) : num :=
  match moves with
  | [] => maxEval
  | m :: rest =>
      let evalScore := child m alpha beta in
      let maxEval := num_max maxEval evalScore in
      let alpha := num_max alpha evalScore in
      if num_leb beta alpha then maxEval
      else maxLoop child rest alpha beta maxEval
  end.

(** The loop of a minimizing node. *)
Fixpoint minLoop (child : Move → num → num → num) (moves : list Move)
    (alpha beta minEval : num) : num :=
  match moves with
  | [] => minEval
  | m :: rest =>
      let evalScore := child m alpha beta in
      let minEval := num_min minEval evalScore in
      let beta := num_min beta evalScore in
      if num_leb beta alpha then minEval
      else minLoop child rest alpha beta minEval
  end.

(** [checkWin(board, 'white') || checkWin(board, 'black')] as a condition *)
Definition winState (b : Board) : bool :=
  match checkWin b white with
  | Some _ => true
  | None => match checkWin b black with Some _ => true | None => false end
  end.

Fixpoint minimax (gameState : GameState) (depth : nat) (alpha beta : num)
    (isMaximizing : bool) (aiColor : Color) : num :=
  match depth with
  | 0 => Fin (evaluateBoard (board gameState) (hands gameState) aiColor)
  | S depth' =>
      if winState (board gameState)
      then Fin (evaluateBoard (board gameState) (hands gameState) aiColor)
      else
        match getLegalMoves gameState (currentPlayer gameState) with
        | [] => Fin 0
        | moves =>
            if isMaximizing then
              maxLoop (λ m a b,
                         minimax (simulateMove gameState m) depth' a b false
                           aiColor)
                moves alpha beta NegInf
            else
              minLoop (λ m a b,
                         minimax (simulateMove gameState m) depth' a b true
                           aiColor)
                moves alpha beta PosInf
        end
  end.

(** *** getCpuMove *)

(** One reading of [Math.random()]: the fraction [rnum / rden], which lies
    in [0, 1) when [rnum < rden]. *)
Record Random := mkRandom { rnum : nat; rden : nat }.

(** [Math.floor(Math.random() * len)] *)
Definition randomIndex (rnd : Random) (len : nat) : nat :=
  (rnum rnd * len) / rden rnd.

(** [{ ...move, logicFeedback: s }] *)
Definition withFeedback (m : Move) (s : string) : Move :=
  {| mtype := mtype m; pieceType := pieceType m; to := to m;
     captured := captured m; pieceId := pieceId m;
     logicFeedback := Some s |}.

(** [`${String.fromCharCode(65 + pos.c)}${pos.r + 1}`] *)
Definition squareName (pos : Position) : string :=
  String (ascii_of_nat (65 + c pos)) "" +:+ pretty (r pos + 1).

(** The counter [oppCount] and the last empty square [emptyPos] of a line. *)
Definition scanLine (b : Board) (opponent : Color)
    (line : list Position) : nat * option Position :=
  foldl (λ '(oppCount, emptyPos) pos,
           match getCell b pos with
           | Some p =>
               if bool_decide (color p = opponent) then (S oppCount, emptyPos)
               else (oppCount, emptyPos)
           | None => (oppCount, Some pos)
           end) (0, None) line.

(** The loop over [getLines()] of the medium strategy: the first line with
    three opposing pieces and an empty square that some legal move lands
    on yields that move. *)
Fixpoint blockThreat (b : Board) (opponent : Color)
    (moves : list Move) (lines : list (list Position)) : option Move :=
  match lines with
  | [] => None
  | line :: rest =>
      match scanLine b opponent line with
      | (3, Some emptyPos) =>
          match find (λ m, bool_decide (r (to m) = r emptyPos)
                           && bool_decide (c (to m) = c emptyPos)) moves with
          | Some blockMove =>
              Some (withFeedback blockMove
                      ("CPU (Medium): Blocking threat at " +:+ squareName emptyPos))
          | None => blockThreat b opponent moves rest
          end
      | _ => blockThreat b opponent moves rest
      end
  end.

Definition isCapture (gameState : GameState) (m : Move) : bool :=
  match mtype m, getCell (board gameState) (to m) with
  | move _, Some _ => true
  | _, _ => false
  end.

(** The loop of the hard strategy: the pair (bestMove, bestValue) after the
    moves of [moves], with [value m] the score of the search below [m]. *)
Definition bestOf (value : Move → num) (moves : list Move)
    (start : Move * num) : Move * num :=
  foldl (λ '(bestMove, bestValue) m,
           let boardValue := value m in
           if num_ltb bestValue boardValue then (m, boardValue)
           else (bestMove, bestValue)) start moves.

Definition hardFeedback (bestMove : Move) : string :=
  let isCenter :=
    existsb (λ cs, bool_decide (r cs = r (to bestMove))
                   && bool_decide (c cs = c (to bestMove))) CENTER_SQUARES in
  match mtype bestMove with
  | place => "CPU (Hard): Tactical drop to " +:+ squareName (to bestMove) +:+ "."
  | move _ =>
      "CPU (Hard): Calculated move to " +:+
      (if isCenter then "Center" else "strategic square") +:+ "."
  end.

(** The hard strategy: [bestMove] starts as [moves[0]] and [bestValue] as
    [-Infinity]; [value m] is the score the search gives to [m]. *)
Definition hardChoice (value : Move → num) (moves : list Move)
  : option (Move * num) :=
  match moves with
  | [] => None
  | first :: _ => Some (bestOf value moves (first, NegInf))
  end.

(** [getCpuMove], with the value [rnd] that [Math.random()] returns when it
    is called; the result [None] is [null].  The 800 ms delay of the hard
    strategy and the second loop of the medium strategy, whose results are
    discarded, compute nothing and are left out. *)
Definition getCpuMove (rnd : Random) (gameState : GameState) : option Move :=
  let moves := getLegalMoves gameState (currentPlayer gameState) in
  match moves with
  | [] => None
  | _ =>
      let player := currentPlayer gameState in
      let opponent := otherColor player in
      match difficulty gameState with
      | easy =>
          (λ m, withFeedback m "CPU (Easy): Choosing a move at random.")
            <$> moves !! randomIndex rnd (length moves)
      | medium =>
          match find (λ m, bool_decide
                             (is_Some (checkWin (board (simulateMove gameState m))
                                         player))) moves with
          | Some m =>
              Some (withFeedback m "CPU (Medium): Finishing the line for a win!")
          | None =>
              match blockThreat (board gameState) opponent moves getLines with
              | Some m => Some m
              | None =>
                  match filter (λ m, isCapture gameState m = true) moves with
                  | cm :: _ =>
                      Some (withFeedback cm
                              "CPU (Medium): Prioritizing piece capture.")
                  | [] =>
                      (λ m, withFeedback m
                              "CPU (Medium): No immediate threats, moving strategically.")
                        <$> moves !! randomIndex rnd (length moves)
                  end
              end
          end
      | hard =>
          (λ '(bestMove, _), withFeedback bestMove (hardFeedback bestMove))
            <$> hardChoice
                  (λ m, minimax (simulateMove gameState m) 3 NegInf PosInf
                          false player)
                  moves
      end
  end.

(** ** App.tsx: the handlers of the board, of the hands and of the opponent *)

(** [selectedPiece]: a kind picked in a hand, or a piece of the board with
    its square [from]. *)
Record Selected := mkSelected { stype : PieceType; sfrom : option Position }.

(** The three tests that open [handleCellClick] and [handleHandClick]: the
    game is over, the colour is the computer's, or the colour is not the
    one played on this side of an online game.  [handleCellClick] runs
    them on the player to move, [handleHandClick] on the colour of the hand
    clicked. *)
Definition returnsAtOnce (myColor : option Color) (gameState : GameState)
    (col : Color) : bool :=
  match winner gameState with
  | Some _ => true
  | None =>
      match gameMode gameState with
      | ai => bool_decide (col = black)
      | online => bool_decide (myColor ≠ Some col)
      | local => false
      end
  end.

(** [handleCellClick(r, c)], as the new game state and the new selection.
    The view calls it for the squares of the board only; [executeMove] ends
    with [setSelectedPiece(null)].  The sounds are left out. *)
Definition handleCellClick (myColor : option Color) (now : N)
    (gameState : GameState) (selectedPiece : option Selected)
    (pos : Position) : GameState * option Selected :=
  if returnsAtOnce myColor gameState (currentPlayer gameState)
  then (gameState, selectedPiece)
  else
    let clickedPiece := getCell (board gameState) pos in
    let ownPiece :=
      match clickedPiece with
      | Some p =>
          if bool_decide (color p = currentPlayer gameState)
          then Some p else None
      | None => None
      end in
    match selectedPiece with
    | Some sel =>
        if match sfrom sel with
           | Some from => isPosEqual from pos
           | None => false
           end
        then (gameState, None)
        else
          match ownPiece with
          | Some p => (gameState, Some (mkSelected (type p) (Some pos)))
          | None =>
              match sfrom sel with
              | None =>
                  match clickedPiece with
                  | Some _ => (gameState, selectedPiece)
                  | None =>
                      (executeMove myColor now gameState
                         (mkMove place (stype sel) pos None None None),
                       None)
                  end
              | Some from =>
                  match getCell (board gameState) from with
                  | Some boardPiece =>
                      if isValid (isValidMove gameState boardPiece from pos)
                      then (executeMove myColor now gameState
                              (mkMove (move from) (stype sel) pos
                                 None None None),
                            None)
                      else (gameState, selectedPiece)
                  | None => (gameState, selectedPiece)
                  end
              end
          end
    | None =>
        match ownPiece with
        | Some p => (gameState, Some (mkSelected (type p) (Some pos)))
        | None => (gameState, selectedPiece)
        end
    end.

(** [handleHandClick(type, color)], as the new selection; the game state
    is not touched. *)
Definition handleHandClick (myColor : option Color) (gameState : GameState)
    (selectedPiece : option Selected) (pt : PieceType) (col : Color)
  : option Selected :=
  if returnsAtOnce myColor gameState col then selectedPiece
  else if bool_decide (currentPlayer gameState ≠ col) then selectedPiece
  else
    match selectedPiece with
    | Some sel =>
        match sfrom sel with
        | None =>
            if bool_decide (stype sel = pt) then None
            else Some (mkSelected pt None)
        | Some _ => Some (mkSelected pt None)
        end
    | None => Some (mkSelected pt None)
    end.

(** [getValidHint(gameState, selected, to)] *)
Definition getValidHint (gameState : GameState) (selected : option Selected)
    (dest : Position) : bool :=
  match selected with
  | Some sel =>
      match sfrom sel with
      | Some from =>
          match getCell (board gameState) from with
          | Some piece => isValid (isValidMove gameState piece from dest)
          | None => false
          end
      | None => false
      end
  | None => false
  end.

(** One run of the effect that plays for the computer, as the new game
    state and the new selection: when it is Black's turn in a game against
    the computer that is not over and no run is under way, the move of
    [getCpuMove], if there is one, goes to [executeMove].  The game state is
    taken not to change while [getCpuMove] is awaited (the handlers of the
    board and of the hands return at once during Black's turn). *)
Definition cpuEffect (rnd : Random) (myColor : option Color) (now : N)
    (isAiThinking : bool) (gameState : GameState)
    (selectedPiece : option Selected) : GameState * option Selected :=
  match currentPlayer gameState, gameMode gameState, winner gameState,
        isAiThinking with
  | black, ai, None, false =>
      match getCpuMove rnd gameState with
      | Some m => (executeMove myColor now gameState m, None)
      | None => (gameState, selectedPiece)
      end
  | _, _, _, _ => (gameState, selectedPiece)
  end.

(** ** The exhaustive search of the specification

    Minimax of the same depth without the bounds [alpha] and [beta]: every
    child of every node is searched.  This definition follows the words of
    the specification; [minimax] above follows the code. *)
Fixpoint exhaustiveMinimax (gameState : GameState) (depth : nat)
    (isMaximizing : bool) (aiColor : Color) : num :=
  match depth with
  | 0 => Fin (evaluateBoard (board gameState) (hands gameState) aiColor)
  | S depth' =>
      if winState (board gameState)
      then Fin (evaluateBoard (board gameState) (hands gameState) aiColor)
      else
        match getLegalMoves gameState (currentPlayer gameState) with
        | [] => Fin 0
        | moves =>
            if isMaximizing then
              foldl num_max NegInf
                ((λ m, exhaustiveMinimax (simulateMove gameState m) depth'
                         false aiColor) <$> moves)
            else
              foldl num_min PosInf
                ((λ m, exhaustiveMinimax (simulateMove gameState m) depth'
                         true aiColor) <$> moves)
        end
  end.

(** * Notions of the specification *)

(** ** Lines and keys *)

(** What the specification calls a winning line: every square on it holds a
    piece owned by the colour. *)
Definition lineWonBy (b : Board) (col : Color) (line : list Position) : Prop :=
  ∀ pos, pos ∈ line → ∃ p, getCell b pos = Some p ∧ color p = col.

(** The character [ch] does not occur in [s]. *)
Fixpoint noChar (ch : ascii) (s : string) : Prop :=
  match s with
  | "" => True
  | String a s' => a ≠ ch ∧ noChar ch s'
  end.

(** The colour and kind of the occupant of a cell, which is what the key
    records of it (the identity of a piece is not part of the key). *)
Definition cellKind (cell : option Piece) : option (Color * PieceType) :=
  (λ p, (color p, type p)) <$> cell.

(** ** Moves of a game *)

(** The directions a game ever holds: [-1] (up) or [1] (down). *)
Definition unitDirs (d : PawnDirections) : Prop :=
  (dwhite d = 1 ∨ dwhite d = -1)%Z ∧ (dblack d = 1 ∨ dblack d = -1)%Z.

(** [executeMove] really applies [m] (it is not one of the calls that return
    the state unchanged): the game is not over, a placed kind is in the
    mover's hand, a relocated piece is on its origin square. *)
Definition applies (prev : GameState) (m : Move) : Prop :=
  winner prev = None ∧
  match mtype m with
  | place =>
      is_Some (indexOf (pieceType m) (handOf (hands prev) (currentPlayer prev)))
  | move from => is_Some (getCell (board prev) from)
  end.

(** The mover's hand once the piece to land has been taken up: a placement
    takes the first entry of the placed kind out of it, a relocation leaves
    it alone. *)
Definition handAfterLift (prev : GameState) (m : Move) : list PieceType :=
  let hand := handOf (hands prev) (currentPlayer prev) in
  match mtype m with
  | place =>
      match indexOf (pieceType m) hand with
      | Some idx => delete idx hand
      | None => hand
      end
  | move _ => hand
  end.

(** A relocation goes to a square other than its origin. *)
Definition leavesOrigin (m : Move) : Prop :=
  match mtype m with
  | place => True
  | move from => from ≠ to m
  end.

(** The kind of the piece that lands: the placed kind, or the kind of the
    piece on the origin square. *)
Definition activeType (prev : GameState) (m : Move) : option PieceType :=
  match mtype m with
  | place => Some (pieceType m)
  | move from => type <$> getCell (board prev) from
  end.

(** The squares a move names are squares of the grid. *)
Definition onGridMove (m : Move) : Prop :=
  onGrid (to m) ∧
  match mtype m with
  | place => True
  | move from => onGrid from
  end.

(** The states of a game: a fresh game, and whatever [executeMove] makes of
    a state of the game and a move between squares of the grid. *)
Inductive reachable : GameState → Prop :=
  | reachable_reset mode diff firstPlayer :
      reachable (resetGame mode diff firstPlayer)
  | reachable_move myColor now prev m :
      reachable prev →
      onGridMove m →
      reachable (executeMove myColor now prev m).

(** ** The kinds of a state *)

Definition cellKinds (cell : option Piece) : list PieceType :=
  match cell with Some p => [type p] | None => [] end.

Definition rowKinds (row : list (option Piece)) : list PieceType :=
  row ≫= cellKinds.

Definition boardKinds (b : Board) : list PieceType := b ≫= rowKinds.

(** Every kind of the game, with its multiplicity: those on the board and
    those in the two hands. *)
Definition allKinds (s : GameState) : list PieceType :=
  (boardKinds (board s) ++ hwhite (hands s) ++ hblack (hands s))%list.

(** ** Scores and strategies *)


(** [x] brought into the window from [a] to [b]. *)
Definition clamp (a b x : num) : num := num_max a (num_min b x).

(** The medium strategy finds a move before it comes to the random draw: a
    move that wins at once, a move onto the empty square of a line with
    three opposing pieces, or a capture. *)
Definition mediumDecided (gameState : GameState) : Prop :=
  let player := currentPlayer gameState in
  let moves := getLegalMoves gameState player in
  is_Some (find (λ m, bool_decide
                        (is_Some (checkWin (board (simulateMove gameState m))
                                    player))) moves) ∨
  is_Some (blockThreat (board gameState) (otherColor player) moves getLines) ∨
  filter (λ m, isCapture gameState m = true) moves ≠ [].

(** ** Paths and threats *)

(** The squares strictly between [from] and [to] on the straight or diagonal
    line through them, from the one next to [from] on. *)
Definition squaresBetween (from to : Position) : list Position :=
  let dr := (Z.of_nat (r to) - Z.of_nat (r from))%Z in
  let dc := (Z.of_nat (c to) - Z.of_nat (c from))%Z in
  let dist := Z.to_nat (Z.max (Z.abs dr) (Z.abs dc)) in
  (λ k, mkPos (Z.to_nat (Z.of_nat (r from) + Z.of_nat k * Z.sgn dr))
              (Z.to_nat (Z.of_nat (c from) + Z.of_nat k * Z.sgn dc)))
    <$> seq 1 (dist - 1).

(** The destination does not hold a piece of the mover's colour. *)
Definition notOwn (b : Board) (piece : Piece) (dest : Position) : Prop :=
  ∀ t, getCell b dest = Some t → color t ≠ color piece.

(** One colour has three pieces on the line and the other none. *)
Definition threeAlone (b : Board) (line : list Position) : bool :=
  let '(whites, blacks) := countLine b white line in
  bool_decide ((whites = 3 ∧ blacks = 0) ∨ (whites = 0 ∧ blacks = 3)).

(** ** Runs of the component *)

(** A selected square holds a piece of the player to move, of the selected
    kind. *)
Definition selectionOk (gameState : GameState)
    (selectedPiece : option Selected) : Prop :=
  ∀ sel from,
    selectedPiece = Some sel → sfrom sel = Some from →
    ∃ piece, getCell (board gameState) from = Some piece ∧
             color piece = currentPlayer gameState ∧
             type piece = stype sel.

(** What happens to the component during a game: a click on a square of
    the board, a click on a kind of a hand, a run of the computer's
    effect. *)
Inductive Event :=
  | CellClick (pos : Position)
  | HandClick (pt : PieceType) (col : Color)
  | CpuRun (rnd : Random) (isAiThinking : bool).

Definition handle (myColor : option Color) (now : N)
    (ui : GameState * option Selected) (e : Event)
  : GameState * option Selected :=
  match e with
  | CellClick pos => handleCellClick myColor now ui.1 ui.2 pos
  | HandClick pt col => (ui.1, handleHandClick myColor ui.1 ui.2 pt col)
  | CpuRun rnd isAiThinking =>
      cpuEffect rnd myColor now isAiThinking ui.1 ui.2
  end.

(** The squares an event names are squares of the grid. *)
Definition onGridEvent (e : Event) : Prop :=
  match e with
  | CellClick pos => onGrid pos
  | _ => True
  end.

(** The states of the component: a fresh game with nothing selected, and
    whatever the handlers make of a state of the component. *)
Inductive uiReachable : GameState * option Selected → Prop :=
  | uiReachable_reset mode diff firstPlayer :
      uiReachable (resetGame mode diff firstPlayer, None)
  | uiReachable_handle myColor now ui e :
      uiReachable ui → onGridEvent e →
      uiReachable (handle myColor now ui e).

(** ** Play by the rules *)

(** The kinds of the pieces of a colour: on a square, on the board, and
    with the colour's hand. *)
Definition cellKindsOf (col : Color) (cell : option Piece) : list PieceType :=
  match cell with
  | Some p => if bool_decide (color p = col) then [type p] else []
  | None => []
  end.

Definition boardKindsOf (col : Color) (b : Board) : list PieceType :=
  b ≫= (λ row, row ≫= cellKindsOf col).

Definition kindsOf (col : Color) (s : GameState) : list PieceType :=
  (boardKindsOf col (board s) ++ handOf (hands s) col)%list.

(** A move that is a legal move of the player to move but for the entries
    [executeMove] does not read or only records: the occupant of the
    destination, the id to give to a placed piece, the explanation. *)
Definition legalFor (gameState : GameState) (m : Move) : Prop :=
  ∃ legal,
    legal ∈ getLegalMoves gameState (currentPlayer gameState) ∧
    mtype m = mtype legal ∧ pieceType m = pieceType legal ∧
    to m = to legal.

(** The states of a game played by the rules: a fresh game, and whatever
    [executeMove] makes of such a state and a legal move. *)
Inductive played : GameState → Prop :=
  | played_reset mode diff firstPlayer :
      played (resetGame mode diff firstPlayer)
  | played_move myColor now prev m :
      played prev → legalFor prev m →
      played (executeMove myColor now prev m).

(** ** Scores that are numbers *)

(** [Number.isFinite]: the score is neither of the two infinities. *)
Definition isFinite (x : num) : Prop := ∃ z, x = Fin z.

(** ** Example positions *)

Definition whitePiece (t : PieceType) : option Piece :=
  Some {| type := t; color := white; id := "w" |}.
Definition blackPiece (t : PieceType) : option Piece :=
  Some {| type := t; color := black; id := "b" |}.

(** A board on which White holds row 1 and Black three squares of row 3. *)
Definition rowBoard : Board :=
  [ [None; None; None; None];
    [whitePiece PAWN; whitePiece ROOK; whitePiece KNIGHT; whitePiece BISHOP];
    [None; None; None; None];
    [blackPiece PAWN; blackPiece ROOK; blackPiece KNIGHT; None] ].


(** A position of a game in which a white Pawn stands one step from row 0:
    White placed a Pawn on (1,0) and Black a Rook on (3,3). *)
Definition pawnEdgeState : GameState :=
  executeMove None 0
    (executeMove None 0 (resetGame local medium white)
       (placeMove PAWN (mkPos 1 0)))
    (placeMove ROOK (mkPos 3 3)).

(** The step of that Pawn onto row 0. *)
Definition pawnEdgeMove : Move :=
  mkMove (move (mkPos 1 0)) PAWN (mkPos 0 0) None None None.

(** The scenario of the specification: White has a Rook on (0,0), Black a
    Bishop on (0,3), and the Rook takes the Bishop. *)
Definition captureState : GameState :=
  executeMove None 0
    (executeMove None 0 (resetGame local medium white)
       (placeMove ROOK (mkPos 0 0)))
    (placeMove BISHOP (mkPos 0 3)).

Definition capturedBishop : Piece :=
  {| type := BISHOP; color := black; id := "black-B-0" |}.

Definition captureMove : Move :=
  mkMove (move (mkPos 0 0)) ROOK (mkPos 0 3) (Some capturedBishop) None None.

(** A Rook going from one square to another. *)
Definition rookMove (from dest : Position) : Move :=
  mkMove (move from) ROOK dest None None None.

(** Both players place a Rook and then shuffle it to and fro.  The position
    after Black's placement comes back after every four moves; this is the
    game one move before its third occurrence. *)
Definition shuffleState : GameState :=
  foldl (executeMove None 0) (resetGame local medium white)
    [ placeMove ROOK (mkPos 0 0); placeMove ROOK (mkPos 3 3);
      rookMove (mkPos 0 0) (mkPos 0 1); rookMove (mkPos 3 3) (mkPos 3 2);
      rookMove (mkPos 0 1) (mkPos 0 0); rookMove (mkPos 3 2) (mkPos 3 3);
      rookMove (mkPos 0 0) (mkPos 0 1); rookMove (mkPos 3 3) (mkPos 3 2);
      rookMove (mkPos 0 1) (mkPos 0 0) ].

Definition shuffleMove : Move := rookMove (mkPos 3 2) (mkPos 3 3).

(** The same opening against the hard opponent. *)
Definition hardTurnState : GameState :=
  executeMove None 0 (resetGame ai hard white) (placeMove ROOK (mkPos 1 1)).

(** The position after White has opened with a Rook on (1,1) against the
    medium opponent; Black, the opponent, is to move. *)
Definition cpuTurnState : GameState :=
  executeMove None 0 (resetGame ai medium white) (placeMove ROOK (mkPos 1 1)).

(** White's Rook in [captureState]. *)
Definition capturingRook : Piece :=
  {| type := ROOK; color := white; id := "white-R-0" |}.

(** White's Pawn in [pawnEdgeState]. *)
Definition edgePawn : Piece :=
  {| type := PAWN; color := white; id := "white-P-0" |}.

(** The selection of the Rook on (0,0). *)
Definition rookSelected : option Selected :=
  Some (mkSelected ROOK (Some (mkPos 0 0))).

(** A game White has won: three placements of Black on row 3 between four
    placements of White on row 0. *)
Definition wonState : GameState :=
  foldl (executeMove None 0) (resetGame local medium white)
    [ placeMove PAWN (mkPos 0 0); placeMove PAWN (mkPos 3 0);
      placeMove ROOK (mkPos 0 1); placeMove ROOK (mkPos 3 1);
      placeMove KNIGHT (mkPos 0 2); placeMove KNIGHT (mkPos 3 2);
      placeMove BISHOP (mkPos 0 3) ].

(** Against the medium opponent: Black, to move, has three pieces on row 3
    and the Bishop in hand; White has no three in a line. *)
Definition mediumWinState : GameState :=
  foldl (executeMove None 0) (resetGame ai medium white)
    [ placeMove PAWN (mkPos 0 0); placeMove PAWN (mkPos 3 0);
      placeMove ROOK (mkPos 0 1); placeMove ROOK (mkPos 3 1);
      placeMove KNIGHT (mkPos 1 2); placeMove KNIGHT (mkPos 3 2);
      placeMove BISHOP (mkPos 2 2) ].

(** The state after the Rook of [captureState] has taken the Bishop. *)
Definition capturedState : GameState :=
  executeMove None 0 captureState captureMove.

(** * Properties *)

(** ** Boards of the grid's shape *)

(** A board of the grid's shape is a four-by-four table of cells. *)
Lemma wfBoard_cells (b : Board) :
  wfBoard b →
  ∃ a0 a1 a2 a3 b0 b1 b2 b3 c0 c1 c2 c3 d0 d1 d2 d3,
    b = [[a0; a1; a2; a3]; [b0; b1; b2; b3];
         [c0; c1; c2; c3]; [d0; d1; d2; d3]].
Proof.
  intros [Hlen Hrows].
  do 5 (destruct b as [|? b]; try discriminate Hlen).
  repeat match goal with
         | H : Forall _ (_ :: _) |- _ => apply Forall_cons in H as [? H]
         end.
  repeat match goal with
         | H : length ?row = GRID_SIZE |- _ =>
             do 5 (destruct row as [|? row]; try discriminate H); clear H
         end.
  by repeat eexists.
Qed.

Lemma wfBoard_createEmptyBoard : wfBoard createEmptyBoard.
Proof. split; [done|]. by repeat constructor. Qed.

Lemma onGrid_cases (pos : Position) :
  onGrid pos →
  pos ∈ squares.
Proof.
  destruct pos as [r c]. intros [Hr Hc]. simpl in *. unfold GRID_SIZE in *.
  do 4 (destruct r as [|r]; [do 4 (destruct c as [|c]; [set_solver|]); lia|]).
  lia.
Qed.

Lemma squares_onGrid (pos : Position) : pos ∈ squares → onGrid pos.
Proof.
  intros H. vm_compute in H.
  repeat (apply elem_of_cons in H as [->|H]; [by vm_compute; lia|]).
  by apply elem_of_nil in H.
Qed.

Lemma setCell_wf (b : Board) pos v : wfBoard b → wfBoard (setCell b pos v).
Proof.
  intros [Hlen Hrows]. unfold setCell.
  destruct (b !! r pos) as [row|] eqn:Hrow; [|done].
  split; [by rewrite length_insert|].
  apply Forall_insert; [done|]. rewrite length_insert.
  by eapply Forall_lookup_1 in Hrows.
Qed.

Lemma getCell_setCell_eq (b : Board) pos v :
  wfBoard b → onGrid pos → getCell (setCell b pos v) pos = v.
Proof.
  intros Hwf Hpos. apply wfBoard_cells in Hwf.
  destruct Hwf as (?&?&?&?&?&?&?&?&?&?&?&?&?&?&?&?&->).
  apply onGrid_cases in Hpos. vm_compute in Hpos.
  repeat (apply elem_of_cons in Hpos as [->|Hpos]; [done|]).
  by apply elem_of_nil in Hpos.
Qed.

Lemma getCell_setCell_ne (b : Board) pos pos' v :
  pos ≠ pos' → getCell (setCell b pos v) pos' = getCell b pos'.
Proof.
  intros Hne. unfold getCell, setCell.
  destruct (b !! r pos) as [row|] eqn:Hrow; [|done].
  destruct (decide (r pos = r pos')) as [Hr|Hr].
  - rewrite <- Hr. rewrite list_lookup_insert_eq by by eapply lookup_lt_Some.
    rewrite Hrow. rewrite list_lookup_insert_ne; [done|].
    intros Hc. apply Hne. destruct pos, pos'; simpl in *; congruence.
  - by rewrite list_lookup_insert_ne.
Qed.

Lemma getCell_Some_onGrid (b : Board) pos p :
  wfBoard b → getCell b pos = Some p → onGrid pos.
Proof.
  intros [Hlen Hrows] H. unfold getCell in H.
  destruct (b !! r pos) as [row|] eqn:Hrow; [|done].
  destruct (row !! c pos) as [cell|] eqn:Hcell; [|done].
  split.
  - rewrite <- Hlen. by eapply lookup_lt_Some.
  - eapply Forall_lookup_1 in Hrows; [|done]. simpl in Hrows.
    rewrite <- Hrows. by eapply lookup_lt_Some.
Qed.

(** ** The terminal detector *)

Lemma forallb_ownedBy b col line :
  forallb (ownedBy b col) line = true ↔ lineWonBy b col line.
Proof.
  unfold lineWonBy. rewrite forallb_forall. split.
  - intros H pos Hin. apply list_elem_of_In, H in Hin.
    unfold ownedBy in Hin. destruct (getCell b pos) as [p|]; [|done].
    exists p. split; [done|]. by apply bool_decide_eq_true in Hin.
  - intros H pos Hin. apply list_elem_of_In, H in Hin as (p & Hp & Hc).
    unfold ownedBy. rewrite Hp. by apply bool_decide_eq_true.
Qed.

(** [find] returns the first element that passes the test. *)
Lemma find_first {A} (f : A → bool) (l : list A) (x : A) :
  find f l = Some x ↔
  ∃ i, l !! i = Some x ∧ f x = true ∧
       ∀ j y, j < i → l !! j = Some y → f y = false.
Proof.
  induction l as [|a l IH]; simpl.
  - split; [done|]. by intros (i & Hi & _).
  - destruct (f a) eqn:Hfa.
    + split.
      * intros [= <-]. exists 0. split_and!; [done..|]. intros; lia.
      * intros (i & Hi & Hfx & Hlt). destruct i as [|i].
        -- by simplify_eq/=.
        -- specialize (Hlt 0 a). rewrite Hlt in Hfa; [done|lia|done].
    + rewrite IH. split.
      * intros (i & Hi & Hfx & Hlt). exists (S i). split_and!; [done..|].
        intros [|j] y Hj Hy; simplify_eq/=; [done|].
        apply (Hlt j); [lia|done].
      * intros (i & Hi & Hfx & Hlt). destruct i as [|i].
        -- simplify_eq/=. congruence.
        -- exists i. split_and!; [done..|].
           intros j y Hj Hy. apply (Hlt (S j)); [lia|done].
Qed.

Lemma find_none {A} (f : A → bool) (l : list A) :
  find f l = None ↔ ∀ x, x ∈ l → f x = false.
Proof.
  induction l as [|a l IH]; simpl.
  - split; [|done]. intros _ x Hx. by apply elem_of_nil in Hx.
  - destruct (f a) eqn:Hfa.
    + split; [done|]. intros H. rewrite H in Hfa; [done|left].
    + rewrite IH. split.
      * intros H x [->|Hx]%elem_of_cons; auto.
      * intros H x Hx. apply H. by right.
Qed.

Lemma forallb_false {A} (f : A → bool) (l : list A) :
  forallb f l = false ↔ ∃ x, x ∈ l ∧ f x = false.
Proof.
  induction l as [|a l IH]; simpl.
  - split; [done|]. intros (x & Hx & _). by apply elem_of_nil in Hx.
  - rewrite andb_false_iff, IH. split.
    + intros [Ha|(x & Hx & Hf)]; [exists a|exists x]; split; try done;
        [left|by right].
    + intros (x & [->|Hx]%elem_of_cons & Hf); [by left|right; eauto].
Qed.

(** C4. [checkWin] examines exactly 2·N+2 lines, the N rows, then the N
    columns, then the two diagonals.  It returns a line exactly when it is
    the first of them, in that order, whose squares all hold a piece of the
    colour; it returns a line iff some candidate line is so held, and none
    iff every candidate line has a square that is empty or the opponent's
    (so three in a row give none). *)
Theorem checkWin_correct (b : Board) (col : Color) :
  wfBoard b →
  length winLines = 2 * GRID_SIZE + 2 ∧
  length rowLines = GRID_SIZE ∧ length colLines = GRID_SIZE ∧
  (∀ i, i < GRID_SIZE →
        winLines !! i = Some ((λ j, mkPos i j) <$> seq 0 GRID_SIZE) ∧
        winLines !! (GRID_SIZE + i) = Some ((λ j, mkPos j i) <$> seq 0 GRID_SIZE)) ∧
  winLines !! (2 * GRID_SIZE) = Some ((λ i, mkPos i i) <$> seq 0 GRID_SIZE) ∧
  winLines !! (2 * GRID_SIZE + 1)
    = Some ((λ i, mkPos i (GRID_SIZE - 1 - i)) <$> seq 0 GRID_SIZE) ∧
  (∀ line,
     checkWin b col = Some line ↔
     ∃ i, winLines !! i = Some line ∧ lineWonBy b col line ∧
          ∀ j l, j < i → winLines !! j = Some l → ¬ lineWonBy b col l) ∧
  (is_Some (checkWin b col) ↔
   ∃ line, line ∈ winLines ∧ lineWonBy b col line) ∧
  (∀ line,
     line ∈ winLines → lineWonBy b col line →
     (∀ l, l ∈ winLines → lineWonBy b col l → l = line) →
     checkWin b col = Some line) ∧
  (checkWin b col = None ↔
   ∀ line, line ∈ winLines →
           ∃ pos, pos ∈ line ∧
                  ∀ p, getCell b pos = Some p → color p ≠ col).
Proof.
  intros _. split_and!; try done.
  - intros i Hi. unfold GRID_SIZE in Hi.
    do 4 (destruct i as [|i]; [done|]). lia.
  - intros line. unfold checkWin. rewrite find_first.
    split; intros (i & Hi & Hw & Hlt); exists i; split_and!; try done.
    + by apply forallb_ownedBy.
    + intros j l Hj Hl Hwon. apply forallb_ownedBy in Hwon.
      by rewrite (Hlt j l Hj Hl) in Hwon.
    + by apply forallb_ownedBy.
    + intros j l Hj Hl. specialize (Hlt j l Hj Hl).
      rewrite <- forallb_ownedBy in Hlt. by destruct (forallb _ l).
  - unfold checkWin. split.
    + intros [line Hline]. apply find_first in Hline as (i & Hi & Hw & _).
      exists line. split; [by eapply list_elem_of_lookup_2|].
      by apply forallb_ownedBy.
    + intros (line & Hin & Hwon).
      destruct (find _ winLines) as [l|] eqn:Hfind; [done|].
      rewrite find_none in Hfind. apply forallb_ownedBy in Hwon.
      by rewrite (Hfind line Hin) in Hwon.
  - intros line Hin Hwon Honly. unfold checkWin.
    destruct (find _ winLines) as [l|] eqn:Hfind.
    + apply find_first in Hfind as (i & Hi & Hw & _). f_equal.
      apply Honly; [by eapply list_elem_of_lookup_2|by apply forallb_ownedBy].
    + rewrite find_none in Hfind. apply forallb_ownedBy in Hwon.
      by rewrite (Hfind line Hin) in Hwon.
  - unfold checkWin. rewrite find_none. split.
    + intros H line Hin. specialize (H line Hin).
      apply forallb_false in H as (pos & Hpos & Hnot).
      exists pos. split; [done|]. intros p Hp Hc.
      unfold ownedBy in Hnot. rewrite Hp in Hnot.
      by apply bool_decide_eq_false in Hnot.
    + intros H line Hin. destruct (H line Hin) as (pos & Hpos & Hnot).
      apply not_true_iff_false. rewrite forallb_ownedBy. intros Hwon.
      destruct (Hwon pos Hpos) as (p & Hp & Hc). by apply (Hnot p).
Qed.

(** ** The position hasher *)

Lemma string_app_nil_l (s : string) : "" +:+ s = s.
Proof. reflexivity. Qed.

Lemma string_app_cons a (s t : string) : String a s +:+ t = String a (s +:+ t).
Proof. reflexivity. Qed.

Create Rewrite HintDb strapp.
#[local] Hint Rewrite string_app_nil_l string_app_cons : strapp.

Ltac strapp := autorewrite with strapp in *; simpl in *.

Lemma noChar_app ch s1 s2 :
  noChar ch (s1 +:+ s2) ↔ noChar ch s1 ∧ noChar ch s2.
Proof. induction s1 as [|a s1 IH]; strapp; [tauto|]. rewrite IH. tauto. Qed.

Lemma string_app_nil_r (s : string) : s +:+ "" = s.
Proof. induction s as [|a s IH]; strapp; congruence. Qed.

(** Two strings cut at the first occurrence of a separator agree piecewise. *)
Lemma app_sep_inj ch s1 s2 t1 t2 :
  noChar ch s1 → noChar ch s2 →
  s1 +:+ (String ch "" +:+ t1) = s2 +:+ (String ch "" +:+ t2) →
  s1 = s2 ∧ t1 = t2.
Proof.
  revert s2. induction s1 as [|a s1 IH]; intros [|a2 s2] H1 H2 Heq; strapp.
  - by simplify_eq.
  - destruct H2 as [H2 _]. by simplify_eq.
  - destruct H1 as [H1 _]. by simplify_eq.
  - destruct H1 as [_ H1], H2 as [_ H2]. injection Heq as -> Heq.
    assert (s1 = s2 ∧ t1 = t2) as [-> ->]; [|done].
    apply IH; [done..|]. by strapp.
Qed.

(** A string without the separator is not one with it. *)
Lemma noChar_not_sep ch s s1 t :
  noChar ch s → s ≠ s1 +:+ (String ch "" +:+ t).
Proof.
  intros Hs ->. apply noChar_app in Hs as [_ Hs]. strapp. by destruct Hs.
Qed.

Lemma join_cons sep s rest :
  join sep (s :: rest)
  = match rest with [] => s | _ => s +:+ (sep +:+ join sep rest) end.
Proof. by destruct rest. Qed.

(** Joining with a separator that occurs in no element loses nothing, as
    long as no element is empty. *)
Lemma join_sep_inj ch (l1 l2 : list string) :
  Forall (λ s, s ≠ "" ∧ noChar ch s) l1 →
  Forall (λ s, s ≠ "" ∧ noChar ch s) l2 →
  join (String ch "") l1 = join (String ch "") l2 → l1 = l2.
Proof.
  revert l2. induction l1 as [|s1 l1 IH]; intros [|s2 l2] H1 H2 Heq.
  - done.
  - apply Forall_cons in H2 as [[Hne Hno] H2]. rewrite join_cons in Heq.
    destruct l2; simpl in Heq; [congruence|].
    destruct s2; [done|]. by strapp.
  - apply Forall_cons in H1 as [[Hne Hno] H1]. rewrite join_cons in Heq.
    destruct l1; simpl in Heq; [congruence|].
    destruct s1; [done|]. by strapp.
  - apply Forall_cons in H1 as [[Hne1 Hno1] H1].
    apply Forall_cons in H2 as [[Hne2 Hno2] H2].
    rewrite !join_cons in Heq.
    destruct l1 as [|s1' l1], l2 as [|s2' l2].
    + congruence.
    + by apply noChar_not_sep in Heq.
    + symmetry in Heq. by apply noChar_not_sep in Heq.
    + apply app_sep_inj in Heq as [-> Heq]; [|done..].
      f_equal. by apply IH.
Qed.

Lemma cellStr_inj c1 c2 : cellStr c1 = cellStr c2 ↔ cellKind c1 = cellKind c2.
Proof.
  destruct c1 as [[[] [] ?]|], c2 as [[[] [] ?]|]; vm_compute; split;
    first [done | discriminate].
Qed.

Lemma cellStr_ok cell : cellStr cell ≠ "" ∧ noChar "," (cellStr cell).
Proof.
  destruct cell as [[[] [] ?]|]; vm_compute; split; try discriminate;
    repeat split; discriminate.
Qed.

Lemma cellStr_noBar cell : noChar "|" (cellStr cell).
Proof. destruct cell as [[[] [] ?]|]; vm_compute; repeat split; discriminate. Qed.

Lemma boardStr_noBar (cells : list (option Piece)) :
  noChar "|" (join "," (cellStr <$> cells)).
Proof.
  induction cells as [|cell cells IH]; [done|].
  destruct cells as [|cell' cells].
  - apply cellStr_noBar.
  - rewrite fmap_cons, join_cons. rewrite fmap_cons at 1.
    rewrite !noChar_app. split_and!; [apply cellStr_noBar| |done].
    simpl. split; [discriminate|done].
Qed.

Lemma handStr_cons t (l : list PieceType) :
  join "" (typeStr <$> t :: l) = typeStr t +:+ join "" (typeStr <$> l).
Proof.
  rewrite fmap_cons, join_cons. destruct l; simpl; [|done].
  by rewrite string_app_nil_r.
Qed.

Lemma handStr_noBar (l : list PieceType) : noChar "|" (join "" (typeStr <$> l)).
Proof.
  induction l as [|t l IH]; [done|]. rewrite handStr_cons, noChar_app.
  split; [|done]. destruct t; simpl; split; done || discriminate.
Qed.

Lemma handStr_inj (l1 l2 : list PieceType) :
  join "" (typeStr <$> l1) = join "" (typeStr <$> l2) → l1 = l2.
Proof.
  revert l2. induction l1 as [|t1 l1 IH]; intros [|t2 l2] Heq.
  - done.
  - rewrite handStr_cons in Heq. by destruct t2.
  - rewrite handStr_cons in Heq. by destruct t1.
  - rewrite !handStr_cons in Heq.
    destruct t1, t2; strapp; try discriminate;
      injection Heq as Heq; f_equal; by apply IH.
Qed.

#[local] Instance typeLe_trans : Transitive typeLe.
Proof. intros x y z. unfold typeLe. lia. Qed.
#[local] Instance typeLe_total : Total typeLe.
Proof. intros x y. unfold typeLe. lia. Qed.
#[local] Instance typeLe_antisymm : AntiSymm (=) typeLe.
Proof. intros [] []; unfold typeLe; simpl; intros; done || lia. Qed.

(** Sorting identifies exactly the hands that hold the same kinds the same
    number of times. *)
Lemma sortHand_eq_iff (h1 h2 : list PieceType) :
  sortHand h1 = sortHand h2 ↔ h1 ≡ₚ h2.
Proof.
  unfold sortHand. split.
  - intros Heq. rewrite <- (merge_sort_Permutation typeLe h1), Heq.
    apply merge_sort_Permutation.
  - intros Hperm. apply (Sorted_unique typeLe).
    + apply Sorted_merge_sort, _.
    + apply Sorted_merge_sort, _.
    + by rewrite !merge_sort_Permutation.
Qed.

Lemma pretty_N_char_noComma d : pretty_N_char d ≠ ","%char.
Proof. unfold pretty_N_char. repeat case_match; discriminate. Qed.

Lemma pretty_N_go_noComma x s :
  noChar "," s → noChar "," (pretty_N_go x s).
Proof.
  revert s. induction (N.lt_wf_0 x) as [x _ IH]; intros s Hs.
  destruct (decide (x = 0)%N) as [->|Hx].
  - by rewrite pretty_N_go_0.
  - rewrite pretty_N_go_step by lia. apply IH.
    + apply N.div_lt; lia.
    + split; [apply pretty_N_char_noComma|done].
Qed.

(** A decimal numeral has no comma in it. *)
Lemma pretty_Z_noComma (z : Z) : noChar "," (pretty z).
Proof.
  unfold pretty, pretty_Z. destruct z as [|p|p].
  - vm_compute. split; [discriminate|done].
  - unfold pretty, pretty_positive, pretty, pretty_N.
    case_decide; [done|]. by apply pretty_N_go_noComma.
  - apply noChar_app. split; [vm_compute; split; [discriminate|done]|].
    unfold pretty, pretty_positive, pretty, pretty_N.
    case_decide; [done|]. by apply pretty_N_go_noComma.
Qed.

Lemma pawnDirStr_inj d1 d2 :
  pretty (dwhite d1) +:+ "," +:+ pretty (dblack d1)
  = pretty (dwhite d2) +:+ "," +:+ pretty (dblack d2) →
  d1 = d2.
Proof.
  destruct d1 as [w1 b1], d2 as [w2 b2]. simpl. intros Heq.
  apply app_sep_inj in Heq as [Hw Hb]; [|apply pretty_Z_noComma..].
  apply (inj pretty) in Hw. apply (inj pretty) in Hb. congruence.
Qed.

Lemma colorStr_noBar p : noChar "|" (colorStr p).
Proof. destruct p; vm_compute; repeat split; discriminate. Qed.

Lemma colorStr_inj p1 p2 : colorStr p1 = colorStr p2 → p1 = p2.
Proof. by destruct p1, p2. Qed.

(** On boards of the grid's shape the flattened board and the squares carry
    the same information. *)
Lemma flat_cells_iff (b1 b2 : Board) :
  wfBoard b1 → wfBoard b2 →
  cellStr <$> concat b1 = cellStr <$> concat b2 ↔
  ∀ pos, onGrid pos → cellKind (getCell b1 pos) = cellKind (getCell b2 pos).
Proof.
  intros Hwf1 Hwf2. split.
  - intros Heq pos Hpos.
    apply wfBoard_cells in Hwf1.
    destruct Hwf1 as (?&?&?&?&?&?&?&?&?&?&?&?&?&?&?&?&->).
    apply wfBoard_cells in Hwf2.
    destruct Hwf2 as (?&?&?&?&?&?&?&?&?&?&?&?&?&?&?&?&->).
    simpl in Heq. injection Heq as ????????????????.
    apply onGrid_cases in Hpos. vm_compute in Hpos.
    repeat (apply elem_of_cons in Hpos as [->|Hpos];
            [by apply cellStr_inj|]).
    by apply elem_of_nil in Hpos.
  - intros Hsq.
    assert (Forall (λ pos, cellStr (getCell b1 pos) = cellStr (getCell b2 pos))
              squares) as HF.
    { apply Forall_forall. intros pos Hpos.
      apply cellStr_inj, Hsq, squares_onGrid, Hpos. }
    clear Hsq.
    apply wfBoard_cells in Hwf1.
    destruct Hwf1 as (?&?&?&?&?&?&?&?&?&?&?&?&?&?&?&?&->).
    apply wfBoard_cells in Hwf2.
    destruct Hwf2 as (?&?&?&?&?&?&?&?&?&?&?&?&?&?&?&?&->).
    unfold squares in HF. simpl in HF.
    repeat match goal with
           | H : Forall _ (_ :: _) |- _ => apply Forall_cons in H as [? H]
           end.
    unfold getCell in *. simpl in *. congruence.
Qed.

(** C8. Two configurations with boards of the grid's shape have equal keys
    iff every square holds an occupant of the same colour and kind (or none)
    in both, each colour's hand holds the same kinds the same number of times
    (so permuting a hand never changes the key), the player to move is the
    same, and the pawn directions are the same. *)
Theorem serializeState_eq_iff (b1 b2 : Board) (h1 h2 : Hands)
    (p1 p2 : Color) (d1 d2 : PawnDirections) :
  wfBoard b1 → wfBoard b2 →
  serializeState b1 h1 p1 d1 = serializeState b2 h2 p2 d2 ↔
  (∀ pos, onGrid pos → cellKind (getCell b1 pos) = cellKind (getCell b2 pos)) ∧
  hwhite h1 ≡ₚ hwhite h2 ∧ hblack h1 ≡ₚ hblack h2 ∧
  p1 = p2 ∧ d1 = d2.
Proof.
  intros Hwf1 Hwf2. unfold serializeState. cbv zeta.
  rewrite <- (flat_cells_iff b1 b2 Hwf1 Hwf2), <- !sortHand_eq_iff.
  split.
  - intros Heq.
    apply app_sep_inj in Heq as [HB Heq]; [|apply boardStr_noBar..].
    apply app_sep_inj in Heq as [HW Heq]; [|apply handStr_noBar..].
    apply app_sep_inj in Heq as [HK Heq]; [|apply handStr_noBar..].
    apply app_sep_inj in Heq as [HP Heq]; [|apply colorStr_noBar..].
    split_and!.
    + apply (join_sep_inj ","); [| |done];
        apply Forall_fmap, Forall_true, cellStr_ok.
    + by apply handStr_inj.
    + by apply handStr_inj.
    + by apply colorStr_inj.
    + by apply pawnDirStr_inj.
  - intros (-> & -> & -> & -> & ->). done.
Qed.

(** ** The state transition *)

Lemma handOf_setHand_eq h col l : handOf (setHand h col l) col = l.
Proof. by destruct col. Qed.

Lemma handOf_setHand_ne h col col' l :
  col ≠ col' → handOf (setHand h col l) col' = handOf h col'.
Proof. by destruct col, col'. Qed.

Lemma otherColor_ne col : otherColor col ≠ col.
Proof. by destruct col. Qed.

Lemma hands_landPiece myColor prev m newBoard newHands activePiece :
  hands (landPiece myColor prev m newBoard newHands activePiece)
  = match getCell newBoard (to m) with
    | Some t =>
        setHand newHands (otherColor (currentPlayer prev))
          (handOf newHands (otherColor (currentPlayer prev)) ++ [type t])
    | None => newHands
    end.
Proof.
  unfold landPiece. cbv zeta.
  by destruct (checkWin _ (currentPlayer prev)).
Qed.

(** C1. When an applied move lands on a square held by an opposing piece,
    the kind of that piece is appended to the hand of the mover's opponent,
    the owner of the displaced piece, and the capture leaves the mover's own
    hand as the lifting of the moving piece left it (untouched for a
    relocation). *)
Theorem capture_goes_to_victims_owner (myColor : option Color) (now : N)
    (prev : GameState) (m : Move) (victim : Piece) :
  wfBoard (board prev) →
  applies prev m →
  leavesOrigin m →
  getCell (board prev) (to m) = Some victim →
  color victim = otherColor (currentPlayer prev) →
  let next := executeMove myColor now prev m in
  handOf (hands next) (color victim)
    = (handOf (hands prev) (color victim) ++ [type victim])%list ∧
  handOf (hands next) (currentPlayer prev) = handAfterLift prev m ∧
  (∀ from, mtype m = move from →
           handOf (hands next) (currentPlayer prev)
           = handOf (hands prev) (currentPlayer prev)).
Proof.
  intros _ [Hwin Happ] Hleave Hvictim Hcol next. subst next.
  unfold executeMove, handAfterLift, leavesOrigin in *. rewrite Hwin, Hcol.
  pose proof (otherColor_ne (currentPlayer prev)) as Hne.
  destruct (mtype m) as [|from] eqn:Hm.
  - destruct Happ as [idx Hidx]. rewrite Hidx, hands_landPiece, Hvictim.
    rewrite handOf_setHand_eq, (handOf_setHand_ne _ _ _ _ Hne).
    rewrite handOf_setHand_eq. rewrite handOf_setHand_ne by done.
    split_and!; [done..|]. intros; discriminate.
  - destruct Happ as [fromPiece Hfrom]. rewrite Hfrom, hands_landPiece.
    rewrite getCell_setCell_ne by done. rewrite Hvictim.
    rewrite handOf_setHand_eq, (handOf_setHand_ne _ _ _ _ Hne).
    done.
Qed.

(** What the second half of [executeMove] does about repetition. *)
Lemma landPiece_repetition myColor prev m newBoard newHands activePiece :
  let next := landPiece myColor prev m newBoard newHands activePiece in
  let player := currentPlayer prev in
  let key := serializeState (board next) (hands next) (currentPlayer next)
               (pawnDirections next) in
  let count := default 0 (positionCounts prev !! key) + 1 in
  (checkWin (board next) player = None →
   currentPlayer next = otherColor player ∧
   positionCounts next = <[key := count]> (positionCounts prev) ∧
   (winner next = Some draw ↔ 3 ≤ count) ∧
   (winner next = None ↔ count < 3) ∧
   winningLine next = None) ∧
  (∀ line, checkWin (board next) player = Some line →
           winner next = Some (Won player) ∧
           winningLine next = Some line ∧
           currentPlayer next = player ∧
           positionCounts next = positionCounts prev).
Proof.
  unfold landPiece. cbv zeta.
  destruct (checkWin (setCell newBoard (to m) (Some activePiece))
              (currentPlayer prev)) as [line|] eqn:Hwin; simpl; rewrite Hwin.
  - split; [done|]. by intros ? [= <-].
  - split; [|done]. intros _. split_and!; try done.
    + case_bool_decide; split; (done || lia).
    + case_bool_decide; split; (done || lia).
Qed.

(** Either [executeMove] returns the state it was given, or it applies the
    move. *)
Lemma executeMove_cases myColor now prev m :
  executeMove myColor now prev m = prev ∨ applies prev m.
Proof.
  unfold executeMove, applies.
  destruct (winner prev); [by left|].
  destruct (mtype m) as [|from].
  - destruct (indexOf _ _); [right; eauto|by left].
  - destruct (getCell _ from); [right; eauto|by left].
Qed.

(** C2. An applied move that gives the mover no line passes the turn, adds
    one to the count of the key of the resulting configuration (board,
    hands, next player, pawn directions), and declares a draw exactly when
    that count has reached 3: never at a first or second occurrence, at the
    third one when the count was 2, and, counts never exceeding 2 while a
    game lasts, exactly when the count becomes 3.  A move that gives the
    mover a line makes the mover the winner and leaves the counts as they
    were. *)
Theorem repetition_rule (myColor : option Color) (now : N)
    (prev : GameState) (m : Move) :
  wfBoard (board prev) → onGrid (to m) →
  applies prev m →
  let next := executeMove myColor now prev m in
  let player := currentPlayer prev in
  let key := serializeState (board next) (hands next) (currentPlayer next)
               (pawnDirections next) in
  let count := default 0 (positionCounts prev !! key) + 1 in
  (checkWin (board next) player = None →
   currentPlayer next = otherColor player ∧
   positionCounts next = <[key := count]> (positionCounts prev) ∧
   positionCounts next !! key = Some count ∧
   (winner next = Some draw ↔ 3 ≤ count) ∧
   (winner next = None ↔ count < 3) ∧
   (positionCounts prev !! key = Some 2 → winner next = Some draw) ∧
   ((∀ k n, positionCounts prev !! k = Some n → n ≤ 2) →
    (winner next = Some draw ↔ count = 3)) ∧
   winningLine next = None) ∧
  (∀ line, checkWin (board next) player = Some line →
           winner next = Some (Won player) ∧
           winningLine next = Some line ∧
           currentPlayer next = player ∧
           positionCounts next = positionCounts prev).
Proof.
  intros _ _ [Hwin Happ]. unfold executeMove. rewrite Hwin.
  assert (∀ s : GameState,
            let next := s in
            let key := serializeState (board next) (hands next)
                         (currentPlayer next) (pawnDirections next) in
            let count := default 0 (positionCounts prev !! key) + 1 in
            (∀ k n, positionCounts prev !! k = Some n → n ≤ 2) →
            (winner next = Some draw ↔ 3 ≤ count) →
            (winner next = Some draw ↔ count = 3)) as Hexact.
  { intros s next key count Hbound Hdraw. rewrite Hdraw. subst count.
    destruct (positionCounts prev !! key) as [n|] eqn:Hn; simpl; [|lia].
    apply Hbound in Hn. lia. }
  destruct (mtype m) as [|from].
  - destruct Happ as [idx ->].
    match goal with
    | |- context [landPiece ?a ?b ?c ?d ?e ?f] =>
        destruct (landPiece_repetition a b c d e f) as [Hno Hyes];
        specialize (Hexact (landPiece a b c d e f))
    end.
    cbv zeta. split; [|done]. intros Hnone.
    destruct (Hno Hnone) as (? & Hcounts & Hdraw & ? & ?).
    split_and!; try done.
    + rewrite Hcounts. apply lookup_insert_eq.
    + intros Htwo. apply Hdraw. rewrite Htwo. simpl. lia.
    + intros Hbound. by apply Hexact.
  - destruct Happ as [fromPiece ->].
    match goal with
    | |- context [landPiece ?a ?b ?c ?d ?e ?f] =>
        destruct (landPiece_repetition a b c d e f) as [Hno Hyes];
        specialize (Hexact (landPiece a b c d e f))
    end.
    cbv zeta. split; [|done]. intros Hnone.
    destruct (Hno Hnone) as (? & Hcounts & Hdraw & ? & ?).
    split_and!; try done.
    + rewrite Hcounts. apply lookup_insert_eq.
    + intros Htwo. apply Hdraw. rewrite Htwo. simpl. lia.
    + intros Hbound. by apply Hexact.
Qed.

(** While a game lasts no position has been counted more than twice. *)
Lemma reachable_counts (s : GameState) :
  reachable s → winner s = None →
  ∀ k n, positionCounts s !! k = Some n → n ≤ 2.
Proof.
  induction 1 as [mode diff fp|myColor now prev m Hreach IH Hgrid].
  - intros _ k n. simpl. intros [_ <-]%lookup_singleton_Some. lia.
  - destruct (executeMove_cases myColor now prev m) as [->|[Hwin Happ]];
      [done|].
    specialize (IH Hwin). unfold executeMove. rewrite Hwin.
    assert (∀ nb nh ap,
              winner (landPiece myColor prev m nb nh ap) = None →
              ∀ k n, positionCounts (landPiece myColor prev m nb nh ap) !! k
                     = Some n → n ≤ 2) as Hland.
    { intros nb nh ap Hnone k n.
      destruct (landPiece_repetition myColor prev m nb nh ap) as [Hno Hyes].
      destruct (checkWin (board (landPiece myColor prev m nb nh ap))
                  (currentPlayer prev)) as [line|] eqn:Hline.
      - destruct (Hyes line eq_refl) as (Hw & _). congruence.
      - destruct (Hno eq_refl) as (_ & -> & _ & Hlt & _).
        apply Hlt in Hnone.
        intros [[<- <-]|[_ Hk]]%lookup_insert_Some; [lia|by eapply IH]. }
    destruct (mtype m) as [|from].
    + destruct Happ as [idx ->]. apply Hland.
    + destruct Happ as [fromPiece ->]. apply Hland.
Qed.

Lemma dirOf_setDir_eq d col z : dirOf (setDir d col z) col = z.
Proof. by destruct col. Qed.

Lemma dirOf_setDir_ne d col col' z :
  col ≠ col' → dirOf (setDir d col z) col' = dirOf d col'.
Proof. by destruct col, col'. Qed.

Lemma pawnDirections_landPiece myColor prev m newBoard newHands activePiece :
  pawnDirections (landPiece myColor prev m newBoard newHands activePiece)
  = match type activePiece with
    | PAWN =>
        let d := if bool_decide (r (to m) = 0)
                 then setDir (pawnDirections prev) (currentPlayer prev) 1
                 else pawnDirections prev in
        if bool_decide (r (to m) = GRID_SIZE - 1)
        then setDir d (currentPlayer prev) (-1) else d
    | _ => pawnDirections prev
    end.
Proof.
  unfold landPiece. cbv zeta.
  by destruct (checkWin _ (currentPlayer prev)).
Qed.

(** The directions after an applied move, in terms of the landing piece. *)
Lemma pawnDirections_executeMove myColor now prev m :
  applies prev m →
  pawnDirections (executeMove myColor now prev m)
  = match activeType prev m with
    | Some PAWN =>
        let d := if bool_decide (r (to m) = 0)
                 then setDir (pawnDirections prev) (currentPlayer prev) 1
                 else pawnDirections prev in
        if bool_decide (r (to m) = GRID_SIZE - 1)
        then setDir d (currentPlayer prev) (-1) else d
    | _ => pawnDirections prev
    end.
Proof.
  intros [Hwin Happ]. unfold executeMove, activeType. rewrite Hwin.
  destruct (mtype m) as [|from].
  - destruct Happ as [idx ->]. by rewrite pawnDirections_landPiece.
  - destruct Happ as [fromPiece ->]. by rewrite pawnDirections_landPiece.
Qed.

(** A validated pawn step changes the row by the mover's direction. *)
Lemma isValidMove_pawn_step gameState piece from dest :
  type piece = PAWN →
  isValid (isValidMove gameState piece from dest) = true →
  (Z.of_nat (r dest) - Z.of_nat (r from))%Z
  = dirOf (pawnDirections gameState) (color piece).
Proof.
  intros Hpawn. unfold isValidMove. cbv zeta. rewrite Hpawn.
  repeat (case_bool_decide || case_match); simpl; try done;
    intros _; simplify_eq/=;
    repeat match goal with
           | H : _ && _ = true |- _ => apply andb_true_iff in H as [??]
           | H : bool_decide _ = true |- _ => apply bool_decide_eq_true in H
           end; done.
Qed.

(** C3, as the code has it.  An applied move never changes the direction of
    the mover's opponent.  When the landing piece is a Pawn, whether it was
    relocated or placed from the hand, landing on row 0 sets the mover's
    direction to [1] and landing on row N−1 sets it to [-1]; every other
    applied move leaves both directions as they were.  For a relocation of
    the mover's own Pawn accepted by [isValidMove], reaching either edge row
    is a flip of the mover's direction. *)
Theorem pawn_direction_rule (myColor : option Color) (now : N)
    (prev : GameState) (m : Move) :
  wfBoard (board prev) → onGrid (to m) →
  applies prev m →
  let next := executeMove myColor now prev m in
  let player := currentPlayer prev in
  dirOf (pawnDirections next) (otherColor player)
    = dirOf (pawnDirections prev) (otherColor player) ∧
  (activeType prev m = Some PAWN → r (to m) = 0 →
   dirOf (pawnDirections next) player = 1%Z) ∧
  (activeType prev m = Some PAWN → r (to m) = GRID_SIZE - 1 →
   dirOf (pawnDirections next) player = (-1)%Z) ∧
  (activeType prev m ≠ Some PAWN ∨
   (r (to m) ≠ 0 ∧ r (to m) ≠ GRID_SIZE - 1) →
   pawnDirections next = pawnDirections prev) ∧
  (∀ from piece,
     mtype m = move from →
     getCell (board prev) from = Some piece →
     type piece = PAWN → color piece = player →
     unitDirs (pawnDirections prev) →
     isValid (isValidMove prev piece from (to m)) = true →
     r (to m) = 0 ∨ r (to m) = GRID_SIZE - 1 →
     dirOf (pawnDirections next) player
     = (- dirOf (pawnDirections prev) player)%Z).
Proof.
  intros Hwf _ Happ next player. subst next player.
  rewrite (pawnDirections_executeMove _ _ _ _ Happ).
  pose proof (otherColor_ne (currentPlayer prev)) as Hne.
  assert (currentPlayer prev ≠ otherColor (currentPlayer prev)) as Hne'
    by by destruct (currentPlayer prev).
  split_and!.
  - destruct (activeType prev m) as [[]|]; try done. cbv zeta.
    repeat case_bool_decide; by rewrite ?dirOf_setDir_ne.
  - intros -> Hr. cbv zeta. rewrite Hr. simpl.
    by rewrite dirOf_setDir_eq.
  - intros -> Hr. cbv zeta. rewrite Hr. simpl.
    by rewrite dirOf_setDir_eq.
  - intros [Hnot|[H0 H3]].
    + by destruct (activeType prev m) as [[]|].
    + destruct (activeType prev m) as [[]|]; try done. cbv zeta.
      by rewrite !bool_decide_eq_false_2.
  - intros from piece Hm Hfrom Hpawn Hcol Hdirs Hvalid Hedge.
    unfold activeType. rewrite Hm, Hfrom. simpl. rewrite Hpawn.
    apply isValidMove_pawn_step in Hvalid; [|done].
    rewrite Hcol in Hvalid.
    apply (getCell_Some_onGrid _ _ _ Hwf) in Hfrom as [Hfr _].
    unfold GRID_SIZE in *.
    assert (dirOf (pawnDirections prev) (currentPlayer prev) = 1
            ∨ dirOf (pawnDirections prev) (currentPlayer prev) = -1)%Z
      as Hunit by (destruct Hdirs, (currentPlayer prev); done).
    destruct Hedge as [Hr|Hr]; rewrite Hr in *; simpl;
      rewrite dirOf_setDir_eq; lia.
Qed.

(** ** Conservation of the pieces *)

Lemma rowKinds_insert (row : list (option Piece)) i old v :
  row !! i = Some old →
  (rowKinds (<[i := v]> row) ++ cellKinds old ≡ₚ rowKinds row ++ cellKinds v)%list.
Proof.
  revert i. induction row as [|cell row IH]; intros [|i] Hi; simplify_eq/=.
  - unfold rowKinds. simpl. fold (rowKinds row).
    rewrite <- !(assoc_L (++)).
    rewrite (Permutation_app_comm (rowKinds row) (cellKinds old)).
    rewrite (Permutation_app_comm (rowKinds row) (cellKinds v)).
    by rewrite (Permutation_app_swap_app (cellKinds v)).
  - unfold rowKinds. simpl. fold (rowKinds row) (rowKinds (<[i:=v]> row)).
    rewrite <- !(assoc_L (++)). f_equiv. by apply IH.
Qed.

Lemma boardKinds_setCell (b : Board) pos old v :
  (∃ row, b !! r pos = Some row ∧ row !! c pos = Some old) →
  (boardKinds (setCell b pos v) ++ cellKinds old
   ≡ₚ boardKinds b ++ cellKinds v)%list.
Proof.
  intros (row & Hrow & Hcell). unfold setCell. rewrite Hrow.
  clear -Hrow Hcell. revert Hrow. generalize (r pos) as i.
  induction b as [|row0 b IH]; intros [|i] Hi; simplify_eq/=.
  - unfold boardKinds. simpl. fold (boardKinds b).
    rewrite <- !(assoc_L (++)).
    rewrite (Permutation_app_comm (boardKinds b) (cellKinds old)).
    rewrite (Permutation_app_comm (boardKinds b) (cellKinds v)).
    rewrite !(assoc_L (++)). f_equiv. by apply rowKinds_insert.
  - unfold boardKinds. simpl.
    fold (boardKinds b) (boardKinds (<[i:=<[c pos:=v]> row]> b)).
    rewrite <- !(assoc_L (++)). f_equiv. by apply IH.
Qed.

(** On a board of the grid's shape, a write on a square of the grid trades
    the old occupant for the new one. *)
Lemma boardKinds_setCell_wf (b : Board) pos v :
  wfBoard b → onGrid pos →
  (boardKinds (setCell b pos v) ++ cellKinds (getCell b pos)
   ≡ₚ boardKinds b ++ cellKinds v)%list.
Proof.
  intros [Hlen Hrows] [Hr Hc]. rewrite <- Hlen in Hr.
  apply lookup_lt_is_Some in Hr as [row Hrow].
  eapply Forall_lookup_1 in Hrows as Hrowlen; [|done]. simpl in Hrowlen.
  rewrite <- Hrowlen in Hc. apply lookup_lt_is_Some in Hc as [old Hold].
  unfold getCell at 1. rewrite Hrow, Hold.
  apply boardKinds_setCell. eauto.
Qed.

Lemma indexOf_lookup x l idx : indexOf x l = Some idx → l !! idx = Some x.
Proof.
  revert idx. induction l as [|y l IH]; intros idx H; simpl in *; [done|].
  case_bool_decide; simplify_eq/=; [done|].
  destruct (indexOf x l) as [i|]; simplify_eq/=. by apply IH.
Qed.

Lemma indexOf_delete x l idx : indexOf x l = Some idx → l ≡ₚ x :: delete idx l.
Proof. intros H. by apply delete_Permutation, indexOf_lookup. Qed.

Lemma hands_perm_setHand h col l :
  (hwhite (setHand h col l) ++ hblack (setHand h col l)
   ≡ₚ l ++ handOf h (otherColor col))%list.
Proof. destruct col; simpl; [done|]. apply Permutation_app_comm. Qed.

Lemma hands_perm_handOf h col :
  (hwhite h ++ hblack h ≡ₚ handOf h col ++ handOf h (otherColor col))%list.
Proof. destruct col; simpl; [done|]. apply Permutation_app_comm. Qed.

Lemma board_landPiece myColor prev m newBoard newHands activePiece :
  board (landPiece myColor prev m newBoard newHands activePiece)
  = setCell newBoard (to m) (Some activePiece).
Proof.
  unfold landPiece. cbv zeta.
  by destruct (checkWin _ (currentPlayer prev)).
Qed.

Lemma landPiece_kinds myColor prev m newBoard newHands activePiece :
  wfBoard newBoard → onGrid (to m) →
  (allKinds (landPiece myColor prev m newBoard newHands activePiece)
   ≡ₚ boardKinds newBoard
      ++ type activePiece :: (hwhite newHands ++ hblack newHands))%list.
Proof.
  intros Hwf Hto. unfold allKinds.
  rewrite board_landPiece, hands_landPiece.
  pose proof (boardKinds_setCell_wf newBoard (to m) (Some activePiece) Hwf Hto)
    as Hboard.
  set (target := getCell newBoard (to m)) in *.
  set (hands' := match target with Some _ => _ | None => _ end).
  assert (hwhite hands' ++ hblack hands'
          ≡ₚ (hwhite newHands ++ hblack newHands) ++ cellKinds target)%list
    as Hhands.
  { subst hands'. destruct target as [t|]; simpl; [|by rewrite app_nil_r].
    rewrite hands_perm_setHand.
    rewrite (hands_perm_handOf newHands (otherColor (currentPlayer prev))).
    solve_Permutation. }
  trans ((boardKinds (setCell newBoard (to m) (Some activePiece))
          ++ cellKinds target) ++ hwhite newHands ++ hblack newHands)%list.
  - rewrite Hhands. solve_Permutation.
  - rewrite Hboard. simpl. solve_Permutation.
Qed.

(** One call of [executeMove] towards a square of the grid keeps every kind
    with its multiplicity, and the board its shape. *)
Lemma executeMove_kinds myColor now prev m :
  wfBoard (board prev) → onGrid (to m) →
  wfBoard (board (executeMove myColor now prev m)) ∧
  allKinds (executeMove myColor now prev m) ≡ₚ allKinds prev.
Proof.
  intros Hwf Hto. unfold executeMove.
  destruct (winner prev); [done|].
  destruct (mtype m) as [|from].
  - destruct (indexOf _ _) as [idx|] eqn:Hidx; [|done]. split.
    + rewrite board_landPiece. by apply setCell_wf.
    + rewrite landPiece_kinds by done. unfold allKinds.
      rewrite hands_perm_setHand. simpl.
      rewrite (hands_perm_handOf (hands prev) (currentPlayer prev)).
      apply indexOf_delete in Hidx. rewrite Hidx at 2. solve_Permutation.
  - destruct (getCell (board prev) from) as [fromPiece|] eqn:Hfrom; [|done].
    split.
    + rewrite board_landPiece. by do 2 apply setCell_wf.
    + rewrite landPiece_kinds by (done || by apply setCell_wf).
      unfold allKinds.
      pose proof (getCell_Some_onGrid _ _ _ Hwf Hfrom) as Hfr.
      pose proof (boardKinds_setCell_wf _ from None Hwf Hfr) as Hb.
      rewrite Hfrom in Hb. simpl in Hb. rewrite app_nil_r in Hb.
      rewrite <- Hb. solve_Permutation.
Qed.

(** The invariant of a game: the board keeps the grid's shape and the kinds
    stay those of the two initial hands. *)
Lemma reachable_kinds (s : GameState) :
  reachable s →
  wfBoard (board s) ∧ allKinds s ≡ₚ (INITIAL_HAND ++ INITIAL_HAND)%list.
Proof.
  induction 1 as [mode diff fp|myColor now prev m _ [IHwf IHk] [Hto _]].
  - split; [apply wfBoard_createEmptyBoard|done].
  - destruct (executeMove_kinds myColor now prev m IHwf Hto) as [? Hstep].
    split; [done|]. by rewrite Hstep.
Qed.

(** C5. In every state of a game the board has the grid's shape and the
    kinds on the board and in the two hands are, with their multiplicities,
    the eight kinds the two initial hands hold; a further [executeMove]
    between squares of the grid, whether it places, relocates or captures,
    leaves that multiset as it is. *)
Theorem piece_conservation (s : GameState) :
  reachable s →
  wfBoard (board s) ∧
  allKinds s ≡ₚ (INITIAL_HAND ++ INITIAL_HAND)%list ∧
  length (allKinds s) = 8 ∧
  (∀ myColor now m,
     onGridMove m →
     allKinds (executeMove myColor now s m) ≡ₚ allKinds s ∧
     length (allKinds (executeMove myColor now s m)) = length (allKinds s)).
Proof.
  intros Hreach. destruct (reachable_kinds s Hreach) as [Hwf Hkinds].
  split_and!; [done|done|by rewrite Hkinds|].
  intros myColor now m [Hto _].
  destruct (executeMove_kinds myColor now s m Hwf Hto) as [_ Hstep].
  split; [done|]. by rewrite Hstep.
Qed.

(** In a game neither hand ever holds more than the eight kinds. *)
Lemma reachable_hands_small (s : GameState) :
  reachable s →
  length (hwhite (hands s)) ≤ 8 ∧ length (hblack (hands s)) ≤ 8.
Proof.
  intros [_ Hkinds]%reachable_kinds.
  apply Permutation_length in Hkinds. unfold allKinds in Hkinds.
  rewrite !length_app in Hkinds. simpl in Hkinds. lia.
Qed.

(** ** The evaluator *)

Lemma sumZ_bounds (lo hi : Z) (l : list Z) :
  Forall (λ x, lo ≤ x ≤ hi)%Z l →
  (Z.of_nat (length l) * lo ≤ sumZ l ≤ Z.of_nat (length l) * hi)%Z.
Proof.
  unfold sumZ.
  cut (∀ acc, Forall (λ x, lo ≤ x ≤ hi)%Z l →
              (acc + Z.of_nat (length l) * lo ≤ foldl Z.add acc l
               ≤ acc + Z.of_nat (length l) * hi)%Z).
  { intros H HF. specialize (H 0%Z HF). lia. }
  induction l as [|x l IH]; intros acc HF; simpl; [lia|].
  apply Forall_cons in HF as [Hx HF]. specialize (IH (acc + x)%Z HF). lia.
Qed.

Lemma lineScore_bounds b aiColor line :
  (-1500 ≤ lineScore b aiColor line ≤ 1000)%Z.
Proof.
  unfold lineScore. destruct (countLine b aiColor line) as [mine theirs].
  change (SCORES.THREE_IN_ROW * 3 / 2)%Z with 1500%Z.
  unfold SCORES.THREE_IN_ROW, SCORES.TWO_IN_ROW.
  repeat case_bool_decide; lia.
Qed.

Lemma squareScore_bounds b aiColor pos :
  (-130 ≤ squareScore b aiColor pos ≤ 130)%Z.
Proof.
  unfold squareScore, SCORES.PIECE_ON_BOARD, SCORES.CENTER.
  destruct (getCell b pos); [|lia].
  destruct (existsb _ _); case_bool_decide; lia.
Qed.

(** The heuristic stays within 17080 of the difference of the hands' sizes
    weighted by the retention value. *)
Lemma heuristic_bounds b h aiColor :
  let own := Z.of_nat (length (handOf h aiColor)) in
  let opp := Z.of_nat (length (handOf h (otherColor aiColor))) in
  (30 * (own - opp) - 17080 ≤ heuristic b h aiColor
   ≤ 30 * (own - opp) + 12080)%Z.
Proof.
  intros own opp. unfold heuristic, SCORES.PIECE_IN_HAND. cbv zeta.
  pose proof (sumZ_bounds (-1500) 1000 (lineScore b aiColor <$> getLines)) as Hl.
  pose proof (sumZ_bounds (-130) 130 (squareScore b aiColor <$> squares)) as Hs.
  rewrite length_fmap in Hl. rewrite length_fmap in Hs.
  change (length getLines) with 10 in Hl. change (length squares) with 16 in Hs.
  subst own opp.
  assert (Forall (λ x, -1500 ≤ x ≤ 1000)%Z (lineScore b aiColor <$> getLines))
    as HFl by (apply Forall_fmap, Forall_true; intros; apply lineScore_bounds).
  assert (Forall (λ x, -130 ≤ x ≤ 130)%Z (squareScore b aiColor <$> squares))
    as HFs by (apply Forall_fmap, Forall_true; intros; apply squareScore_bounds).
  specialize (Hl HFl). specialize (Hs HFs). lia.
Qed.




(** In a game the heuristic terms never reach [WIN]: a state without a
    line is scored strictly between [-WIN] and [WIN]. *)
Lemma evaluateBoard_reachable (s : GameState) (aiColor : Color) :
  reachable s →
  checkWin (board s) aiColor = None →
  checkWin (board s) (otherColor aiColor) = None →
  (- SCORES.WIN < evaluateBoard (board s) (hands s) aiColor < SCORES.WIN)%Z.
Proof.
  intros [Hw Hb]%reachable_hands_small Hown Hopp.
  unfold evaluateBoard. rewrite Hown, Hopp.
  pose proof (heuristic_bounds (board s) (hands s) aiColor) as Hh.
  cbv zeta in Hh. unfold SCORES.WIN.
  destruct aiColor; simpl in Hh; lia.
Qed.

(** ** The search *)

(** Case analysis on scores with infinities. *)
Ltac num_cases :=
  unfold clamp, num_ltb, num_max, num_min;
  repeat match goal with |- ∀ x : num, _ => intros [] end;
  simpl; repeat case_bool_decide; simpl; intros;
  repeat case_bool_decide;
  simplify_eq/=; try done; try lia; try (f_equal; lia).

Lemma clamp_full : ∀ x, clamp NegInf PosInf x = x.
Proof. num_cases. Qed.
Lemma num_max_assoc : ∀ x y z, num_max (num_max x y) z = num_max x (num_max y z).
Proof. num_cases. Qed.
Lemma num_min_assoc : ∀ x y z, num_min (num_min x y) z = num_min x (num_min y z).
Proof. num_cases. Qed.
Lemma clamp_max : ∀ a b x y,
  clamp a b (num_max x y) = num_max (clamp a b x) (clamp a b y).
Proof. num_cases. Qed.
Lemma clamp_min : ∀ a b x y,
  clamp a b (num_min x y) = num_min (clamp a b x) (clamp a b y).
Proof. num_cases. Qed.
Lemma clamp_below : ∀ a0 b acc,
  num_ltb (num_max a0 acc) b = true → clamp a0 b acc = num_max a0 acc.
Proof. num_cases. Qed.
Lemma clamp_raise : ∀ a0 acc b e,
  num_max (num_max a0 acc) (clamp a0 b e) = clamp (num_max a0 acc) b e.
Proof. num_cases. Qed.
Lemma clamp_at_top : ∀ a0 b acc,
  num_ltb a0 b = true → num_leb b (num_max a0 acc) = true → clamp a0 b acc = b.
Proof. num_cases. Qed.
Lemma clamp_top_mono : ∀ a0 b x y,
  num_ltb a0 b = true → clamp a0 b x = b → num_leb x y = true → clamp a0 b y = b.
Proof. num_cases. Qed.
Lemma clamp_above : ∀ a b0 acc,
  num_ltb a (num_min b0 acc) = true → clamp a b0 acc = num_min b0 acc.
Proof. num_cases. Qed.
Lemma clamp_lower : ∀ a b0 acc e,
  num_ltb a (num_min b0 acc) = true →
  num_min (num_min b0 acc) (clamp a b0 e) = clamp a (num_min b0 acc) e.
Proof. num_cases. Qed.
Lemma clamp_at_bottom : ∀ a b0 acc,
  num_ltb a b0 = true → num_leb (num_min b0 acc) a = true → clamp a b0 acc = a.
Proof. num_cases. Qed.
Lemma clamp_bottom_mono : ∀ a b0 x y,
  num_ltb a b0 = true → clamp a b0 x = a → num_leb y x = true → clamp a b0 y = a.
Proof. num_cases. Qed.
Lemma num_ltb_max_l : ∀ a0 acc b,
  num_ltb (num_max a0 acc) b = true → num_ltb a0 b = true.
Proof. num_cases. Qed.
Lemma num_ltb_min_r : ∀ a b0 acc,
  num_ltb a (num_min b0 acc) = true → num_ltb a b0 = true.
Proof. num_cases. Qed.
Lemma num_leb_max_l : ∀ x y, num_leb x (num_max x y) = true.
Proof. num_cases. Qed.
Lemma num_leb_min_l : ∀ x y, num_leb (num_min x y) x = true.
Proof. num_cases. Qed.
Lemma num_leb_refl : ∀ x, num_leb x x = true.
Proof. num_cases. Qed.
Lemma num_leb_trans : ∀ x y z,
  num_leb x y = true → num_leb y z = true → num_leb x z = true.
Proof. num_cases. Qed.
Lemma num_leb_false_ltb : ∀ x y, num_leb x y = false → num_ltb y x = true.
Proof. num_cases. Qed.

Lemma foldl_max_ge acc l : num_leb acc (foldl num_max acc l) = true.
Proof.
  revert acc. induction l as [|x l IH]; intros acc; simpl.
  - apply num_leb_refl.
  - eapply num_leb_trans; [apply num_leb_max_l|apply IH].
Qed.

Lemma foldl_min_le acc l : num_leb (foldl num_min acc l) acc = true.
Proof.
  revert acc. induction l as [|x l IH]; intros acc; simpl.
  - apply num_leb_refl.
  - eapply num_leb_trans; [apply IH|apply num_leb_min_l].
Qed.

(** The loops of a node, over any procedure [child] for the children that
    is right inside every window. *)
Section loops.
Variable child : Move → num → num → num.
Variable value : Move → num.
Hypothesis child_value :
  ∀ m a b, num_ltb a b = true → clamp a b (child m a b) = clamp a b (value m).

Lemma maxLoop_clamp moves : ∀ a0 b acc accT,
  num_ltb (num_max a0 acc) b = true →
  clamp a0 b acc = clamp a0 b accT →
  clamp a0 b (maxLoop child moves (num_max a0 acc) b acc)
  = clamp a0 b (foldl num_max accT (value <$> moves)).
Proof.
  induction moves as [|m rest IH]; intros a0 b acc accT Hlt Hacc; simpl.
  - done.
  - pose proof (child_value m _ _ Hlt) as He.
    set (e := child m (num_max a0 acc) b) in *.
    assert (clamp a0 b (num_max acc e) = clamp a0 b (num_max accT (value m)))
      as Hstep.
    { rewrite !clamp_max, <- Hacc, (clamp_below _ _ _ Hlt).
      by rewrite !clamp_raise. }
    rewrite num_max_assoc.
    destruct (num_leb b (num_max a0 (num_max acc e))) eqn:Hcut.
    + pose proof (num_ltb_max_l _ _ _ Hlt) as Hab.
      assert (clamp a0 b (num_max acc e) = b) as Htop
        by by apply clamp_at_top.
      rewrite Htop. symmetry.
      apply (clamp_top_mono a0 b (num_max accT (value m)));
        [done|by rewrite <- Hstep|apply foldl_max_ge].
    + apply IH; [|done]. by apply num_leb_false_ltb.
Qed.

Lemma minLoop_clamp moves : ∀ a b0 acc accT,
  num_ltb a (num_min b0 acc) = true →
  clamp a b0 acc = clamp a b0 accT →
  clamp a b0 (minLoop child moves a (num_min b0 acc) acc)
  = clamp a b0 (foldl num_min accT (value <$> moves)).
Proof.
  induction moves as [|m rest IH]; intros a b0 acc accT Hlt Hacc; simpl.
  - done.
  - pose proof (child_value m _ _ Hlt) as He.
    set (e := child m a (num_min b0 acc)) in *.
    assert (clamp a b0 (num_min acc e) = clamp a b0 (num_min accT (value m)))
      as Hstep.
    { rewrite !clamp_min, <- Hacc, (clamp_above _ _ _ Hlt).
      by rewrite !clamp_lower. }
    rewrite num_min_assoc.
    destruct (num_leb (num_min b0 (num_min acc e)) a) eqn:Hcut.
    + pose proof (num_ltb_min_r _ _ _ Hlt) as Hab.
      assert (clamp a b0 (num_min acc e) = a) as Hbot
        by by apply clamp_at_bottom.
      rewrite Hbot. symmetry.
      apply (clamp_bottom_mono a b0 (num_min accT (value m)));
        [done|by rewrite <- Hstep|apply foldl_min_le].
    + apply IH; [|done]. by apply num_leb_false_ltb.
Qed.
End loops.

Lemma num_max_NegInf_r : ∀ a, num_max a NegInf = a.
Proof. num_cases. Qed.
Lemma num_min_PosInf_r : ∀ b, num_min b PosInf = b.
Proof. num_cases. Qed.

(** Inside its window the pruned search agrees with the exhaustive one. *)
Lemma minimax_clamp depth : ∀ gameState alpha beta isMaximizing aiColor,
  num_ltb alpha beta = true →
  clamp alpha beta (minimax gameState depth alpha beta isMaximizing aiColor)
  = clamp alpha beta (exhaustiveMinimax gameState depth isMaximizing aiColor).
Proof.
  induction depth as [|depth IH]; intros gs alpha beta isMax aiColor Hlt;
    cbn [minimax exhaustiveMinimax]; [done|].
  destruct (winState (board gs)); [done|].
  destruct (getLegalMoves gs (currentPlayer gs)) as [|m moves]; [done|].
  generalize (m :: moves). clear m moves. intros moves.
  destruct isMax.
  - rewrite <- (num_max_NegInf_r alpha) at 2.
    apply (maxLoop_clamp _ (λ m, exhaustiveMinimax (simulateMove gs m) depth
                                   false aiColor)).
    + intros m' a b Hab. by apply IH.
    + by rewrite num_max_NegInf_r.
    + done.
  - rewrite <- (num_min_PosInf_r beta) at 2.
    apply (minLoop_clamp _ (λ m, exhaustiveMinimax (simulateMove gs m) depth
                                   true aiColor)).
    + intros m' a b Hab. by apply IH.
    + by rewrite num_min_PosInf_r.
    + done.
Qed.

Lemma num_leb_NegInf_r : ∀ x, num_leb x NegInf = true → x = NegInf.
Proof. num_cases. Qed.

Lemma num_ltb_leb : ∀ x y, num_ltb x y = true → num_leb x y = true.
Proof. num_cases. Qed.

Lemma num_ltb_false_leb : ∀ x y, num_ltb x y = false → num_leb y x = true.
Proof. num_cases. Qed.

(** The loop of the hard strategy returns a best value that bounds every
    value seen, together with the first move that reached it. *)
Lemma bestOf_spec (value : Move → num) (moves : list Move) :
  ∀ bm0 bv0,
    let '(bm, bv) := bestOf value moves (bm0, bv0) in
    num_leb bv0 bv = true ∧
    (∀ m, m ∈ moves → num_leb (value m) bv = true) ∧
    ((bm, bv) = (bm0, bv0) ∨ (bm ∈ moves ∧ value bm = bv)).
Proof.
  unfold bestOf. induction moves as [|m moves IH]; intros bm0 bv0; simpl.
  - split_and!; [apply num_leb_refl| |by left].
    intros m Hm. by apply elem_of_nil in Hm.
  - destruct (num_ltb bv0 (value m)) eqn:Hlt.
    + specialize (IH m (value m)).
      destruct (foldl _ _ moves) as [bm bv]. destruct IH as (Hle & Hall & Hbest).
      split_and!.
      * eapply num_leb_trans; [by apply num_ltb_leb|done].
      * intros m' [->|Hm']%elem_of_cons; auto.
      * right. destruct Hbest as [[= -> ->]|[Hin Hval]]; split; try done;
          [left|by right].
    + specialize (IH bm0 bv0).
      destruct (foldl _ _ moves) as [bm bv]. destruct IH as (Hle & Hall & Hbest).
      split_and!; [done| |].
      * intros m' [->|Hm']%elem_of_cons; [|auto].
        eapply num_leb_trans; [by apply num_ltb_false_leb|done].
      * destruct Hbest as [Heq|[Hin Hval]]; [by left|right].
        split; [by right|done].
Qed.

Lemma bestOf_ext (value value' : Move → num) (moves : list Move) start :
  (∀ m, value m = value' m) →
  bestOf value moves start = bestOf value' moves start.
Proof.
  intros Hext. unfold bestOf. revert start.
  induction moves as [|m moves IH]; intros [bm bv]; simpl; [done|].
  by rewrite Hext, IH.
Qed.

(** C6. With the full window the pruned search returns the value of the
    exhaustive search of the same depth, for every state, depth and side.
    Hence the hard strategy makes the same choice with either search, and
    the move it returns is a legal move whose exhaustive value is the best
    among the legal moves. *)
Theorem alpha_beta_exact (gameState : GameState) :
  (∀ depth isMaximizing aiColor,
     minimax gameState depth NegInf PosInf isMaximizing aiColor
     = exhaustiveMinimax gameState depth isMaximizing aiColor) ∧
  let player := currentPlayer gameState in
  let moves := getLegalMoves gameState player in
  let pruned m :=
    minimax (simulateMove gameState m) 3 NegInf PosInf false player in
  let exhaustive m :=
    exhaustiveMinimax (simulateMove gameState m) 3 false player in
  hardChoice pruned moves = hardChoice exhaustive moves ∧
  (∀ bestMove bestValue,
     hardChoice pruned moves = Some (bestMove, bestValue) →
     bestMove ∈ moves ∧
     bestValue = exhaustive bestMove ∧
     ∀ m, m ∈ moves → num_leb (exhaustive m) bestValue = true) ∧
  (∀ rnd,
     difficulty gameState = hard →
     getCpuMove rnd gameState
     = (λ '(bestMove, _), withFeedback bestMove (hardFeedback bestMove))
         <$> hardChoice exhaustive moves).
Proof.
  assert (∀ s depth isMax aiColor,
            minimax s depth NegInf PosInf isMax aiColor
            = exhaustiveMinimax s depth isMax aiColor) as Hexact.
  { intros s depth isMax aiColor.
    rewrite <- (clamp_full (minimax _ _ _ _ _ _)),
            <- (clamp_full (exhaustiveMinimax _ _ _ _)).
    by apply minimax_clamp. }
  split; [apply Hexact|]. intros player moves pruned exhaustive.
  assert (hardChoice pruned moves = hardChoice exhaustive moves) as Hsame.
  { unfold hardChoice. destruct moves as [|first rest]; [done|].
    f_equal. apply bestOf_ext. intros m. apply Hexact. }
  split_and!; [done| |].
  - intros bestMove bestValue. rewrite Hsame. unfold hardChoice.
    destruct moves as [|first rest] eqn:Hmoves; [done|].
    pose proof (bestOf_spec exhaustive (first :: rest) first NegInf) as Hspec.
    destruct (bestOf exhaustive (first :: rest) (first, NegInf)) as [bm bv].
    intros [= -> ->]. destruct Hspec as (_ & Hall & Hwhich).
    destruct Hwhich as [[= -> ->]|[Hin Hval]].
    + split_and!; [left| |done]. symmetry.
      apply num_leb_NegInf_r, Hall. left.
    + done.
  - intros rnd Hhard. unfold getCpuMove. rewrite Hhard.
    fold player. fold moves. fold pruned. rewrite Hsame.
    destruct moves; [|done]. done.
Qed.

(** ** The simulated transition *)

Lemma pawnEdge_directions :
  applies pawnEdgeState pawnEdgeMove ∧
  activeType pawnEdgeState pawnEdgeMove = Some PAWN ∧
  r (to pawnEdgeMove) = 0 ∧
  pawnDirections (simulateMove pawnEdgeState pawnEdgeMove)
  = pawnDirections pawnEdgeState ∧
  pawnDirections (executeMove None 0 pawnEdgeState pawnEdgeMove)
  ≠ pawnDirections pawnEdgeState.
Proof.
  split; [split|split_and!].
  - vm_compute. reflexivity.
  - vm_compute. by eexists.
  - vm_compute. reflexivity.
  - reflexivity.
  - vm_compute. reflexivity.
  - vm_compute. discriminate.
Qed.

(** C10. [simulateMove] returns a state whose pawn directions, winner,
    winning line, position counts, history, status message, mode and
    difficulty are those of its argument, and whose player to move is the
    other colour; only the board and the hands are computed.  In particular
    a simulated Pawn step onto an edge row keeps the directions that
    [executeMove] flips. *)
Theorem simulateMove_frame (gameState : GameState) (m : Move) :
  let sim := simulateMove gameState m in
  pawnDirections sim = pawnDirections gameState ∧
  winner sim = winner gameState ∧
  winningLine sim = winningLine gameState ∧
  positionCounts sim = positionCounts gameState ∧
  history sim = history gameState ∧
  statusMessage sim = statusMessage gameState ∧
  gameMode sim = gameMode gameState ∧
  difficulty sim = difficulty gameState ∧
  currentPlayer sim = otherColor (currentPlayer gameState) ∧
  (applies pawnEdgeState pawnEdgeMove ∧
   activeType pawnEdgeState pawnEdgeMove = Some PAWN ∧
   r (to pawnEdgeMove) = 0 ∧
   pawnDirections (simulateMove pawnEdgeState pawnEdgeMove)
   = pawnDirections pawnEdgeState ∧
   pawnDirections (executeMove None 0 pawnEdgeState pawnEdgeMove)
   ≠ pawnDirections pawnEdgeState).
Proof.
  cbv zeta.
  do 9 (split; [unfold simulateMove; destruct (mtype m); reflexivity|]).
  apply pawnEdge_directions.
Qed.

(** ** Determinism of the move generator and of the opponent *)

Lemma isValidMove_ext (s1 s2 : GameState) piece from dest :
  board s1 = board s2 → pawnDirections s1 = pawnDirections s2 →
  isValidMove s1 piece from dest = isValidMove s2 piece from dest.
Proof. intros Hb Hd. unfold isValidMove. by rewrite Hb, Hd. Qed.

Lemma getLegalMoves_ext (s1 s2 : GameState) col :
  board s1 = board s2 → hands s1 = hands s2 →
  pawnDirections s1 = pawnDirections s2 →
  getLegalMoves s1 col = getLegalMoves s2 col.
Proof.
  intros Hb Hh Hd. unfold getLegalMoves. cbv zeta. rewrite Hb, Hh.
  match goal with
  | |- (?a ++ ?b1 = ?a ++ ?b2)%list => cut (b1 = b2); [by intros ->|]
  end.
  apply list_bind_ext; [|reflexivity]. intros from.
  destruct (getCell (board s2) from) as [piece|]; [|done].
  case_bool_decide; [|reflexivity].
  apply list_bind_ext; [|reflexivity]. intros dest.
  by rewrite (isValidMove_ext s1 s2).
Qed.

(** C7, as the code has it.  The legal moves are a function of the board,
    the hands and the pawn directions alone.  The choice of the opponent
    does not depend on the random draw on Hard, nor on Medium when some move
    wins at once, blocks a line of three or captures; in every case two
    draws that select the same index give the same move. *)
Theorem cpu_choice_determinism (gameState : GameState) :
  (∀ other col,
     board other = board gameState → hands other = hands gameState →
     pawnDirections other = pawnDirections gameState →
     getLegalMoves other col = getLegalMoves gameState col) ∧
  (∀ rnd1 rnd2,
     difficulty gameState = hard →
     getCpuMove rnd1 gameState = getCpuMove rnd2 gameState) ∧
  (∀ rnd1 rnd2,
     difficulty gameState = medium → mediumDecided gameState →
     getCpuMove rnd1 gameState = getCpuMove rnd2 gameState) ∧
  (∀ rnd1 rnd2,
     let n := length (getLegalMoves gameState (currentPlayer gameState)) in
     randomIndex rnd1 n = randomIndex rnd2 n →
     getCpuMove rnd1 gameState = getCpuMove rnd2 gameState).
Proof.
  split_and!.
  - intros other col. apply getLegalMoves_ext.
  - intros rnd1 rnd2 Hhard. unfold getCpuMove. by rewrite Hhard.
  - intros rnd1 rnd2 Hmedium Hdecided. unfold getCpuMove, mediumDecided in *.
    rewrite Hmedium. cbv zeta in Hdecided.
    destruct (getLegalMoves gameState (currentPlayer gameState)) as [|m0 moves];
      [done|].
    destruct Hdecided as [[m ->]|[[m ->]|Hcap]]; [done| |].
    + by destruct (find _ _).
    + destruct (find _ _); [done|]. destruct (blockThreat _ _ _ _); [done|].
      by destruct (filter _ _).
  - intros rnd1 rnd2 n Hidx. unfold getCpuMove. subst n.
    destruct (getLegalMoves gameState (currentPlayer gameState)) as [|m0 moves];
      [done|].
    by rewrite Hidx.
Qed.

(** C7 as stated fails on Medium: in the position after White's opening no
    move wins, blocks or captures, and two readings of the random source
    give two different moves. *)
Lemma medium_choice_depends_on_draw :
  difficulty cpuTurnState = medium ∧
  currentPlayer cpuTurnState = black ∧
  winner cpuTurnState = None ∧
  rnum (mkRandom 0 1) < rden (mkRandom 0 1) ∧
  rnum (mkRandom 1 2) < rden (mkRandom 1 2) ∧
  getCpuMove (mkRandom 0 1) cpuTurnState
  ≠ getCpuMove (mkRandom 1 2) cpuTurnState.
Proof.
  split_and!; try (vm_compute; reflexivity); try (vm_compute; lia).
  vm_compute. discriminate.
Qed.

(** ** The move validator *)

Lemma isValid_true v : isValid v = true ↔ v = Valid.
Proof. destruct v; simpl; split; congruence. Qed.

(** The walk of the path loop: with enough iterations left it answers
    whether the cells it passes before reaching the target are all empty. *)
Lemma pathClear_walk (b : Board) (rStep cStep toR toC : Z) (n : nat) :
  (rStep ≠ 0 ∨ cStep ≠ 0)%Z →
  ∀ fuel currR currC,
    n ≤ fuel →
    toR = (currR + Z.of_nat n * rStep)%Z →
    toC = (currC + Z.of_nat n * cStep)%Z →
    pathClear fuel b currR currC rStep cStep toR toC = true ↔
    ∀ k, k < n →
         getCellZ b (currR + Z.of_nat k * rStep) (currC + Z.of_nat k * cStep)
         = None.
Proof.
  intros Hstep. induction n as [|n IH]; intros fuel currR currC Hfuel HR HC.
  - assert (toR = currR ∧ toC = currC) as [-> ->] by lia.
    destruct fuel; simpl; rewrite !bool_decide_eq_true_2 by done; simpl;
      (split; [intros _ k Hk; lia|done]).
  - destruct fuel as [|fuel]; [lia|]. simpl.
    assert (bool_decide (currR = toR) && bool_decide (currC = toC) = false)
      as ->.
    { apply andb_false_iff.
      destruct Hstep; [left|right]; apply bool_decide_eq_false; nia. }
    destruct (getCellZ b currR currC) as [p|] eqn:Hcell.
    + split; [done|]. intros H. specialize (H 0 ltac:(lia)).
      rewrite !Z.mul_0_l, !Z.add_0_r in H. congruence.
    + rewrite (IH fuel (currR + rStep)%Z (currC + cStep)%Z) by lia.
      split.
      * intros H [|k] Hk.
        -- by rewrite !Z.mul_0_l, !Z.add_0_r.
        -- specialize (H k ltac:(lia)).
           replace (currR + Z.of_nat (S k) * rStep)%Z
             with (currR + rStep + Z.of_nat k * rStep)%Z by lia.
           replace (currC + Z.of_nat (S k) * cStep)%Z
             with (currC + cStep + Z.of_nat k * cStep)%Z by lia.
           done.
      * intros H k Hk. specialize (H (S k) ltac:(lia)).
        replace (currR + rStep + Z.of_nat k * rStep)%Z
          with (currR + Z.of_nat (S k) * rStep)%Z by lia.
        replace (currC + cStep + Z.of_nat k * cStep)%Z
          with (currC + Z.of_nat (S k) * cStep)%Z by lia.
        done.
Qed.

Lemma getCellZ_of_nat (b : Board) (pos : Position) :
  getCellZ b (Z.of_nat (r pos)) (Z.of_nat (c pos)) = getCell b pos.
Proof.
  unfold getCellZ. rewrite !bool_decide_eq_true_2 by lia. simpl.
  rewrite !Nat2Z.id. by destruct pos.
Qed.

(** On the grid the path loop of the sliding pieces checks exactly the
    squares strictly between origin and destination. *)
Lemma pathClear_between (b : Board) (from dest : Position) :
  onGrid from → onGrid dest → from ≠ dest →
  let dr := (Z.of_nat (r dest) - Z.of_nat (r from))%Z in
  let dc := (Z.of_nat (c dest) - Z.of_nat (c from))%Z in
  (dr = 0 ∨ dc = 0 ∨ Z.abs dr = Z.abs dc)%Z →
  pathClear GRID_SIZE b (Z.of_nat (r from) + Z.sgn dr)
    (Z.of_nat (c from) + Z.sgn dc) (Z.sgn dr) (Z.sgn dc)
    (Z.of_nat (r dest)) (Z.of_nat (c dest)) = true ↔
  Forall (λ pos, getCell b pos = None) (squaresBetween from dest).
Proof.
  intros [Hfr Hfc] [Hdr Hdc] Hne dr dc Hshape. unfold GRID_SIZE in *.
  assert (dr ≠ 0 ∨ dc ≠ 0)%Z as Hmoved.
  { destruct (decide (dr = 0%Z)) as [Hr|]; [|by left]. right. intros Hc.
    apply Hne. destruct from, dest; simpl in *. f_equal; lia. }
  set (dist := Z.to_nat (Z.max (Z.abs dr) (Z.abs dc))).
  assert (1 ≤ dist ≤ 3) as Hdist by (subst dist dr dc; lia).
  assert (Z.of_nat dist * Z.sgn dr = dr ∧ Z.of_nat dist * Z.sgn dc = dc)%Z
    as [HR HC].
  { subst dist. rewrite Z2Nat.id by lia.
    destruct (Z.sgn_spec dr) as [[? ->]|[[? ->]|[? ->]]],
             (Z.sgn_spec dc) as [[? ->]|[[? ->]|[? ->]]]; lia. }
  rewrite (pathClear_walk b _ _ _ _ (dist - 1)).
  - unfold squaresBetween. fold dr dc dist.
    rewrite Forall_fmap, Forall_seq. split.
    + intros H k Hk. simpl. specialize (H (k - 1) ltac:(lia)).
      replace (Z.of_nat (r from) + Z.sgn dr + Z.of_nat (k - 1) * Z.sgn dr)%Z
        with (Z.of_nat (r from) + Z.of_nat k * Z.sgn dr)%Z in H by lia.
      replace (Z.of_nat (c from) + Z.sgn dc + Z.of_nat (k - 1) * Z.sgn dc)%Z
        with (Z.of_nat (c from) + Z.of_nat k * Z.sgn dc)%Z in H by lia.
      unfold getCellZ in H.
      rewrite !bool_decide_eq_true_2 in H; [done| |].
      * destruct (Z.sgn_spec dc) as [[? Hs]|[[? Hs]|[? Hs]]]; rewrite Hs in *;
          lia.
      * destruct (Z.sgn_spec dr) as [[? Hs]|[[? Hs]|[? Hs]]]; rewrite Hs in *;
          lia.
    + intros H k Hk. specialize (H (S k) ltac:(lia)). simpl in H.
      replace (Z.of_nat (r from) + Z.sgn dr + Z.of_nat k * Z.sgn dr)%Z
        with (Z.of_nat (r from) + Z.of_nat (S k) * Z.sgn dr)%Z by lia.
      replace (Z.of_nat (c from) + Z.sgn dc + Z.of_nat k * Z.sgn dc)%Z
        with (Z.of_nat (c from) + Z.of_nat (S k) * Z.sgn dc)%Z by lia.
      unfold getCellZ.
      rewrite !bool_decide_eq_true_2; [done| |].
      * destruct (Z.sgn_spec dc) as [[? Hs]|[[? Hs]|[? Hs]]]; rewrite Hs in *;
          lia.
      * destruct (Z.sgn_spec dr) as [[? Hs]|[[? Hs]|[? Hs]]]; rewrite Hs in *;
          lia.
  - destruct (Z.sgn_spec dr) as [[? ->]|[[? ->]|[? ->]]],
             (Z.sgn_spec dc) as [[? ->]|[[? ->]|[? ->]]]; lia.
  - lia.
  - replace (Z.of_nat (dist - 1)) with (Z.of_nat dist - 1)%Z by lia.
    subst dr. lia.
  - replace (Z.of_nat (dist - 1)) with (Z.of_nat dist - 1)%Z by lia.
    subst dc. lia.
Qed.

Lemma isValidMove_notOwn (gameState : GameState) (piece : Piece)
    (from dest : Position) :
  isValid (isValidMove gameState piece from dest) = true →
  notOwn (board gameState) piece dest.
Proof.
  unfold isValidMove, notOwn. cbv zeta.
  destruct (bool_decide (GRID_SIZE ≤ r dest)); [done|].
  destruct (bool_decide (GRID_SIZE ≤ c dest)); [done|]. simpl.
  destruct (getCell (board gameState) dest) as [t|]; [|done].
  case_bool_decide as Hown; [done|]. by intros _ ? [= <-].
Qed.

Lemma isValidMove_onGrid (gameState : GameState) (piece : Piece)
    (from dest : Position) :
  isValid (isValidMove gameState piece from dest) = true → onGrid dest.
Proof.
  unfold isValidMove, onGrid. cbv zeta.
  destruct (bool_decide (GRID_SIZE ≤ r dest)) eqn:Hr; [done|].
  destruct (bool_decide (GRID_SIZE ≤ c dest)) eqn:Hc; [done|].
  apply bool_decide_eq_false in Hr, Hc. lia.
Qed.

(** X1. No move is valid towards a square off the grid or onto a piece of
    the mover's own colour, whatever the kind of the piece. *)
Theorem isValidMove_never_off_grid_or_own (gameState : GameState)
    (piece : Piece) (from dest : Position) :
  isValid (isValidMove gameState piece from dest) = true →
  onGrid dest ∧ notOwn (board gameState) piece dest.
Proof.
  intros Hvalid. split.
  - by eapply isValidMove_onGrid.
  - by eapply isValidMove_notOwn.
Qed.

Lemma isValid_if (cond : bool) (message : string) :
  isValid (if cond then Valid else Invalid message) = cond.
Proof. by destruct cond. Qed.

(** X2. A Rook or a Bishop may go from one square of the grid to another
    exactly when the destination does not hold a piece of its colour, the
    two squares lie on a common row or column (Rook) or diagonal (Bishop),
    and every square strictly between them is empty. *)
Theorem isValidMove_slider (gameState : GameState) (piece : Piece)
    (from dest : Position) :
  type piece = ROOK ∨ type piece = BISHOP →
  onGrid from → onGrid dest → from ≠ dest →
  isValid (isValidMove gameState piece from dest) = true ↔
  notOwn (board gameState) piece dest ∧
  match type piece with
  | ROOK => r from = r dest ∨ c from = c dest
  | _ => (Z.abs (Z.of_nat (r dest) - Z.of_nat (r from))
          = Z.abs (Z.of_nat (c dest) - Z.of_nat (c from)))%Z
  end ∧
  Forall (λ pos, getCell (board gameState) pos = None)
    (squaresBetween from dest).
Proof.
  intros Hkind Hfrom Hdest Hne.
  pose proof (pathClear_between (board gameState) from dest Hfrom Hdest Hne)
    as Hpath. cbv zeta in Hpath.
  unfold isValidMove. cbv zeta.
  destruct Hdest as [Hdr Hdc].
  rewrite !bool_decide_eq_false_2 by lia. simpl.
  set (dr := (Z.of_nat (r dest) - Z.of_nat (r from))%Z) in *.
  set (dc := (Z.of_nat (c dest) - Z.of_nat (c from))%Z) in *.
  assert (match getCell (board gameState) dest with
          | Some t => bool_decide (color t = color piece)
          | None => false
          end = false ↔ notOwn (board gameState) piece dest) as Hown.
  { unfold notOwn. destruct (getCell (board gameState) dest) as [t|].
    - rewrite bool_decide_eq_false. split.
      + by intros ? ? [= <-].
      + intros H. by apply H.
    - split; [by intros|done]. }
  destruct (match getCell (board gameState) dest with
            | Some t => bool_decide (color t = color piece)
            | None => false
            end).
  { split; [done|]. intros [Hnot _]. by apply Hown in Hnot. }
  assert (notOwn (board gameState) piece dest) as Hnot by by apply Hown.
  destruct Hkind as [-> | ->].
  - destruct (bool_decide (dr ≠ 0%Z) && bool_decide (dc ≠ 0%Z)) eqn:Hboth.
    + apply andb_true_iff in Hboth
        as [?%bool_decide_eq_true ?%bool_decide_eq_true].
      split; [done|]. intros (_ & [?|?] & _); subst dr dc; lia.
    + assert (dr = 0 ∨ dc = 0)%Z as Hline.
      { apply andb_false_iff in Hboth
          as [Hz%bool_decide_eq_false|Hz%bool_decide_eq_false];
          apply dec_stable in Hz; auto. }
      rewrite isValid_if, Hpath by tauto.
      split; [intros HF; split_and!; [done| |done]|tauto].
      subst dr dc. lia.
  - case_bool_decide as Hdiag.
    { split; [done|]. by intros (_ & ? & _). }
    assert (dr ≠ 0 ∧ dc ≠ 0)%Z as [Hr Hc].
    { destruct (decide (dr = 0%Z)), (decide (dc = 0%Z)); try lia.
      exfalso. apply Hne. destruct from, dest; simpl in *.
      subst dr dc. f_equal; lia. }
    assert ((if bool_decide (0 < dr)%Z then 1 else -1)%Z = Z.sgn dr) as ->
      by (case_bool_decide; lia).
    assert ((if bool_decide (0 < dc)%Z then 1 else -1)%Z = Z.sgn dc) as ->
      by (case_bool_decide; lia).
    rewrite isValid_if, Hpath by tauto. tauto.
Qed.

(** X3. The pieces that do not slide.  A Knight may go to a square of the
    grid exactly when it is an L-shaped jump away and does not hold a piece
    of its colour, whatever stands in between.  A Pawn may go to a square
    of the grid exactly when that square is one row ahead in its colour's
    current direction and either in the same column and empty, or in a
    neighbouring column and held by an opposing piece. *)
Theorem isValidMove_stepper (gameState : GameState) (piece : Piece)
    (from dest : Position) :
  type piece = PAWN ∨ type piece = KNIGHT →
  onGrid dest →
  let dr := (Z.of_nat (r dest) - Z.of_nat (r from))%Z in
  let dc := (Z.of_nat (c dest) - Z.of_nat (c from))%Z in
  isValid (isValidMove gameState piece from dest) = true ↔
  match type piece with
  | PAWN =>
      dr = dirOf (pawnDirections gameState) (color piece) ∧
      ((dc = 0%Z ∧ getCell (board gameState) dest = None) ∨
       (Z.abs dc = 1%Z ∧
        ∃ t, getCell (board gameState) dest = Some t ∧ color t ≠ color piece))
  | _ =>
      notOwn (board gameState) piece dest ∧
      ((Z.abs dr = 2 ∧ Z.abs dc = 1)%Z ∨ (Z.abs dr = 1 ∧ Z.abs dc = 2)%Z)
  end.
Proof.
  intros Hkind [Hdr Hdc] dr dc. unfold isValidMove, notOwn. cbv zeta.
  rewrite !bool_decide_eq_false_2 by lia. simpl. fold dr dc.
  destruct Hkind as [-> | ->].
  - destruct (getCell (board gameState) dest) as [t|] eqn:Htarget.
    + case_bool_decide as Hown.
      { split; [done|]. intros (_ & [[_ ?]|(_ & t' & [= <-] & ?)]); done. }
      repeat case_bool_decide; simpl; split; try done;
        try (intros (? & [[? ?]|(? & t' & [= <-] & ?)]); done || lia);
        intros _; (split; [done|]); right; (split; [done|]); eauto.
    + repeat case_bool_decide; simpl; split; try done;
        try (intros (? & [[? ?]|(? & t' & ? & ?)]); done || lia);
        intros _; (split; [done|]); by left.
  - destruct (getCell (board gameState) dest) as [t|] eqn:Htarget.
    + case_bool_decide as Hown.
      { split; [done|]. intros [Hnot _]. by destruct (Hnot t). }
      repeat case_bool_decide; simpl; split; try done;
        try (intros [_ [[??]|[??]]]; lia);
        intros _; (split; [by intros ? [= <-]|lia]).
    + repeat case_bool_decide; simpl; split; try done;
        try (intros [_ [[??]|[??]]]; lia);
        intros _; (split; [done|lia]).
Qed.

(** ** The move generator *)

Lemma uniqueFrom_elem_of (seen l : list PieceType) x :
  x ∈ uniqueFrom seen l ↔ x ∈ l ∧ x ∉ seen.
Proof.
  revert seen. induction l as [|y l IH]; intros seen; simpl.
  - split; [by intros ?%elem_of_nil|by intros [?%elem_of_nil _]].
  - case_bool_decide as Hy.
    + rewrite IH, elem_of_cons. split; [tauto|].
      intros [[->|Hx] Hnot]; [done|tauto].
    + rewrite !elem_of_cons, IH, not_elem_of_cons. split.
      * intros [->|[Hx [Hne Hnot]]]; tauto.
      * intros [[->|Hx] Hnot]; [by left|].
        destruct (decide (x = y)) as [->|]; [by left|right]. tauto.
Qed.

Lemma uniqueFrom_NoDup (seen l : list PieceType) : NoDup (uniqueFrom seen l).
Proof.
  revert seen. induction l as [|y l IH]; intros seen; simpl.
  - constructor.
  - case_bool_decide; [done|]. apply NoDup_cons. split; [|done].
    rewrite uniqueFrom_elem_of, not_elem_of_cons. tauto.
Qed.

Lemma squares_NoDup : NoDup squares.
Proof. apply (bool_decide_unpack (NoDup squares)). vm_compute. exact I. Qed.

Lemma elem_of_squares pos : pos ∈ squares ↔ onGrid pos.
Proof. split; [apply squares_onGrid|apply onGrid_cases]. Qed.

Lemma elem_of_getLegalMoves (gameState : GameState) (col : Color) (m : Move) :
  m ∈ getLegalMoves gameState col ↔
  (∃ pt dest,
     m = placeMove pt dest ∧ pt ∈ handOf (hands gameState) col ∧
     onGrid dest ∧ getCell (board gameState) dest = None) ∨
  (∃ piece from dest,
     m = boardMove piece from dest (getCell (board gameState) dest) ∧
     onGrid from ∧ onGrid dest ∧ from ≠ dest ∧
     getCell (board gameState) from = Some piece ∧ color piece = col ∧
     isValid (isValidMove gameState piece from dest) = true).
Proof.
  unfold getLegalMoves. cbv zeta. rewrite elem_of_app. f_equiv.
  - rewrite list_elem_of_bind. split.
    + intros (pt & Hm & Hpt). apply list_elem_of_bind in Hm as (dest & Hm & Hd).
      apply uniqueFrom_elem_of in Hpt as [Hpt _].
      apply elem_of_squares in Hd.
      destruct (getCell (board gameState) dest) eqn:Hcell;
        [by apply elem_of_nil in Hm|].
      apply list_elem_of_singleton in Hm as ->. by exists pt, dest.
    + intros (pt & dest & -> & Hpt & Hd & Hcell). exists pt. split.
      * apply list_elem_of_bind. exists dest. rewrite Hcell.
        split; [apply list_elem_of_singleton; done|by apply elem_of_squares].
      * apply uniqueFrom_elem_of. split; [done|apply not_elem_of_nil].
  - rewrite list_elem_of_bind. split.
    + intros (from & Hm & Hf). apply elem_of_squares in Hf.
      destruct (getCell (board gameState) from) as [piece|] eqn:Hpiece;
        [|by apply elem_of_nil in Hm].
      case_bool_decide as Hcol; [|by apply elem_of_nil in Hm].
      apply list_elem_of_bind in Hm as (dest & Hm & Hd).
      apply elem_of_squares in Hd.
      case_bool_decide as Hne; [by apply elem_of_nil in Hm|].
      destruct (isValid _) eqn:Hvalid; [|by apply elem_of_nil in Hm].
      apply list_elem_of_singleton in Hm as ->.
      exists piece, from, dest. by split_and!.
    + intros (piece & from & dest & -> & Hf & Hd & Hne & Hpiece & Hcol & Hv).
      exists from. split; [|by apply elem_of_squares].
      rewrite Hpiece, bool_decide_eq_true_2 by done.
      apply list_elem_of_bind. exists dest.
      split; [|by apply elem_of_squares].
      rewrite bool_decide_eq_false_2 by done. rewrite Hv.
      by apply list_elem_of_singleton.
Qed.

Lemma elem_of_if_singleton {A} (cond : bool) (x y : A) :
  y ∈ (if cond then [x] else []) ↔ cond = true ∧ y = x.
Proof.
  destruct cond; [rewrite list_elem_of_singleton; tauto|].
  split; [by intros ?%elem_of_nil|by intros [? _]].
Qed.

(** The relocations generated from one origin square to one destination. *)
Lemma elem_of_relocation (gameState : GameState) piece from dest m :
  m ∈ (if bool_decide (from = dest) then []
       else if isValid (isValidMove gameState piece from dest)
            then [boardMove piece from dest (getCell (board gameState) dest)]
            else []) ↔
  from ≠ dest ∧ isValid (isValidMove gameState piece from dest) = true ∧
  m = boardMove piece from dest (getCell (board gameState) dest).
Proof.
  case_bool_decide as Hne.
  - split; [by intros ?%elem_of_nil|by intros [? _]].
  - rewrite elem_of_if_singleton. tauto.
Qed.

(** The relocations generated from one origin square. *)
Lemma elem_of_relocations (gameState : GameState) col from m :
  m ∈ match getCell (board gameState) from with
      | Some piece =>
          if bool_decide (color piece = col) then
            dest ← squares;
            if bool_decide (from = dest) then []
            else if isValid (isValidMove gameState piece from dest)
                 then [boardMove piece from dest
                         (getCell (board gameState) dest)]
                 else []
          else []
      | None => []
      end →
  ∃ piece dest,
    getCell (board gameState) from = Some piece ∧ mtype m = move from ∧
    to m = dest ∧
    m = boardMove piece from dest (getCell (board gameState) dest).
Proof.
  destruct (getCell (board gameState) from) as [piece|];
    [|by intros ?%elem_of_nil].
  case_bool_decide; [|by intros ?%elem_of_nil].
  intros (dest & Hm & _)%list_elem_of_bind.
  apply elem_of_relocation in Hm as (_ & _ & ->). by exists piece, dest.
Qed.

(** The placements generated for one kind on one square. *)
Lemma elem_of_placement (b : Board) pt dest m :
  m ∈ match getCell b dest with
      | None => [placeMove pt dest]
      | Some _ => []
      end ↔
  getCell b dest = None ∧ m = placeMove pt dest.
Proof.
  destruct (getCell b dest).
  - split; [by intros ?%elem_of_nil|by intros [? _]].
  - rewrite list_elem_of_singleton. tauto.
Qed.

Lemma NoDup_getLegalMoves (gameState : GameState) (col : Color) :
  NoDup (getLegalMoves gameState col).
Proof.
  unfold getLegalMoves. cbv zeta. apply NoDup_app. split_and!.
  - apply NoDup_bind; [| |apply uniqueFrom_NoDup].
    + intros pt1 pt2 m _ _ H1 H2.
      apply list_elem_of_bind in H1 as (d1 & [_ ->]%elem_of_placement & _).
      apply list_elem_of_bind in H2 as (d2 & [_ H2]%elem_of_placement & _).
      by injection H2.
    + intros pt _. apply NoDup_bind; [| |apply squares_NoDup].
      * intros d1 d2 m _ _ [_ ->]%elem_of_placement [_ H2]%elem_of_placement.
        by injection H2.
      * intros d _. destruct (getCell _ d); [constructor|].
        apply NoDup_singleton.
  - intros m H1 H2.
    apply list_elem_of_bind in H1 as (pt & H1 & _).
    apply list_elem_of_bind in H1 as (d1 & [_ ->]%elem_of_placement & _).
    apply list_elem_of_bind in H2 as (from & H2 & _).
    by apply elem_of_relocations in H2 as (? & ? & _ & ? & _).
  - apply NoDup_bind; [| |apply squares_NoDup].
    + intros f1 f2 m _ _ H1 H2.
      apply elem_of_relocations in H1 as (? & ? & _ & H1 & _).
      apply elem_of_relocations in H2 as (? & ? & _ & H2 & _).
      congruence.
    + intros from _. destruct (getCell _ from) as [piece|]; [|constructor].
      case_bool_decide; [|constructor].
      apply NoDup_bind; [| |apply squares_NoDup].
      * intros d1 d2 m _ _ (_ & _ & ->)%elem_of_relocation
                           (_ & _ & H2)%elem_of_relocation.
        by injection H2.
      * intros d _. case_bool_decide; [constructor|].
        destruct (isValid _); [apply NoDup_singleton|constructor].
Qed.

(** X4. The legal moves of a colour are exactly the placements of a kind of
    its hand on an empty square of the grid, and the relocations of one of
    its pieces to another square of the grid that [isValidMove] accepts,
    each carrying the kind of the piece and the occupant of the
    destination; and no move is listed twice, also when the hand holds a
    kind more than once. *)
Theorem getLegalMoves_spec (gameState : GameState) (col : Color) :
  (∀ m,
     m ∈ getLegalMoves gameState col ↔
     (∃ pt dest,
        m = placeMove pt dest ∧ pt ∈ handOf (hands gameState) col ∧
        onGrid dest ∧ getCell (board gameState) dest = None) ∨
     (∃ piece from dest,
        m = boardMove piece from dest (getCell (board gameState) dest) ∧
        onGrid from ∧ onGrid dest ∧ from ≠ dest ∧
        getCell (board gameState) from = Some piece ∧ color piece = col ∧
        isValid (isValidMove gameState piece from dest) = true)) ∧
  NoDup (getLegalMoves gameState col).
Proof.
  split; [intros m; apply elem_of_getLegalMoves|apply NoDup_getLegalMoves].
Qed.

Lemma legal_move_applies (gameState : GameState) (m : Move) :
  winner gameState = None →
  m ∈ getLegalMoves gameState (currentPlayer gameState) →
  onGridMove m ∧ leavesOrigin m ∧ applies gameState m.
Proof.
  intros Hwin Hm.
  apply elem_of_getLegalMoves in Hm
    as [(pt & dest & -> & Hpt & Hd & Hcell)
       |(piece & from & dest & -> & Hf & Hd & Hne & Hpiece & Hcol & Hv)].
  - split_and!; [by split|done|]. split; [done|]. simpl.
    clear -Hpt. induction Hpt as [pt l|pt y l _ IH]; simpl.
    + rewrite bool_decide_eq_true_2 by done. by eexists.
    + case_bool_decide; [by eexists|]. destruct IH as [i ->]. by eexists.
  - split_and!; [by split|done|]. split; [done|]. simpl. by eexists.
Qed.

(** X5. While the game lasts, every legal move of the player to move names
    squares of the grid, goes to a square other than its origin, and is
    really applied by [executeMove]: the state changes and the move is
    appended to the history. *)
Theorem legal_move_is_applied (myColor : option Color) (now : N)
    (gameState : GameState) (m : Move) :
  winner gameState = None →
  m ∈ getLegalMoves gameState (currentPlayer gameState) →
  onGridMove m ∧ leavesOrigin m ∧ applies gameState m ∧
  history (executeMove myColor now gameState m)
  = (history gameState ++ [m])%list.
Proof.
  intros Hwin Hm.
  destruct (legal_move_applies gameState m Hwin Hm) as (Hgrid & Hleave & Happ).
  split_and!; try done.
  destruct Happ as [_ Happ]. unfold executeMove. rewrite Hwin.
  destruct (mtype m) as [|from].
  - destruct Happ as [idx ->]. unfold landPiece. cbv zeta.
    by destruct (checkWin _ _).
  - destruct Happ as [piece ->]. unfold landPiece. cbv zeta.
    by destruct (checkWin _ _).
Qed.

(** ** The simulated and the authoritative transition *)

(** Reading the cell just written: the written value on a square of the
    board, nothing off it. *)
Lemma getCell_setCell_same (b : Board) pos v :
  getCell (setCell b pos v) pos
  = match b !! r pos with
    | Some row => if decide (c pos < length row) then v else None
    | None => None
    end.
Proof.
  unfold getCell, setCell. destruct (b !! r pos) as [row|] eqn:Hrow.
  - rewrite list_lookup_insert_eq by by eapply lookup_lt_Some.
    case_decide as Hc.
    + by rewrite list_lookup_insert_eq.
    + rewrite list_insert_ge by lia. by rewrite lookup_ge_None_2 by lia.
  - by rewrite Hrow.
Qed.

Lemma getCell_setCell_kind (b : Board) pos pos' v v' :
  cellKind v = cellKind v' →
  cellKind (getCell (setCell b pos v) pos')
  = cellKind (getCell (setCell b pos v') pos').
Proof.
  intros Hkind. destruct (decide (pos = pos')) as [<-|Hne];
    [|by rewrite !getCell_setCell_ne].
  rewrite !getCell_setCell_same. destruct (b !! r pos); [|done].
  by case_decide.
Qed.

(** [checkWin] looks at the colour of the occupants only. *)
Lemma checkWin_kinds (b1 b2 : Board) col :
  (∀ pos, cellKind (getCell b1 pos) = cellKind (getCell b2 pos)) →
  checkWin b1 col = checkWin b2 col.
Proof.
  intros Hkinds. unfold checkWin.
  assert (∀ line, forallb (ownedBy b1 col) line = forallb (ownedBy b2 col) line)
    as Hline.
  { intros line. induction line as [|pos line IH]; simpl; [done|].
    rewrite IH. f_equal. unfold ownedBy. specialize (Hkinds pos).
    destruct (getCell b1 pos) as [p1|], (getCell b2 pos) as [p2|];
      simpl in Hkinds; try discriminate; [|done].
    injection Hkinds as Hcol _. by rewrite Hcol. }
  induction winLines as [|line lines IH]; simpl; [done|].
  by rewrite Hline, IH.
Qed.

Lemma simulateMove_executeMove_kinds (myColor : option Color) (now : N)
    (gameState : GameState) (m : Move) :
  applies gameState m →
  (mtype m = place → getCell (board gameState) (to m) = None) →
  let sim := simulateMove gameState m in
  let next := executeMove myColor now gameState m in
  hands sim = hands next ∧
  (∀ pos, cellKind (getCell (board sim) pos)
          = cellKind (getCell (board next) pos)) ∧
  (∀ from, mtype m = move from → board sim = board next).
Proof.
  intros [Hwin Happ] Hempty sim next.
  subst sim next. unfold simulateMove, executeMove. rewrite Hwin.
  destruct (mtype m) as [|from] eqn:Hm.
  - destruct Happ as [idx Hidx]. rewrite Hidx. simpl.
    rewrite hands_landPiece, board_landPiece, Hempty by done.
    split_and!; [done| |done].
    intros pos. apply getCell_setCell_kind. reflexivity.
  - destruct Happ as [piece Hpiece]. rewrite Hpiece. simpl.
    rewrite hands_landPiece, board_landPiece.
    split_and!; [by destruct (getCell (setCell _ _ _) _)|done|done].
Qed.

(** X6. On an applied move that does not place a piece on an occupied
    square (so on every legal move) the simulated transition of the search
    computes what the authoritative one does: the same hands, the same
    occupant on every square up to the identity of a placed piece (the same
    board for a relocation), hence the same winning lines, and the same
    player to move unless the mover has won. *)
Theorem simulateMove_matches_executeMove (myColor : option Color) (now : N)
    (gameState : GameState) (m : Move) :
  applies gameState m →
  (mtype m = place → getCell (board gameState) (to m) = None) →
  let sim := simulateMove gameState m in
  let next := executeMove myColor now gameState m in
  hands sim = hands next ∧
  (∀ pos, cellKind (getCell (board sim) pos)
          = cellKind (getCell (board next) pos)) ∧
  (∀ from, mtype m = move from → board sim = board next) ∧
  (∀ col, checkWin (board sim) col = checkWin (board next) col) ∧
  (checkWin (board next) (currentPlayer gameState) = None →
   currentPlayer sim = currentPlayer next).
Proof.
  intros Happ Hempty sim next.
  destruct (simulateMove_executeMove_kinds myColor now gameState m Happ Hempty)
    as (Hhands & Hkinds & Hboard).
  destruct Happ as [Hwin Happ].
  split_and!; try done.
  - intros col. by apply checkWin_kinds.
  - intros Hnone.
    assert (currentPlayer sim = otherColor (currentPlayer gameState)) as ->.
    { subst sim. unfold simulateMove. by destruct (mtype m). }
    subst next. unfold executeMove in *. rewrite Hwin in *.
    destruct (mtype m) as [|from].
    + destruct Happ as [idx Hidx]. rewrite Hidx in *.
      match goal with
      | |- context [landPiece ?a ?b ?c ?d ?e ?f] =>
          destruct (landPiece_repetition a b c d e f) as [Hno _]
      end.
      by destruct (Hno Hnone) as (-> & _).
    + destruct Happ as [piece Hpiece]. rewrite Hpiece in *.
      match goal with
      | |- context [landPiece ?a ?b ?c ?d ?e ?f] =>
          destruct (landPiece_repetition a b c d e f) as [Hno _]
      end.
      by destruct (Hno Hnone) as (-> & _).
Qed.

(** ** What [executeMove] keeps *)

Lemma landPiece_frame myColor prev m newBoard newHands activePiece :
  history (landPiece myColor prev m newBoard newHands activePiece)
  = (history prev ++ [m])%list ∧
  gameMode (landPiece myColor prev m newBoard newHands activePiece)
  = gameMode prev ∧
  difficulty (landPiece myColor prev m newBoard newHands activePiece)
  = difficulty prev.
Proof. unfold landPiece. cbv zeta. by destruct (checkWin _ _). Qed.

Lemma executeMove_applied (myColor : option Color) (now : N)
    (prev : GameState) (m : Move) :
  applies prev m →
  history (executeMove myColor now prev m) = (history prev ++ [m])%list ∧
  executeMove myColor now prev m ≠ prev.
Proof.
  intros [Hwin Happ].
  assert (history (executeMove myColor now prev m)
          = (history prev ++ [m])%list) as Hhist.
  { unfold executeMove. rewrite Hwin.
    destruct (mtype m) as [|from].
    - destruct Happ as [idx ->]. apply landPiece_frame.
    - destruct Happ as [piece ->]. apply landPiece_frame. }
  split; [done|]. intros Heq. rewrite Heq in Hhist.
  apply (f_equal length) in Hhist. rewrite length_app in Hhist.
  simpl in Hhist. lia.
Qed.

(** X7. [executeMove] returns the state it was given exactly when the move
    is not applied: the game is over, the placed kind is not in the mover's
    hand, or the origin square is empty.  An applied move is appended to
    the history; the mode and the difficulty never change; and once the
    game is over no sequence of moves changes the state any more. *)
Theorem executeMove_unchanged_iff (myColor : option Color) (now : N)
    (prev : GameState) (m : Move) :
  (executeMove myColor now prev m = prev ↔ ¬ applies prev m) ∧
  (applies prev m →
   history (executeMove myColor now prev m) = (history prev ++ [m])%list) ∧
  gameMode (executeMove myColor now prev m) = gameMode prev ∧
  difficulty (executeMove myColor now prev m) = difficulty prev ∧
  (is_Some (winner prev) →
   ∀ moves, foldl (executeMove myColor now) prev moves = prev).
Proof.
  split_and!; [|apply executeMove_applied| | |].
  - split.
    + intros Heq Happ. by apply (executeMove_applied myColor now) in Happ as [_ ?].
    + intros Hnot. by destruct (executeMove_cases myColor now prev m).
  - unfold executeMove. destruct (winner prev); [done|].
    destruct (mtype m) as [|from].
    + destruct (indexOf _ _); [apply landPiece_frame|done].
    + destruct (getCell _ from); [apply landPiece_frame|done].
  - unfold executeMove. destruct (winner prev); [done|].
    destruct (mtype m) as [|from].
    + destruct (indexOf _ _); [apply landPiece_frame|done].
    + destruct (getCell _ from); [apply landPiece_frame|done].
  - intros [w Hw] moves. induction moves as [|m' moves IH]; simpl; [done|].
    unfold executeMove at 2. by rewrite Hw.
Qed.

(** ** Invariants of a game *)

(** X8. In every state of a game: while there is no winner there is no
    winning line and the player who moved last holds no line; when a
    colour has won, it is the player to move (the turn was not passed) and
    the winning line is the line [checkWin] finds for it on the board, all
    of whose squares it holds; after a draw there is no winning line. *)
Theorem reachable_winner_consistent (s : GameState) :
  reachable s →
  (winner s = None →
   winningLine s = None ∧
   checkWin (board s) (otherColor (currentPlayer s)) = None) ∧
  (∀ w, winner s = Some (Won w) →
        currentPlayer s = w ∧
        winningLine s = checkWin (board s) w ∧
        ∃ line, winningLine s = Some line ∧ line ∈ winLines ∧
                lineWonBy (board s) w line) ∧
  (winner s = Some draw → winningLine s = None).
Proof.
  induction 1 as [mode diff fp|myColor now prev m Hreach IH Hgrid].
  - split_and!; [|done|done]. intros _. by destruct fp.
  - destruct (executeMove_cases myColor now prev m) as [->|[Hwin Happ]];
      [done|].
    unfold executeMove. rewrite Hwin.
    assert (∀ nb nh ap,
              let next := landPiece myColor prev m nb nh ap in
              (winner next = None →
               winningLine next = None ∧
               checkWin (board next) (otherColor (currentPlayer next)) = None) ∧
              (∀ w, winner next = Some (Won w) →
                    currentPlayer next = w ∧
                    winningLine next = checkWin (board next) w ∧
                    ∃ line, winningLine next = Some line ∧ line ∈ winLines ∧
                            lineWonBy (board next) w line) ∧
              (winner next = Some draw → winningLine next = None)) as Hland.
    { intros nb nh ap next.
      destruct (landPiece_repetition myColor prev m nb nh ap) as [Hno Hyes].
      fold next in Hno, Hyes.
      destruct (checkWin (board next) (currentPlayer prev)) as [line|]
        eqn:Hline.
      - destruct (Hyes line eq_refl) as (Hw & Hwl & Hcur & _).
        rewrite Hw. split_and!; [done| |done].
        intros w [= <-]. split_and!; [done|congruence|].
        exists line. split; [done|].
        unfold checkWin in Hline. apply find_first in Hline
          as (i & Hi & Hown & _).
        split; [by eapply list_elem_of_lookup_2|by apply forallb_ownedBy].
      - destruct (Hno eq_refl) as (Hcur & _ & Hdraw & Hnone & Hwl).
        split_and!.
        + intros _. split; [done|]. rewrite Hcur.
          by destruct (currentPlayer prev).
        + intros w Hw. exfalso.
          destruct (decide (3 ≤ default 0
                      (positionCounts prev
                         !! serializeState (board next) (hands next)
                              (currentPlayer next) (pawnDirections next)) + 1))
            as [Hge|Hlt].
          * apply Hdraw in Hge. congruence.
          * assert (winner next = None) by (apply Hnone; lia). congruence.
        + done. }
    destruct (mtype m) as [|from].
    + destruct Happ as [idx ->]. apply Hland.
    + destruct Happ as [piece ->]. apply Hland.
Qed.

(** X9. In every state of a game each colour's pawn direction is [1] or
    [-1]. *)
Theorem reachable_unitDirs (s : GameState) :
  reachable s → unitDirs (pawnDirections s).
Proof.
  induction 1 as [mode diff fp|myColor now prev m Hreach IH Hgrid].
  - split; [by right|by left].
  - destruct (executeMove_cases myColor now prev m) as [->|Happ]; [done|].
    rewrite (pawnDirections_executeMove _ _ _ _ Happ).
    destruct (activeType prev m) as [[]|]; try done. cbv zeta.
    destruct IH as [Hw Hb]. unfold unitDirs.
    repeat case_bool_decide; destruct (currentPlayer prev); simpl; auto.
Qed.

(** ** The evaluator from the two sides *)

Lemma sumZ_cons x l : sumZ (x :: l) = (x + sumZ l)%Z.
Proof.
  unfold sumZ. simpl.
  cut (∀ acc, foldl Z.add acc l = (acc + foldl Z.add 0 l)%Z).
  { intros H. rewrite H. lia. }
  induction l as [|y l IH]; intros acc; simpl; [lia|].
  rewrite IH, (IH (0 + y)%Z). lia.
Qed.

Lemma sumZ_plus {A} (f g : A → Z) (l : list A) :
  (sumZ (f <$> l) + sumZ (g <$> l))%Z = sumZ ((λ x, f x + g x)%Z <$> l).
Proof.
  induction l as [|x l IH]; [done|]. rewrite !fmap_cons, !sumZ_cons. lia.
Qed.

Lemma sumZ_zero {A} (f : A → Z) (l : list A) :
  (∀ x, f x = 0%Z) → sumZ (f <$> l) = 0%Z.
Proof.
  intros Hf. induction l as [|x l IH]; [done|].
  rewrite fmap_cons, sumZ_cons, Hf, IH. lia.
Qed.

Lemma sumZ_indicator {A} (P : A → bool) (k : Z) (l : list A) :
  sumZ ((λ x, if P x then k else 0%Z) <$> l)
  = (k * Z.of_nat (length (filter (λ x, P x = true) l)))%Z.
Proof.
  induction l as [|x l IH]; [simpl; unfold sumZ; simpl; lia|].
  rewrite fmap_cons, sumZ_cons, IH.
  destruct (P x) eqn:HP.
  - rewrite filter_cons_True by done. simpl length. lia.
  - rewrite filter_cons_False by congruence. lia.
Qed.

(** Seen from the other colour the two counters of a line are swapped. *)
Lemma countLine_otherColor (b : Board) (aiColor : Color) line :
  countLine b (otherColor aiColor) line
  = (snd (countLine b aiColor line), fst (countLine b aiColor line)).
Proof.
  unfold countLine.
  cut (∀ mine theirs,
         foldl (λ '(mine, theirs) pos,
                  match getCell b pos with
                  | Some p =>
                      if bool_decide (color p = otherColor aiColor)
                      then (S mine, theirs) else (mine, S theirs)
                  | None => (mine, theirs)
                  end) (theirs, mine) line
         = (snd (foldl (λ '(mine, theirs) pos,
                          match getCell b pos with
                          | Some p =>
                              if bool_decide (color p = aiColor)
                              then (S mine, theirs) else (mine, S theirs)
                          | None => (mine, theirs)
                          end) (mine, theirs) line),
            fst (foldl (λ '(mine, theirs) pos,
                          match getCell b pos with
                          | Some p =>
                              if bool_decide (color p = aiColor)
                              then (S mine, theirs) else (mine, S theirs)
                          | None => (mine, theirs)
                          end) (mine, theirs) line))).
  { intros H. apply (H 0 0). }
  induction line as [|pos line IH]; intros mine theirs; simpl; [done|].
  destruct (getCell b pos) as [p|]; [|apply IH].
  destruct (color p), aiColor; simpl; apply IH.
Qed.

Lemma lineScore_both_sides (b : Board) (aiColor : Color) line :
  (lineScore b aiColor line + lineScore b (otherColor aiColor) line)%Z
  = if threeAlone b line then (-500)%Z else 0%Z.
Proof.
  unfold lineScore, threeAlone. rewrite countLine_otherColor.
  assert (countLine b white line
          = match aiColor with
            | white => countLine b aiColor line
            | black => (snd (countLine b aiColor line),
                        fst (countLine b aiColor line))
            end) as ->.
  { destruct aiColor; [done|]. exact (countLine_otherColor b black line). }
  destruct (countLine b aiColor line) as [mine theirs]. simpl.
  change (SCORES.THREE_IN_ROW * 3 / 2)%Z with 1500%Z.
  unfold SCORES.THREE_IN_ROW, SCORES.TWO_IN_ROW.
  destruct aiColor; repeat case_bool_decide; lia.
Qed.

Lemma squareScore_both_sides (b : Board) (aiColor : Color) pos :
  (squareScore b aiColor pos + squareScore b (otherColor aiColor) pos)%Z = 0%Z.
Proof.
  unfold squareScore. destruct (getCell b pos) as [p|]; [|done].
  destruct (color p), aiColor; simpl; lia.
Qed.

(** X10. The heuristic is not zero-sum: the scores of a position from the
    two perspectives add up to −500 for every line on which one colour has
    three pieces and the other none (worth 1000 to its holder and −1500 to
    the other side), and to nothing else. *)
Theorem heuristic_both_sides (b : Board) (h : Hands) (aiColor : Color) :
  (heuristic b h aiColor + heuristic b h (otherColor aiColor))%Z
  = (-500 * Z.of_nat (length (filter (λ line, threeAlone b line = true)
                                getLines)))%Z.
Proof.
  unfold heuristic. cbv zeta.
  assert (otherColor (otherColor aiColor) = aiColor) as ->
    by by destruct aiColor.
  pose proof (sumZ_plus (lineScore b aiColor)
                (lineScore b (otherColor aiColor)) getLines) as Hlines.
  pose proof (sumZ_plus (squareScore b aiColor)
                (squareScore b (otherColor aiColor)) squares) as Hsquares.
  rewrite (sumZ_zero (λ x, (squareScore b aiColor x
                             + squareScore b (otherColor aiColor) x)%Z) squares)
    in Hsquares by (intros; apply squareScore_both_sides).
  assert (sumZ ((λ x, (lineScore b aiColor x
                       + lineScore b (otherColor aiColor) x)%Z) <$> getLines)
          = (-500 * Z.of_nat (length (filter (λ line, threeAlone b line = true)
                                        getLines)))%Z) as Hthree.
  { rewrite <- (sumZ_indicator (threeAlone b)). f_equal.
    apply list_fmap_ext. intros _ line _. apply lineScore_both_sides. }
  rewrite Hthree in Hlines. lia.
Qed.

(** ** The opponent *)

Lemma randomIndex_lt rnd len :
  rnum rnd < rden rnd → 0 < len → randomIndex rnd len < len.
Proof.
  intros Hrnd Hlen. unfold randomIndex.
  apply Nat.Div0.div_lt_upper_bound. nia.
Qed.

(** What the scan of a line returns: the number of the opponent's pieces
    on it and, if any square of it is empty, one such square. *)
Lemma scanLine_spec (b : Board) (opponent : Color) line :
  fst (scanLine b opponent line)
  = length (filter (λ pos, ownedBy b opponent pos = true) line) ∧
  (∀ pos, snd (scanLine b opponent line) = Some pos →
          pos ∈ line ∧ getCell b pos = None) ∧
  (snd (scanLine b opponent line) = None →
   ∀ pos, pos ∈ line → getCell b pos ≠ None).
Proof.
  unfold scanLine.
  cut (∀ n e,
         (∀ pos, e = Some pos → getCell b pos = None) →
         let res := foldl (λ '(oppCount, emptyPos) pos,
                             match getCell b pos with
                             | Some p =>
                                 if bool_decide (color p = opponent)
                                 then (S oppCount, emptyPos)
                                 else (oppCount, emptyPos)
                             | None => (oppCount, Some pos)
                             end) (n, e) line in
         fst res
         = n + length (filter (λ pos, ownedBy b opponent pos = true) line) ∧
         (∀ pos, snd res = Some pos →
                 (pos ∈ line ∨ e = Some pos) ∧ getCell b pos = None) ∧
         (snd res = None →
          e = None ∧ ∀ pos, pos ∈ line → getCell b pos ≠ None)).
  { intros H. destruct (H 0 None ltac:(done)) as (Hn & He & Hnone).
    split_and!; [done| |].
    - intros pos Hpos. destruct (He pos Hpos) as [[?|?] ?]; done.
    - intros Hres. by destruct (Hnone Hres). }
  induction line as [|pos line IH]; intros n e He; simpl.
  - split_and!; [lia| |].
    + intros pos Hpos. split; [by right|by apply He].
    + intros ->. split; [done|]. by intros pos ?%elem_of_nil.
  - unfold ownedBy at 2. destruct (getCell b pos) as [p|] eqn:Hcell.
    + case_bool_decide as Hcol.
      * rewrite filter_cons_True
          by (unfold ownedBy; rewrite Hcell; by apply bool_decide_eq_true).
        destruct (IH (S n) e He) as (Hn & Hsome & Hnone).
        split_and!; [rewrite Hn; simpl length; by rewrite Nat.add_succ_r| |].
        -- intros q Hq. destruct (Hsome q Hq) as [[?|?] ?];
             (split; [|done]); [left; by right|by right].
        -- intros Hres. destruct (Hnone Hres) as [-> Hall].
           split; [done|]. intros q [->|Hq]%elem_of_cons; [congruence|auto].
      * rewrite filter_cons_False
          by (unfold ownedBy; rewrite Hcell;
              by rewrite bool_decide_eq_false_2).
        destruct (IH n e He) as (Hn & Hsome & Hnone).
        split_and!; [done| |].
        -- intros q Hq. destruct (Hsome q Hq) as [[?|?] ?];
             (split; [|done]); [left; by right|by right].
        -- intros Hres. destruct (Hnone Hres) as [-> Hall].
           split; [done|]. intros q [->|Hq]%elem_of_cons; [congruence|auto].
    + rewrite filter_cons_False by (unfold ownedBy; by rewrite Hcell).
      destruct (IH n (Some pos)) as (Hn & Hsome & Hnone).
      { by intros ? [= <-]. }
      split_and!; [done| |].
      * intros q Hq. destruct (Hsome q Hq) as [[?|[= <-]] ?];
          (split; [|done]); left; [by right|by left].
      * intros Hres. by destruct (Hnone Hres).
Qed.

Lemma blockThreat_Some (b : Board) (opponent : Color)
    (moves : list Move) (lines : list (list Position)) (m : Move) :
  blockThreat b opponent moves lines = Some m →
  ∃ blockMove line,
    blockMove ∈ moves ∧ line ∈ lines ∧
    m = withFeedback blockMove
          ("CPU (Medium): Blocking threat at " +:+ squareName (to blockMove)) ∧
    to m ∈ line ∧ getCell b (to m) = None ∧
    length (filter (λ pos, ownedBy b opponent pos = true) line) = 3.
Proof.
  induction lines as [|line lines IH]; simpl; [done|].
  destruct (scanLine b opponent line) as [n e] eqn:Hscan.
  pose proof (scanLine_spec b opponent line) as (Hn & He & _).
  rewrite Hscan in Hn, He. simpl in Hn, He.
  assert (blockThreat b opponent moves lines = Some m →
          ∃ blockMove line0,
            blockMove ∈ moves ∧ line0 ∈ line :: lines ∧
            m = withFeedback blockMove
                  ("CPU (Medium): Blocking threat at "
                   +:+ squareName (to blockMove)) ∧
            to m ∈ line0 ∧ getCell b (to m) = None ∧
            length (filter (λ pos, ownedBy b opponent pos = true) line0) = 3)
    as Hrest.
  { intros (bm & l0 & ? & ? & ?)%IH. exists bm, l0. split_and!; try tauto.
    by right. }
  destruct n as [|[|[|[|n]]]]; try done.
  destruct e as [emptyPos|]; [|done].
  destruct (find _ moves) as [blockMove|] eqn:Hfind; [|done].
  intros [= <-]. apply find_some in Hfind as [Hin Hto].
  apply andb_true_iff in Hto
    as [Hr%bool_decide_eq_true Hc%bool_decide_eq_true].
  assert (to blockMove = emptyPos) as Hpos.
  { destruct (to blockMove), emptyPos; simpl in *; congruence. }
  destruct (He emptyPos eq_refl) as [Hline Hempty].
  exists blockMove, line. rewrite <- Hpos in *. simpl.
  split_and!; try done; [by apply list_elem_of_In|left].
Qed.

(** A line of four squares, three of them the opponent's, has at most one
    empty square. *)
Lemma line_one_empty (b : Board) (opponent : Color) (line : list Position)
    (e1 e2 : Position) :
  NoDup line → length line = 4 →
  length (filter (λ pos, ownedBy b opponent pos = true) line) = 3 →
  e1 ∈ line → e2 ∈ line → getCell b e1 = None → getCell b e2 = None →
  e1 = e2.
Proof.
  intros Hnd Hlen Hthree H1 H2 Hc1 Hc2.
  destruct (decide (e1 = e2)) as [|Hne]; [done|exfalso].
  set (owned := filter (λ pos, ownedBy b opponent pos = true) line) in *.
  assert (∀ e, getCell b e = None → e ∉ owned) as Hnot.
  { intros e He [Hown _]%list_elem_of_filter. unfold ownedBy in Hown.
    by rewrite He in Hown. }
  assert (NoDup (e1 :: e2 :: owned)) as Hnd'.
  { apply NoDup_cons. split.
    - intros [->|Hin]%elem_of_cons; [done|]. by apply (Hnot e1).
    - apply NoDup_cons. split; [by apply Hnot|]. by apply NoDup_filter. }
  assert (e1 :: e2 :: owned ⊆+ line) as Hsub.
  { apply NoDup_submseteq; [done|].
    intros x [->|[->|Hin%list_elem_of_filter]%elem_of_cons]%elem_of_cons;
      tauto. }
  apply submseteq_length in Hsub. simpl in Hsub. lia.
Qed.

Lemma blockThreat_None (b : Board) (opponent : Color)
    (moves : list Move) (lines : list (list Position)) :
  Forall (λ line, NoDup line ∧ length line = 4) lines →
  blockThreat b opponent moves lines = None →
  ∀ blockMove line,
    blockMove ∈ moves → line ∈ lines →
    ¬ (to blockMove ∈ line ∧ getCell b (to blockMove) = None ∧
       length (filter (λ pos, ownedBy b opponent pos = true) line) = 3).
Proof.
  induction 1 as [|line lines [Hnd Hlen] _ IH]; simpl.
  { by intros _ ? ? _ ?%elem_of_nil. }
  intros Hnone blockMove line0 Hin Hline0 (Hto & Hempty & Hthree).
  destruct (scanLine b opponent line) as [n e] eqn:Hscan.
  pose proof (scanLine_spec b opponent line) as (Hn & He & Hnoempty).
  rewrite Hscan in Hn, He, Hnoempty. simpl in Hn, He, Hnoempty.
  apply elem_of_cons in Hline0 as [->|Hline0]; last first.
  { eapply IH; [|done..].
    destruct n as [|[|[|[|n]]]]; try done.
    destruct e as [emptyPos|]; [|done]. by destruct (find _ moves). }
  rewrite <- Hn in Hthree. subst n.
  destruct e as [emptyPos|]; last first.
  { by apply (Hnoempty eq_refl (to blockMove)). }
  destruct (He emptyPos eq_refl) as [Hline Hcell].
  assert (to blockMove = emptyPos) as Hpos.
  { eapply line_one_empty; done. }
  destruct (find _ moves) as [found|] eqn:Hfind; [done|].
  pose proof (proj1 (find_none _ _) Hfind blockMove Hin) as Hno.
  simpl in Hno. rewrite Hpos in Hno.
  by rewrite !bool_decide_eq_true_2 in Hno.
Qed.

Lemma getLines_shape : Forall (λ line, NoDup line ∧ length line = 4) getLines.
Proof.
  apply Forall_forall. intros line Hin.
  assert (bool_decide (NoDup line) && bool_decide (length line = 4) = true)
    as Hok.
  { revert line Hin. apply Forall_forall.
    apply (bool_decide_unpack
             (Forall (λ line, bool_decide (NoDup line)
                              && bool_decide (length line = 4) = true)
                getLines)).
    vm_compute. reflexivity. }
  apply andb_true_iff in Hok
    as [?%bool_decide_eq_true ?%bool_decide_eq_true]. done.
Qed.

(** X11. The blocking step of the medium strategy.  When it answers, the
    answer is one of the moves it was given, landing on the empty square of
    a line of [getLines] on which the opponent has three pieces, and its
    explanation names that square.  When it does not answer, none of the
    moves lands on the empty square of such a line: no threat that can be
    blocked is overlooked. *)
Theorem blockThreat_blocks (b : Board) (opponent : Color)
    (moves : list Move) :
  let threat (line : list Position) (pos : Position) :=
    pos ∈ line ∧ getCell b pos = None ∧
    length (filter (λ pos, ownedBy b opponent pos = true) line) = 3 in
  (∀ m, blockThreat b opponent moves getLines = Some m →
        ∃ blockMove line,
          blockMove ∈ moves ∧ line ∈ getLines ∧ threat line (to m) ∧
          m = withFeedback blockMove
                ("CPU (Medium): Blocking threat at "
                 +:+ squareName (to blockMove))) ∧
  (blockThreat b opponent moves getLines = None →
   ∀ blockMove line,
     blockMove ∈ moves → line ∈ getLines → ¬ threat line (to blockMove)).
Proof.
  intros threat. split.
  - intros m (bm & line & ? & ? & ? & ? & ? & ?)%blockThreat_Some.
    by exists bm, line.
  - intros Hnone. by apply blockThreat_None; [apply getLines_shape|].
Qed.

Lemma hardChoice_elem (value : Move → num) (moves : list Move) bm bv :
  hardChoice value moves = Some (bm, bv) → bm ∈ moves.
Proof.
  unfold hardChoice. destruct moves as [|first rest]; [done|].
  pose proof (bestOf_spec value (first :: rest) first NegInf) as Hspec.
  destruct (bestOf value (first :: rest) (first, NegInf)) as [bm' bv'].
  intros [= -> ->]. destruct Hspec as (_ & _ & [[= -> ->]|[Hin _]]);
    [left|done].
Qed.

Lemma hardFeedback_nonempty (m : Move) : hardFeedback m ≠ "".
Proof.
  unfold hardFeedback. destruct (mtype m); autorewrite with strapp; discriminate.
Qed.

(** The answer of the opponent is a legal move carrying an explanation. *)
Lemma getCpuMove_feedback (rnd : Random) (gameState : GameState) (m : Move) :
  getCpuMove rnd gameState = Some m →
  ∃ legal feedback,
    legal ∈ getLegalMoves gameState (currentPlayer gameState) ∧
    m = withFeedback legal feedback ∧ feedback ≠ "".
Proof.
  unfold getCpuMove.
  set (moves := getLegalMoves gameState (currentPlayer gameState)).
  destruct moves as [|m0 rest] eqn:Hmoves; [done|]. rewrite <- Hmoves.
  destruct (difficulty gameState).
  - destruct (moves !! randomIndex rnd (length moves)) as [m1|] eqn:Hidx;
      [|done].
    intros [= <-]. eexists m1, _. split_and!; [|done..].
    by eapply list_elem_of_lookup_2.
  - destruct (find _ moves) as [m1|] eqn:Hwin.
    { intros [= <-]. apply find_some in Hwin as [Hin _].
      eexists m1, _. split_and!; [by apply list_elem_of_In|done..]. }
    destruct (blockThreat _ _ moves getLines) as [m1|] eqn:Hblock.
    { intros [= <-]. apply blockThreat_Some in Hblock
        as (bm & line & Hin & _ & -> & _).
      eexists bm, _. split_and!; [done..|].
      autorewrite with strapp. discriminate. }
    destruct (filter _ moves) as [|cm caps] eqn:Hcap.
    + destruct (moves !! randomIndex rnd (length moves)) as [m1|] eqn:Hidx;
        [|done].
      intros [= <-]. eexists m1, _. split_and!; [|done..].
      by eapply list_elem_of_lookup_2.
    + intros [= <-]. eexists cm, _. split_and!; [|done..].
      assert (cm ∈ filter (λ m, isCapture gameState m = true) moves) as Hin
        by (rewrite Hcap; left).
      by apply list_elem_of_filter in Hin as [_ Hin].
  - destruct (hardChoice _ moves) as [[bm bv]|] eqn:Hhard; [|done].
    intros [= <-]. eexists bm, _. split_and!; [|done|].
    + by eapply hardChoice_elem.
    + apply hardFeedback_nonempty.
Qed.

(** With a legal move at hand and a draw in [0, 1) the opponent answers. *)
Lemma getCpuMove_is_Some (rnd : Random) (gameState : GameState) :
  rnum rnd < rden rnd →
  getLegalMoves gameState (currentPlayer gameState) ≠ [] →
  is_Some (getCpuMove rnd gameState).
Proof.
  intros Hrnd Hmoves. unfold getCpuMove.
  set (moves := getLegalMoves gameState (currentPlayer gameState)) in *.
  destruct moves as [|m0 rest] eqn:Heq; [done|]. rewrite <- Heq.
  assert (0 < length moves) as Hlen by (rewrite Heq; simpl; lia).
  pose proof (randomIndex_lt rnd (length moves) Hrnd Hlen) as Hidx.
  apply lookup_lt_is_Some in Hidx as [m1 Hm1].
  destruct (difficulty gameState).
  - by rewrite Hm1.
  - destruct (find _ moves); [done|].
    destruct (blockThreat _ _ moves getLines); [done|].
    destruct (filter _ moves); [by rewrite Hm1|done].
  - unfold hardChoice. by rewrite Heq.
Qed.

(** X12. Whatever the difficulty and the random draw, the opponent answers
    with one of the legal moves of the player to move, to which it only
    adds its explanation; it answers nothing exactly when there is no legal
    move.  While the game lasts its answer is a move that [executeMove]
    really applies. *)
Theorem getCpuMove_legal (rnd : Random) (gameState : GameState) :
  rnum rnd < rden rnd →
  let moves := getLegalMoves gameState (currentPlayer gameState) in
  (getCpuMove rnd gameState = None ↔ moves = []) ∧
  (∀ m, getCpuMove rnd gameState = Some m →
        ∃ legal feedback,
          legal ∈ moves ∧ m = withFeedback legal feedback ∧
          (winner gameState = None → onGridMove m ∧ applies gameState m)).
Proof.
  intros Hrnd moves. split.
  - split.
    + intros Hnone. destruct (decide (moves = [])) as [|Hne]; [done|].
      destruct (getCpuMove_is_Some rnd gameState Hrnd Hne) as [m Hm].
      congruence.
    + intros Hnil. unfold getCpuMove. fold moves. by rewrite Hnil.
  - intros m (legal & feedback & Hin & -> & _)%getCpuMove_feedback.
    exists legal, feedback. split_and!; [done..|]. intros Hwin.
    destruct (legal_move_applies gameState legal Hwin Hin)
      as (Hgrid & _ & Happ).
    split; [exact Hgrid|exact Happ].
Qed.

Lemma landPiece_winner myColor prev m newBoard newHands activePiece :
  let next := landPiece myColor prev m newBoard newHands activePiece in
  winner next = Some (Won (currentPlayer prev)) ↔
  is_Some (checkWin (board next) (currentPlayer prev)).
Proof.
  unfold landPiece. simpl.
  destruct (checkWin (setCell newBoard (to m) (Some activePiece))
              (currentPlayer prev)) as [line|] eqn:Hline; simpl; rewrite Hline.
  - split; [intros _; by eexists|done].
  - split; [|by intros [? ?]]. case_bool_decide; discriminate.
Qed.

Lemma executeMove_winner myColor now prev m :
  applies prev m →
  let next := executeMove myColor now prev m in
  winner next = Some (Won (currentPlayer prev)) ↔
  is_Some (checkWin (board next) (currentPlayer prev)).
Proof.
  intros [Hwin Happ]. unfold executeMove. rewrite Hwin.
  destruct (mtype m) as [|from].
  - destruct Happ as [idx ->]. apply landPiece_winner.
  - destruct Happ as [piece ->]. apply landPiece_winner.
Qed.

Lemma executeMove_withFeedback myColor now prev m feedback :
  let next := executeMove myColor now prev m in
  let next' := executeMove myColor now prev (withFeedback m feedback) in
  board next' = board next ∧ hands next' = hands next ∧
  pawnDirections next' = pawnDirections next ∧
  currentPlayer next' = currentPlayer next ∧ winner next' = winner next ∧
  winningLine next' = winningLine next ∧
  positionCounts next' = positionCounts next.
Proof.
  unfold executeMove. destruct (winner prev); [done|].
  change (mtype (withFeedback m feedback)) with (mtype m).
  change (pieceType (withFeedback m feedback)) with (pieceType m).
  change (pieceId (withFeedback m feedback)) with (pieceId m).
  destruct (mtype m) as [|from].
  - destruct (indexOf _ _); [|done]. unfold landPiece.
    change (to (withFeedback m feedback)) with (to m).
    by destruct (checkWin _ _).
  - destruct (getCell _ from); [|done]. unfold landPiece.
    change (to (withFeedback m feedback)) with (to m).
    by destruct (checkWin _ _).
Qed.

Lemma legal_placement_empty (gameState : GameState) (col : Color) (m : Move) :
  m ∈ getLegalMoves gameState col → mtype m = place →
  getCell (board gameState) (to m) = None.
Proof.
  intros Hin Hplace. apply elem_of_getLegalMoves in Hin
    as [(pt & dest & -> & _ & _ & Hempty)|(piece & from & dest & -> & _)].
  - exact Hempty.
  - discriminate Hplace.
Qed.

Lemma legal_move_wins myColor now (gameState : GameState) (m : Move) :
  winner gameState = None →
  m ∈ getLegalMoves gameState (currentPlayer gameState) →
  winner (executeMove myColor now gameState m)
  = Some (Won (currentPlayer gameState)) ↔
  is_Some (checkWin (board (simulateMove gameState m))
             (currentPlayer gameState)).
Proof.
  intros Hwin Hin.
  destruct (legal_move_applies gameState m Hwin Hin) as (_ & _ & Happ).
  rewrite (executeMove_winner myColor now gameState _ Happ).
  destruct (simulateMove_executeMove_kinds myColor now gameState m Happ
              (legal_placement_empty gameState _ m Hin))
    as (_ & Hkinds & _).
  by rewrite (checkWin_kinds _ _ _ Hkinds).
Qed.

Lemma blocking_not_finishing (square : string) :
  "CPU (Medium): Blocking threat at " +:+ square
  ≠ "CPU (Medium): Finishing the line for a win!".
Proof. autorewrite with strapp. discriminate. Qed.

(** X13. On Medium, whenever some legal move would win the game for the
    player to move once [executeMove] has applied it, the opponent answers
    the first such move of the list of legal moves, announced as finishing
    the line, and [executeMove] declares the mover the winner; an answer
    announced so is given in no other case. *)
Theorem medium_takes_win (rnd : Random) (myColor : option Color) (now : N)
    (gameState : GameState) :
  difficulty gameState = medium →
  winner gameState = None →
  let player := currentPlayer gameState in
  let finishing := "CPU (Medium): Finishing the line for a win!" in
  (∃ m, m ∈ getLegalMoves gameState player ∧
        winner (executeMove myColor now gameState m) = Some (Won player)) ↔
  (∃ m, getCpuMove rnd gameState = Some m ∧
        logicFeedback m = Some finishing ∧
        winner (executeMove myColor now gameState m) = Some (Won player)).
Proof.
  intros Hdiff Hwin player finishing.
  set (wins := λ m, bool_decide
                      (is_Some (checkWin (board (simulateMove gameState m))
                                  player))).
  assert (∀ m, m ∈ getLegalMoves gameState player →
            winner (executeMove myColor now gameState m) = Some (Won player)
            ↔ wins m = true) as Hwins.
  { intros m Hin. unfold wins. rewrite bool_decide_eq_true.
    by apply legal_move_wins. }
  assert (∀ m1, find wins (getLegalMoves gameState player) = Some m1 →
            getCpuMove rnd gameState = Some (withFeedback m1 finishing) ∧
            winner (executeMove myColor now gameState (withFeedback m1 finishing))
            = Some (Won player) ∧
            m1 ∈ getLegalMoves gameState player ∧
            winner (executeMove myColor now gameState m1) = Some (Won player))
    as Hfound.
  { intros m1 Hfind. pose proof Hfind as Hfind'.
    apply find_some in Hfind' as [Hin1 Hm1]. apply list_elem_of_In in Hin1.
    apply Hwins in Hm1; [|done].
    destruct (executeMove_withFeedback myColor now gameState m1 finishing)
      as (_ & _ & _ & _ & Hw & _).
    split_and!; [|by rewrite Hw|done..].
    unfold getCpuMove. fold player. rewrite Hdiff.
    destruct (getLegalMoves gameState player) as [|m0 rest] eqn:Hmoves;
      [by apply elem_of_nil in Hin1|].
    fold wins. by rewrite Hfind. }
  split.
  - intros (m & Hin & Hm).
    destruct (find wins (getLegalMoves gameState player)) as [m1|] eqn:Hfind.
    + exists (withFeedback m1 finishing).
      destruct (Hfound m1 eq_refl) as (Hcpu & Hw & _). done.
    + apply Hwins in Hm; [|done].
      pose proof (proj1 (find_none _ _) Hfind m Hin) as Hno. congruence.
  - intros (m & Hcpu & Hfeedback & Hm).
    destruct (find wins (getLegalMoves gameState player)) as [m1|] eqn:Hfind.
    + destruct (Hfound m1 eq_refl) as (_ & _ & Hin1 & Hw1). by exists m1.
    + exfalso. revert Hcpu. unfold getCpuMove. fold player. rewrite Hdiff.
      destruct (getLegalMoves gameState player) as [|m0 rest] eqn:Hmoves;
        [done|].
      fold wins. rewrite Hfind.
      destruct (blockThreat _ _ _ getLines) as [bm|] eqn:Hblock.
      { intros [= ->]. apply blockThreat_Some in Hblock
          as (bm & line & _ & _ & -> & _).
        simpl in Hfeedback. apply (inj Some) in Hfeedback.
        by apply blocking_not_finishing in Hfeedback. }
      destruct (filter _ _) as [|cm caps].
      * destruct (_ !! _); [|done]. intros [= <-]. discriminate Hfeedback.
      * intros [= <-]. discriminate Hfeedback.
Qed.

(** ** The handlers of the component *)

Lemma returnsAtOnce_false (myColor : option Color) (gameState : GameState)
    (col : Color) :
  returnsAtOnce myColor gameState col = false →
  winner gameState = None ∧
  (gameMode gameState = ai → col = white) ∧
  (gameMode gameState = online → myColor = Some col).
Proof.
  unfold returnsAtOnce. destruct (winner gameState); [done|].
  destruct (gameMode gameState); intros H; split_and!; try done.
  - intros _. apply bool_decide_eq_false in H. by destruct col.
  - intros _. apply bool_decide_eq_false in H.
    destruct (decide (myColor = Some col)); [done|]. by destruct H.
Qed.

Lemma isPosEqual_true (p1 p2 : Position) : isPosEqual p1 p2 = true ↔ p1 = p2.
Proof.
  unfold isPosEqual. rewrite andb_true_iff, !bool_decide_eq_true.
  destruct p1, p2; simpl. split; [intros [-> ->]; done|by intros [= -> ->]].
Qed.

Lemma indexOf_is_Some (x : PieceType) (l : list PieceType) :
  is_Some (indexOf x l) ↔ x ∈ l.
Proof.
  induction l as [|y l IH]; simpl.
  - split; [by intros [? ?]|by intros ?%elem_of_nil].
  - case_bool_decide as Hy.
    + subst. split; [left|by eexists].
    + rewrite elem_of_cons, <- IH, fmap_is_Some.
      split; [by right|intros [?|?]; [congruence|done]].
Qed.

(** What a click on a square does to the game state: nothing, or a legal
    move of the player to move (without its [captured] entry, which
    [executeMove] does not read). *)
Lemma handleCellClick_state (myColor : option Color) (now : N)
    (gameState : GameState) (selectedPiece : option Selected)
    (pos : Position) :
  wfBoard (board gameState) → onGrid pos →
  selectionOk gameState selectedPiece →
  let ui := handleCellClick myColor now gameState selectedPiece pos in
  ui.1 = gameState ∨
  ui.2 = None ∧
  returnsAtOnce myColor gameState (currentPlayer gameState) = false ∧
  ∃ legal,
    legal ∈ getLegalMoves gameState (currentPlayer gameState) ∧
    ui.1 = executeMove myColor now gameState
             (mkMove (mtype legal) (pieceType legal) (to legal)
                None None None).
Proof.
  intros Hwf Hpos Hsel. unfold handleCellClick.
  destruct (returnsAtOnce _ _ _) eqn:Hguard; [by left|].
  destruct selectedPiece as [sel|]; last first.
  { destruct (getCell _ pos) as [p|]; [|by left].
    case_bool_decide; by left. }
  destruct (match sfrom sel with
            | Some from => isPosEqual from pos
            | None => false
            end) eqn:Hsame; [by left|].
  destruct (getCell (board gameState) pos) as [p|] eqn:Hclicked.
  - case_bool_decide as Hown; [by left|].
    destruct (sfrom sel) as [from|] eqn:Hfrom; [|by left].
    destruct (Hsel sel from eq_refl Hfrom) as (piece & Hpiece & Hcol & Hty).
    rewrite Hpiece.
    destruct (isValid _) eqn:Hvalid; [|by left].
    right. split_and!; [done..|].
    exists (boardMove piece from pos (Some p)). split.
    + apply elem_of_getLegalMoves. right. exists piece, from, pos.
      rewrite Hclicked. split_and!; try done.
      * by eapply getCell_Some_onGrid.
      * intros ->. by rewrite (proj2 (isPosEqual_true pos pos)) in Hsame.
    + simpl. by rewrite Hty.
  - destruct (sfrom sel) as [from|] eqn:Hfrom.
    + destruct (Hsel sel from eq_refl Hfrom) as (piece & Hpiece & Hcol & Hty).
      rewrite Hpiece.
      destruct (isValid _) eqn:Hvalid; [|by left].
      right. split_and!; [done..|].
      exists (boardMove piece from pos None). split.
      * apply elem_of_getLegalMoves. right. exists piece, from, pos.
        rewrite Hclicked. split_and!; try done.
        -- by eapply getCell_Some_onGrid.
        -- intros ->. by rewrite (proj2 (isPosEqual_true pos pos)) in Hsame.
      * simpl. by rewrite Hty.
    + destruct (decide (stype sel ∈ handOf (hands gameState)
                                        (currentPlayer gameState)))
        as [Hin|Hnotin].
      * right. split_and!; [done..|].
        exists (placeMove (stype sel) pos). split; [|done].
        apply elem_of_getLegalMoves. left. by exists (stype sel), pos.
      * left. simpl. unfold executeMove.
        destruct (winner gameState); [done|]. simpl.
        destruct (indexOf _ _) as [idx|] eqn:Hidx; [|done].
        destruct Hnotin. apply indexOf_is_Some. by eexists.
Qed.

Lemma handleCellClick_selectionOk (myColor : option Color) (now : N)
    (gameState : GameState) (selectedPiece : option Selected)
    (pos : Position) :
  selectionOk gameState selectedPiece →
  let ui := handleCellClick myColor now gameState selectedPiece pos in
  selectionOk ui.1 ui.2.
Proof.
  intros Hsel.
  assert (∀ s, selectionOk s None) as Hnone by (by intros s ? ? [=]).
  assert (∀ p, getCell (board gameState) pos = Some p →
               color p = currentPlayer gameState →
               selectionOk gameState (Some (mkSelected (type p) (Some pos))))
    as Hnew.
  { intros p Hp Hcol sel from [= <-] [= <-]. by exists p. }
  unfold handleCellClick.
  destruct (returnsAtOnce _ _ _); [done|].
  destruct selectedPiece as [sel|]; last first.
  { destruct (getCell _ pos) as [p|] eqn:Hp; [|done].
    case_bool_decide; [by apply Hnew|done]. }
  destruct (match sfrom sel with
            | Some from => isPosEqual from pos
            | None => false
            end); [apply Hnone|].
  destruct (getCell (board gameState) pos) as [p|] eqn:Hp.
  - case_bool_decide; [by apply Hnew|].
    destruct (sfrom sel) as [from|]; [|done].
    destruct (getCell _ from); [|done].
    destruct (isValid _); [apply Hnone|done].
  - destruct (sfrom sel) as [from|]; [|apply Hnone].
    destruct (getCell _ from); [|done].
    destruct (isValid _); [apply Hnone|done].
Qed.

(** X14. A click on a square of the board never does anything to the game
    but play a legal move of the player to move: given a selection that
    names a piece of the player to move, either the game state is left as
    it is, or the turn is this side's, the selection is dropped and the
    new state is what [executeMove] makes of one of the legal moves (less
    its [captured] entry, which [executeMove] does not read).  The new
    selection again names a piece of the player to move. *)
Theorem handleCellClick_plays_legal (myColor : option Color) (now : N)
    (gameState : GameState) (selectedPiece : option Selected)
    (pos : Position) :
  wfBoard (board gameState) → onGrid pos →
  selectionOk gameState selectedPiece →
  let ui := handleCellClick myColor now gameState selectedPiece pos in
  selectionOk ui.1 ui.2 ∧
  (ui.1 = gameState ∨
   ui.2 = None ∧
   returnsAtOnce myColor gameState (currentPlayer gameState) = false ∧
   ∃ legal,
     legal ∈ getLegalMoves gameState (currentPlayer gameState) ∧
     ui.1 = executeMove myColor now gameState
              (mkMove (mtype legal) (pieceType legal) (to legal)
                 None None None)).
Proof.
  intros Hwf Hpos Hsel. split.
  - by apply handleCellClick_selectionOk.
  - by apply handleCellClick_state.
Qed.

(** X15. The hints of the board agree with the clicks.  When it is this
    side's turn and a piece of the player to move is selected on the
    board, a click on a square changes the game exactly when
    [getValidHint] marks the square; with a kind of the hand selected, a
    click changes the game exactly when the square is empty and the kind
    is in the hand of the player to move. *)
Theorem getValidHint_agrees (myColor : option Color) (now : N)
    (gameState : GameState) (sel : Selected) (pos : Position) :
  returnsAtOnce myColor gameState (currentPlayer gameState) = false →
  selectionOk gameState (Some sel) →
  (handleCellClick myColor now gameState (Some sel) pos).1 ≠ gameState ↔
  match sfrom sel with
  | Some _ => getValidHint gameState (Some sel) pos = true
  | None =>
      getCell (board gameState) pos = None ∧
      stype sel ∈ handOf (hands gameState) (currentPlayer gameState)
  end.
Proof.
  intros Hguard Hsel.
  destruct (returnsAtOnce_false _ _ _ Hguard) as (Hwin & _).
  unfold handleCellClick, getValidHint. rewrite Hguard.
  destruct (sfrom sel) as [from|] eqn:Hfrom.
  - destruct (Hsel sel from eq_refl Hfrom) as (piece & Hpiece & Hcol & Hty).
    rewrite Hpiece.
    assert (∀ p, getCell (board gameState) pos = Some p →
                 color p = currentPlayer gameState →
                 isValid (isValidMove gameState piece from pos) = false)
      as Hown.
    { intros p Hp Hpcol.
      destruct (isValid _) eqn:Hvalid; [|done].
      apply isValidMove_notOwn in Hvalid. destruct (Hvalid p Hp). congruence. }
    destruct (isPosEqual from pos) eqn:Hsame.
    { apply isPosEqual_true in Hsame as <-. simpl.
      rewrite (Hown piece Hpiece Hcol). split; [by intros []|done]. }
    assert ((if isValid (isValidMove gameState piece from pos)
             then (executeMove myColor now gameState
                     (mkMove (move from) (stype sel) pos None None None),
                   @None Selected)
             else (gameState, Some sel)).1 ≠ gameState ↔
            isValid (isValidMove gameState piece from pos) = true) as Hmove.
    { destruct (isValid _); simpl; [|split; [by intros []|done]].
      split; [done|]. intros _.
      apply (executeMove_applied myColor now). split; [done|]. simpl.
      by eexists. }
    destruct (getCell (board gameState) pos) as [p|] eqn:Hp; [|exact Hmove].
    case_bool_decide as Hpcol; [|exact Hmove]. simpl.
    rewrite (Hown p eq_refl Hpcol). split; [by intros []|done].
  - destruct (getCell (board gameState) pos) as [p|] eqn:Hp.
    { assert ((gameState, Some sel).1 = gameState) as Hsame by done.
      case_bool_decide; simpl; (split; [by intros []|by intros [? _]]). }
    simpl. split.
    + intros Hchanged. split; [done|].
      destruct (executeMove_cases myColor now gameState
                  (mkMove place (stype sel) pos None None None))
        as [Heq|[_ Happ]]; [done|].
      simpl in Happ. by apply indexOf_is_Some.
    + intros [_ Hin]. apply (executeMove_applied myColor now).
      split; [done|]. simpl. by apply indexOf_is_Some.
Qed.

Lemma legal_onGridMove (gameState : GameState) (col : Color) (m : Move) :
  m ∈ getLegalMoves gameState col → onGridMove m.
Proof.
  intros [(pt & dest & -> & _ & Hd & _)
         |(piece & from & dest & -> & Hf & Hd & _)]%elem_of_getLegalMoves;
    by split.
Qed.

Lemma handleHandClick_selectionOk (myColor : option Color)
    (gameState : GameState) (selectedPiece : option Selected)
    (pt : PieceType) (col : Color) :
  selectionOk gameState selectedPiece →
  selectionOk gameState (handleHandClick myColor gameState selectedPiece pt col).
Proof.
  intros Hsel. unfold handleHandClick.
  assert (selectionOk gameState None) as Hnone by (by intros ? ? [=]).
  assert (selectionOk gameState (Some (mkSelected pt None))) as Hhand
    by (by intros ? ? [= <-] [=]).
  destruct (returnsAtOnce _ _ _); [done|].
  case_bool_decide; [done|].
  destruct selectedPiece as [sel|]; [|done].
  destruct (sfrom sel); [done|]. by case_bool_decide.
Qed.

Lemma landPiece_status myColor prev m newBoard newHands activePiece feedback :
  logicFeedback m = Some feedback → feedback ≠ "" →
  let next := landPiece myColor prev m newBoard newHands activePiece in
  (winner next = None →
   currentPlayer next = otherColor (currentPlayer prev) ∧
   statusMessage next = feedback) ∧
  (winner next = Some draw →
   currentPlayer next = otherColor (currentPlayer prev) ∧
   statusMessage next = "DRAW: 3-FOLD REPETITION") ∧
  (∀ w, winner next = Some (Won w) →
        w = currentPlayer prev ∧ currentPlayer next = w ∧
        statusMessage next = upperCase w +:+ " WINS!").
Proof.
  intros Hfb Hne. unfold landPiece. cbv zeta.
  destruct (checkWin (setCell newBoard (to m) (Some activePiece))
              (currentPlayer prev)) as [line|]; simpl.
  - split_and!; [done..|]. by intros w [= <-].
  - case_bool_decide; simpl; (split_and!; [done..|done]) || idtac.
    split_and!; [|done..]. intros _. split; [done|].
    rewrite Hfb. simpl. by destruct feedback.
Qed.

(** X16. The computer's turn.  In a game against the computer that is not
    over, with Black to move, a legal move for Black and no run under way,
    one run of the effect applies one of Black's legal moves, carrying the
    opponent's explanation, and drops the selection.  If the game goes on
    it is White's turn and the status message is the explanation; if it
    ends, Black has won or the position was repeated three times, and the
    status message says so. *)
Theorem cpuEffect_moves (rnd : Random) (myColor : option Color) (now : N)
    (gameState : GameState) (selectedPiece : option Selected) :
  rnum rnd < rden rnd →
  currentPlayer gameState = black → gameMode gameState = ai →
  winner gameState = None →
  getLegalMoves gameState black ≠ [] →
  let ui := cpuEffect rnd myColor now false gameState selectedPiece in
  ∃ legal feedback,
    legal ∈ getLegalMoves gameState black ∧
    ui = (executeMove myColor now gameState (withFeedback legal feedback),
          None) ∧
    history ui.1 = (history gameState ++ [withFeedback legal feedback])%list ∧
    match winner ui.1 with
    | None => currentPlayer ui.1 = white ∧ statusMessage ui.1 = feedback
    | Some draw => statusMessage ui.1 = "DRAW: 3-FOLD REPETITION"
    | Some (Won w) => w = black ∧ statusMessage ui.1 = "BLACK WINS!"
    end.
Proof.
  intros Hrnd Hplayer Hmode Hwin Hmoves ui. subst ui. unfold cpuEffect.
  rewrite Hplayer, Hmode, Hwin. rewrite <- Hplayer in Hmoves.
  destruct (getCpuMove_is_Some rnd gameState Hrnd Hmoves) as [m Hm].
  rewrite Hm.
  apply getCpuMove_feedback in Hm as (legal & feedback & Hin & -> & Hne).
  exists legal, feedback. rewrite Hplayer in Hin. split_and!; [done..| |].
  - apply executeMove_applied. rewrite <- Hplayer in Hin.
    by apply legal_move_applies in Hin as (_ & _ & Happ).
  - rewrite <- Hplayer in Hin.
    apply legal_move_applies in Hin as (_ & _ & [_ Happ]); [|done].
    simpl. unfold executeMove. rewrite Hwin.
    change (mtype (withFeedback legal feedback)) with (mtype legal) in *.
    change (pieceType (withFeedback legal feedback)) with (pieceType legal)
      in *.
    destruct (mtype legal) as [|from].
    + destruct Happ as [idx ->].
      match goal with
      | |- context [landPiece ?a ?b ?c ?d ?e ?f] =>
          destruct (landPiece_status a b c d e f feedback eq_refl Hne)
            as (Hnone & Hdraw & Hwon);
          destruct (winner (landPiece a b c d e f)) as [[w|]|]
      end.
      * destruct (Hwon w eq_refl) as (-> & _ & ->). by rewrite Hplayer.
      * by destruct Hdraw.
      * destruct Hnone as [-> ->]; [done|]. by rewrite Hplayer.
    + destruct Happ as [piece ->].
      match goal with
      | |- context [landPiece ?a ?b ?c ?d ?e ?f] =>
          destruct (landPiece_status a b c d e f feedback eq_refl Hne)
            as (Hnone & Hdraw & Hwon);
          destruct (winner (landPiece a b c d e f)) as [[w|]|]
      end.
      * destruct (Hwon w eq_refl) as (-> & _ & ->). by rewrite Hplayer.
      * by destruct Hdraw.
      * destruct Hnone as [-> ->]; [done|]. by rewrite Hplayer.
Qed.

(** ** Room on the board *)

(** A full board of the grid's shape holds sixteen kinds. *)
Lemma full_board_kinds (b : Board) :
  wfBoard b →
  (∀ pos, onGrid pos → is_Some (getCell b pos)) →
  length (boardKinds b) = 16.
Proof.
  intros Hwf Hfull.
  destruct (wfBoard_cells b Hwf)
    as (a0 & a1 & a2 & a3 & b0 & b1 & b2 & b3 & c0 & c1 & c2 & c3
        & d0 & d1 & d2 & d3 & ->).
  assert (∀ i j, i < 4 → j < 4 → onGrid (mkPos i j)) as Hgrid
    by (by intros i j ? ?; split).
  destruct (Hfull (mkPos 0 0)) as [? H]; [apply Hgrid; lia|];
    cbv in H; subst.
  destruct (Hfull (mkPos 0 1)) as [? H]; [apply Hgrid; lia|];
    cbv in H; subst.
  destruct (Hfull (mkPos 0 2)) as [? H]; [apply Hgrid; lia|];
    cbv in H; subst.
  destruct (Hfull (mkPos 0 3)) as [? H]; [apply Hgrid; lia|];
    cbv in H; subst.
  destruct (Hfull (mkPos 1 0)) as [? H]; [apply Hgrid; lia|];
    cbv in H; subst.
  destruct (Hfull (mkPos 1 1)) as [? H]; [apply Hgrid; lia|];
    cbv in H; subst.
  destruct (Hfull (mkPos 1 2)) as [? H]; [apply Hgrid; lia|];
    cbv in H; subst.
  destruct (Hfull (mkPos 1 3)) as [? H]; [apply Hgrid; lia|];
    cbv in H; subst.
  destruct (Hfull (mkPos 2 0)) as [? H]; [apply Hgrid; lia|];
    cbv in H; subst.
  destruct (Hfull (mkPos 2 1)) as [? H]; [apply Hgrid; lia|];
    cbv in H; subst.
  destruct (Hfull (mkPos 2 2)) as [? H]; [apply Hgrid; lia|];
    cbv in H; subst.
  destruct (Hfull (mkPos 2 3)) as [? H]; [apply Hgrid; lia|];
    cbv in H; subst.
  destruct (Hfull (mkPos 3 0)) as [? H]; [apply Hgrid; lia|];
    cbv in H; subst.
  destruct (Hfull (mkPos 3 1)) as [? H]; [apply Hgrid; lia|];
    cbv in H; subst.
  destruct (Hfull (mkPos 3 2)) as [? H]; [apply Hgrid; lia|];
    cbv in H; subst.
  destruct (Hfull (mkPos 3 3)) as [? H]; [apply Hgrid; lia|];
    cbv in H; subst.
  reflexivity.
Qed.

Lemma empty_square (b : Board) :
  wfBoard b → length (boardKinds b) < 16 →
  ∃ pos, onGrid pos ∧ getCell b pos = None.
Proof.
  intros Hwf Hlen.
  assert (∀ pos, {is_Some (getCell b pos)} + {getCell b pos = None}) as Hdec.
  { intros pos. destruct (getCell b pos); [left; by eexists|by right]. }
  destruct (Forall_Exists_dec (λ pos, is_Some (getCell b pos))
              (λ pos, getCell b pos = None) Hdec squares) as [Hall|Hex].
  - rewrite (full_board_kinds b Hwf) in Hlen; [lia|].
    intros pos Hpos%onGrid_cases. by eapply Forall_forall in Hall.
  - apply Exists_exists in Hex as (pos & Hin & Hnone).
    exists pos. split; [by apply squares_onGrid|done].
Qed.

(** X17. In every state of a game there is an empty square on the board,
    so that a player who holds a kind in the hand has a legal move, the
    placement of that kind on that square; with such a player to move the
    opponent always answers. *)
Theorem reachable_hand_can_place (s : GameState) (col : Color) :
  reachable s → handOf (hands s) col ≠ [] →
  (∃ pt dest, onGrid dest ∧ getCell (board s) dest = None ∧
              placeMove pt dest ∈ getLegalMoves s col) ∧
  (∀ rnd, rnum rnd < rden rnd → col = currentPlayer s →
          is_Some (getCpuMove rnd s)).
Proof.
  intros Hreach Hhand.
  assert (∃ pt dest, onGrid dest ∧ getCell (board s) dest = None ∧
                     placeMove pt dest ∈ getLegalMoves s col) as Hplace.
  { destruct (reachable_kinds s Hreach) as [Hwf Hkinds].
    apply Permutation_length in Hkinds. unfold allKinds in Hkinds.
    rewrite !length_app in Hkinds. simpl in Hkinds.
    destruct (empty_square (board s) Hwf) as (dest & Hdest & Hnone); [lia|].
    destruct (handOf (hands s) col) as [|pt hand] eqn:Hh; [done|].
    exists pt, dest. split_and!; [done..|].
    apply elem_of_getLegalMoves. left. exists pt, dest.
    rewrite Hh. split_and!; [done|left|done..]. }
  split; [done|]. intros rnd Hrnd ->.
  apply getCpuMove_is_Some; [done|].
  destruct Hplace as (pt & dest & _ & _ & Hin). intros Hnil.
  rewrite Hnil in Hin. by apply elem_of_nil in Hin.
Qed.

(** ** Play by the rules *)

Lemma bind_insert {A B} (f : A → list B) (l : list A) i old v :
  l !! i = Some old →
  ((<[i := v]> l ≫= f) ++ f old ≡ₚ (l ≫= f) ++ f v)%list.
Proof.
  revert i. induction l as [|x l IH]; intros [|i] Hi; simplify_eq/=.
  - rewrite <- !(assoc_L (++)).
    rewrite (Permutation_app_comm (l ≫= f) (f old)).
    rewrite (Permutation_app_comm (l ≫= f) (f v)).
    by rewrite (Permutation_app_swap_app (f v)).
  - rewrite <- !(assoc_L (++)). f_equiv. by apply IH.
Qed.

Lemma boardKindsOf_setCell (col : Color) (b : Board) pos v :
  wfBoard b → onGrid pos →
  (boardKindsOf col (setCell b pos v) ++ cellKindsOf col (getCell b pos)
   ≡ₚ boardKindsOf col b ++ cellKindsOf col v)%list.
Proof.
  intros [Hlen Hrows] [Hr Hc]. rewrite <- Hlen in Hr.
  apply lookup_lt_is_Some in Hr as [row Hrow].
  eapply Forall_lookup_1 in Hrows as Hrowlen; [|done]. simpl in Hrowlen.
  rewrite <- Hrowlen in Hc. apply lookup_lt_is_Some in Hc as [old Hold].
  unfold getCell, setCell, boardKindsOf. rewrite Hrow, Hold.
  pose proof (bind_insert (λ row, row ≫= cellKindsOf col) b (r pos) row
                (<[c pos := v]> row) Hrow) as Houter.
  pose proof (bind_insert (cellKindsOf col) row (c pos) old v Hold) as Hinner.
  simpl in Houter.
  apply (Permutation_app_inv_r (row ≫= cellKindsOf col)).
  rewrite <- (assoc_L (++)).
  rewrite (Permutation_app_comm (cellKindsOf col old)).
  rewrite (assoc_L (++)), Houter.
  rewrite <- !(assoc_L (++)). f_equiv.
  rewrite Hinner. apply Permutation_app_comm.
Qed.

Lemma played_reachable (s : GameState) : played s → reachable s.
Proof.
  induction 1 as [mode diff fp|myColor now prev m _ IH Hlegal].
  - apply reachable_reset.
  - apply reachable_move; [done|].
    destruct Hlegal as (legal & Hin%legal_onGridMove & Hty & _ & Hto).
    unfold onGridMove in *. by rewrite Hty, Hto.
Qed.

(** One legal move keeps the kinds of each colour. *)
Lemma executeMove_kindsOf (myColor : option Color) (now : N)
    (prev : GameState) (m : Move) (col : Color) :
  wfBoard (board prev) → legalFor prev m →
  kindsOf col (executeMove myColor now prev m) ≡ₚ kindsOf col prev.
Proof.
  intros Hwf (legal & Hin & Hty & Hpt & Hto).
  unfold executeMove. destruct (winner prev); [done|].
  apply elem_of_getLegalMoves in Hin
    as [(pt & dest & -> & Hhand & Hdest & Hnone)
       |(piece & from & dest & -> & Hfrom & Hdest & Hne & Hpiece & Hcol
         & Hvalid)];
    simpl in Hty, Hpt, Hto; rewrite Hty.
  - apply indexOf_is_Some in Hhand as [idx Hidx].
    rewrite Hpt, Hidx. unfold kindsOf.
    rewrite board_landPiece, hands_landPiece, Hto, Hnone.
    pose proof (boardKindsOf_setCell col (board prev) dest
                  (Some {| type := pt; color := currentPlayer prev;
                           id := match truthy (pieceId m) with
                                 | Some i => i
                                 | None =>
                                     colorStr (currentPlayer prev) +:+ "-"
                                     +:+ typeStr pt +:+ "-" +:+ pretty now
                                 end |}) Hwf Hdest) as Hboard.
    rewrite Hnone, app_nil_r in Hboard. rewrite Hboard. simpl.
    case_bool_decide as Hc.
    + subst col. rewrite handOf_setHand_eq.
      rewrite (indexOf_delete _ _ _ Hidx) at 2.
      rewrite <- (assoc_L (++)). done.
    + rewrite handOf_setHand_ne by done. by rewrite app_nil_r.
  - rewrite Hpiece. unfold kindsOf.
    rewrite board_landPiece, hands_landPiece, Hto.
    rewrite getCell_setCell_ne by done.
    pose proof (boardKindsOf_setCell col (board prev) from None Hwf Hfrom)
      as Hlift.
    rewrite Hpiece in Hlift.
    pose proof (boardKindsOf_setCell col (setCell (board prev) from None) dest
                  (Some piece) (setCell_wf _ _ _ Hwf) Hdest) as Hland.
    rewrite getCell_setCell_ne in Hland by done.
    rewrite Hlift in Hland. clear Hlift.
    change (cellKindsOf col None) with (@nil PieceType) in Hland.
    rewrite app_nil_r in Hland. rewrite <- Hland. clear Hland.
    apply isValidMove_notOwn in Hvalid.
    destruct (getCell (board prev) dest) as [t|] eqn:Htarget.
    + specialize (Hvalid t Htarget). rewrite Hcol in Hvalid.
      simpl. case_bool_decide as Ht.
      * assert (col = otherColor (currentPlayer prev)) as ->.
        { subst col. destruct (color t), (currentPlayer prev); done. }
        rewrite handOf_setHand_eq.
        rewrite <- !(assoc_L (++)). f_equiv. apply Permutation_app_comm.
      * assert (col = currentPlayer prev) as ->.
        { destruct (color t), (currentPlayer prev), col; done. }
        rewrite handOf_setHand_ne by apply otherColor_ne.
        by rewrite app_nil_r.
    + simpl. by rewrite app_nil_r.
Qed.

(** X18. In a game played by the rules each colour keeps its four kinds:
    the kinds of its pieces on the board together with the kinds in its
    hand are, at every moment, one Pawn, one Rook, one Knight and one
    Bishop.  (A captured piece goes back to the hand of its own colour.) *)
Theorem played_kindsOf (s : GameState) (col : Color) :
  played s → kindsOf col s ≡ₚ INITIAL_HAND.
Proof.
  induction 1 as [mode diff fp|myColor now prev m Hplayed IH Hlegal].
  - by destruct col.
  - rewrite executeMove_kindsOf; [done| |done].
    by apply played_reachable, reachable_kinds in Hplayed as [? _].
Qed.

(** X19. In every state the component reaches from a fresh game, through
    clicks on squares of the board, clicks on the hands and runs of the
    computer's effect, the game is a game played by the rules, and a square
    that is selected holds a piece of the player to move, of the selected
    kind. *)
Theorem uiReachable_invariant (ui : GameState * option Selected) :
  uiReachable ui → played ui.1 ∧ selectionOk ui.1 ui.2.
Proof.
  induction 1 as [mode diff firstPlayer
                 |myColor now [gameState selectedPiece] e _ [IHp IHs] He].
  - split; [apply played_reset|by intros ? ? [=]].
  - simpl in IHp, IHs. destruct e as [pos|pt col|rnd isAiThinking]; simpl.
    + destruct (reachable_kinds gameState (played_reachable _ IHp))
        as [Hwf _].
      split; [|by apply handleCellClick_selectionOk].
      destruct (handleCellClick_state myColor now gameState selectedPiece pos
                  Hwf He IHs) as [->|(_ & _ & legal & Hin & ->)]; [done|].
      apply played_move; [done|]. by exists legal.
    + split; [done|]. by apply handleHandClick_selectionOk.
    + unfold cpuEffect.
      destruct (currentPlayer gameState) eqn:Hplayer; [done|].
      destruct (gameMode gameState); try done.
      destruct (winner gameState); [done|].
      destruct isAiThinking; [done|].
      destruct (getCpuMove rnd gameState) as [m|] eqn:Hcpu; [|done].
      simpl. split; [|by intros ? ? [=]].
      apply getCpuMove_feedback in Hcpu as (legal & feedback & Hin & -> & _).
      apply played_move; [done|]. by exists legal.
Qed.

(** ** Two clicks make a move *)

Lemma executeMove_place_board (myColor : option Color) (now : N)
    (gameState : GameState) (m : Move) :
  wfBoard (board gameState) → onGrid (to m) →
  applies gameState m → mtype m = place →
  ∃ p, getCell (board (executeMove myColor now gameState m)) (to m) = Some p ∧
       type p = pieceType m ∧ color p = currentPlayer gameState.
Proof.
  intros Hwf Hto [Hwin Happ] Hty. unfold executeMove. rewrite Hwin.
  rewrite Hty in *. destruct Happ as [idx ->].
  rewrite board_landPiece, getCell_setCell_eq by done. by eexists.
Qed.

Lemma executeMove_move_board (myColor : option Color) (now : N)
    (gameState : GameState) (m : Move) (from : Position) (piece : Piece) :
  wfBoard (board gameState) → onGrid (to m) → from ≠ to m →
  winner gameState = None → mtype m = move from →
  getCell (board gameState) from = Some piece →
  getCell (board (executeMove myColor now gameState m)) (to m) = Some piece ∧
  getCell (board (executeMove myColor now gameState m)) from = None.
Proof.
  intros Hwf Hto Hne Hwin Hty Hpiece. unfold executeMove.
  rewrite Hwin, Hty, Hpiece, board_landPiece.
  split.
  - by rewrite getCell_setCell_eq by (by try apply setCell_wf).
  - rewrite getCell_setCell_ne by done.
    rewrite getCell_setCell_eq; [done..|]. by eapply getCell_Some_onGrid.
Qed.

(** X20. Two clicks make a move.  When it is this side's turn: a click on
    a kind of the hand of the player to move followed by a click on an
    empty square of the board places a piece of that kind and of the
    player's colour there; a click on a piece of the player to move
    followed by a click on a square the piece may go to moves that very
    piece there and leaves its square empty.  Either way the selection is
    dropped.  (The first click must not be the one that undoes the
    selection already made.) *)
Theorem two_clicks_play (myColor : option Color) (now : N)
    (gameState : GameState) (selectedPiece : option Selected) :
  wfBoard (board gameState) →
  returnsAtOnce myColor gameState (currentPlayer gameState) = false →
  let player := currentPlayer gameState in
  (∀ pt dest,
     pt ∈ handOf (hands gameState) player → onGrid dest →
     getCell (board gameState) dest = None →
     selectedPiece ≠ Some (mkSelected pt None) →
     let picked := handleHandClick myColor gameState selectedPiece pt player in
     let ui := handleCellClick myColor now gameState picked dest in
     ui = (executeMove myColor now gameState (placeMove pt dest), None) ∧
     ∃ p, getCell (board ui.1) dest = Some p ∧ type p = pt ∧
          color p = player) ∧
  (∀ piece from dest,
     getCell (board gameState) from = Some piece → color piece = player →
     isValid (isValidMove gameState piece from dest) = true →
     (∀ sel, selectedPiece = Some sel → sfrom sel ≠ Some from) →
     let picked := handleCellClick myColor now gameState selectedPiece from in
     let ui := handleCellClick myColor now picked.1 picked.2 dest in
     picked = (gameState, Some (mkSelected (type piece) (Some from))) ∧
     ui = (executeMove myColor now gameState
             (mkMove (move from) (type piece) dest None None None), None) ∧
     getCell (board ui.1) dest = Some piece ∧
     getCell (board ui.1) from = None).
Proof.
  intros Hwf Hguard player. subst player.
  destruct (returnsAtOnce_false _ _ _ Hguard) as (Hwin & _). split.
  - intros pt dest Hin Hdest Hempty Hsel picked ui.
    assert (picked = Some (mkSelected pt None)) as Hpicked.
    { subst picked. unfold handleHandClick. rewrite Hguard.
      rewrite bool_decide_eq_false_2 by (by intros []).
      destruct selectedPiece as [[t [f|]]|]; simpl; try done.
      case_bool_decide; [by subst|done]. }
    assert (ui = (executeMove myColor now gameState (placeMove pt dest), None))
      as Hui.
    { subst ui. rewrite Hpicked. unfold handleCellClick.
      rewrite Hguard, Hempty. done. }
    split; [done|]. rewrite Hui. simpl.
    apply (executeMove_place_board myColor now gameState (placeMove pt dest));
      try done.
    split; [done|]. simpl. by apply indexOf_is_Some.
  - intros piece from dest Hpiece Hcol Hvalid Hsel picked ui.
    assert (picked = (gameState, Some (mkSelected (type piece) (Some from))))
      as Hpicked.
    { subst picked. unfold handleCellClick. rewrite Hguard, Hpiece.
      rewrite bool_decide_eq_true_2 by done.
      destruct selectedPiece as [sel|]; [|done].
      destruct (sfrom sel) as [f|] eqn:Hf; [|done].
      destruct (isPosEqual f from) eqn:Hsame; [|done].
      apply isPosEqual_true in Hsame as ->. by destruct (Hsel sel eq_refl). }
    pose proof (isValidMove_notOwn _ _ _ _ Hvalid) as Hnot.
    assert (from ≠ dest) as Hne.
    { intros <-. by destruct (Hnot piece Hpiece). }
    assert (ui = (executeMove myColor now gameState
                    (mkMove (move from) (type piece) dest None None None),
                  None)) as Hui.
    { subst ui. rewrite Hpicked. simpl. unfold handleCellClick.
      rewrite Hguard. simpl.
      destruct (isPosEqual from dest) eqn:Hsame.
      { by apply isPosEqual_true in Hsame. }
      rewrite Hpiece, Hvalid.
      destruct (getCell (board gameState) dest) as [t|] eqn:Ht; [|done].
      rewrite bool_decide_eq_false_2; [done|].
      intros Htcol. destruct (Hnot t Ht). by rewrite Htcol. }
    split_and!; [done..| |]; rewrite Hui; simpl.
    + eapply (executeMove_move_board myColor now gameState
                (mkMove (move from) (type piece) dest None None None));
        try done.
      by apply isValidMove_onGrid in Hvalid.
    + eapply (executeMove_move_board myColor now gameState
                (mkMove (move from) (type piece) dest None None None));
        try done.
      by apply isValidMove_onGrid in Hvalid.
Qed.

(** ** The priorities of the medium strategy, and the easy one *)

(** X21. The medium strategy captures or draws a move at random only when
    nothing better is at hand.  If its answer is announced as a capture,
    the answer relocates a piece onto an occupied square; if it is
    announced as a strategic move, no legal move captures.  In both cases
    no legal move of the player to move wins the game at once, and none
    lands on the empty square of a line on which the opponent has three
    pieces. *)
Theorem medium_priorities (rnd : Random) (myColor : option Color) (now : N)
    (gameState : GameState) (m : Move) :
  difficulty gameState = medium → winner gameState = None →
  getCpuMove rnd gameState = Some m →
  let player := currentPlayer gameState in
  let moves := getLegalMoves gameState player in
  let capturing := "CPU (Medium): Prioritizing piece capture." in
  let quiet := "CPU (Medium): No immediate threats, moving strategically." in
  logicFeedback m = Some capturing ∨ logicFeedback m = Some quiet →
  (logicFeedback m = Some capturing → isCapture gameState m = true) ∧
  (logicFeedback m = Some quiet →
   ∀ legal, legal ∈ moves → isCapture gameState legal = false) ∧
  (∀ legal, legal ∈ moves →
     winner (executeMove myColor now gameState legal) ≠ Some (Won player) ∧
     ∀ line, line ∈ getLines →
       ¬ (to legal ∈ line ∧ getCell (board gameState) (to legal) = None ∧
          length (filter (λ pos, ownedBy (board gameState)
                                   (otherColor player) pos = true) line)
          = 3)).
Proof.
  intros Hdiff Hwin Hcpu player moves capturing quiet Hfeedback.
  revert Hcpu. unfold getCpuMove. fold player. fold moves. rewrite Hdiff.
  destruct moves as [|m0 rest] eqn:Hmoves; [done|]. rewrite <- Hmoves.
  destruct (find _ moves) as [m1|] eqn:Hfind.
  { intros [= <-]. by destruct Hfeedback. }
  destruct (blockThreat _ _ moves getLines) as [m1|] eqn:Hblock.
  { intros [= <-]. apply blockThreat_Some in Hblock
      as (bm & line & _ & _ & -> & _).
    simpl in Hfeedback. exfalso.
    destruct Hfeedback as [H|H]; apply (inj Some) in H; revert H;
      autorewrite with strapp; discriminate. }
  assert (∀ legal, legal ∈ moves →
            winner (executeMove myColor now gameState legal)
            ≠ Some (Won player) ∧
            ∀ line, line ∈ getLines →
              ¬ (to legal ∈ line ∧
                 getCell (board gameState) (to legal) = None ∧
                 length (filter (λ pos, ownedBy (board gameState)
                                          (otherColor player) pos = true)
                           line) = 3)) as Hbetter.
  { intros legal Hin. split.
    - intros Hwon. apply legal_move_wins in Hwon; [|done|by subst moves].
      pose proof (proj1 (find_none _ _) Hfind legal Hin) as Hno.
      simpl in Hno. by rewrite bool_decide_eq_true_2 in Hno.
    - intros line Hline.
      by apply (blockThreat_None _ _ moves getLines getLines_shape Hblock). }
  destruct (filter _ moves) as [|cm caps] eqn:Hcap.
  - destruct (moves !! _) as [m1|]; [|done]. intros [= <-].
    split_and!; [done| |done].
    intros _ legal Hin. destruct (isCapture gameState legal) eqn:Hc; [|done].
    assert (legal ∈ filter (λ m, isCapture gameState m = true) moves) as Hf
      by by apply list_elem_of_filter.
    rewrite Hcap in Hf. by apply elem_of_nil in Hf.
  - intros [= <-]. split_and!; [|done|done].
    intros _.
    assert (cm ∈ filter (λ m, isCapture gameState m = true) moves) as Hf
      by (rewrite Hcap; left).
    by apply list_elem_of_filter in Hf as [Hf _].
Qed.


(** ** The scores of the search are finite *)

Lemma maxLoop_finite (child : Move → num → num → num) (moves : list Move)
    (alpha beta maxEval : num) :
  (∀ m a b, isFinite (child m a b)) →
  maxEval ≠ PosInf → (moves = [] → isFinite maxEval) →
  isFinite (maxLoop child moves alpha beta maxEval).
Proof.
  intros Hchild. revert alpha maxEval.
  induction moves as [|m rest IH]; intros alpha maxEval Hne Hfin; simpl.
  - by apply Hfin.
  - destruct (Hchild m alpha beta) as [z Hz]. rewrite Hz.
    assert (isFinite (num_max maxEval (Fin z))) as Hmax.
    { unfold num_max. destruct maxEval as [|y|]; simpl; [by eexists| |done].
      case_bool_decide; by eexists. }
    destruct (num_leb beta _); [done|].
    apply IH; [|done]. by destruct Hmax as [? ->].
Qed.

Lemma minLoop_finite (child : Move → num → num → num) (moves : list Move)
    (alpha beta minEval : num) :
  (∀ m a b, isFinite (child m a b)) →
  minEval ≠ NegInf → (moves = [] → isFinite minEval) →
  isFinite (minLoop child moves alpha beta minEval).
Proof.
  intros Hchild. revert beta minEval.
  induction moves as [|m rest IH]; intros beta minEval Hne Hfin; simpl.
  - by apply Hfin.
  - destruct (Hchild m alpha beta) as [z Hz]. rewrite Hz.
    assert (isFinite (num_min minEval (Fin z))) as Hmin.
    { unfold num_min. destruct minEval as [|y|]; simpl; [done| |by eexists].
      case_bool_decide; by eexists. }
    destruct (num_leb _ alpha); [done|].
    apply IH; [|done]. by destruct Hmin as [? ->].
Qed.

(** X23. The search never returns an infinity: whatever the window, the
    depth and the side to move, the score of [minimax] is a number, so
    that on Hard the first legal move always replaces the initial best
    value [-Infinity]. *)
Theorem minimax_finite (gameState : GameState) (depth : nat)
    (alpha beta : num) (isMaximizing : bool) (aiColor : Color) :
  isFinite (minimax gameState depth alpha beta isMaximizing aiColor) ∧
  num_ltb NegInf (minimax gameState depth alpha beta isMaximizing aiColor)
  = true.
Proof.
  assert (isFinite (minimax gameState depth alpha beta isMaximizing aiColor))
    as [z Hz]; [|rewrite Hz; split; [by eexists|done]].
  revert gameState alpha beta isMaximizing.
  induction depth as [|depth IH]; intros gameState alpha beta isMaximizing;
    cbn -[maxLoop minLoop]; [by eexists|].
  destruct (winState _); [by eexists|].
  destruct (getLegalMoves gameState (currentPlayer gameState))
    as [|m rest]; [by eexists|].
  destruct isMaximizing.
  - apply maxLoop_finite; [intros; apply IH|done..].
  - apply minLoop_finite; [intros; apply IH|done..].
Qed.

(** ** The lines of the opponent and the lines of the terminal detector *)

(** X24. The lines the opponent scans, in [evaluateBoard] and when it
    blocks, are the ten lines [checkWin] tests, in another order; so a
    colour has won, for [checkWin], exactly when it holds every square of
    one of the opponent's lines. *)
Theorem getLines_are_the_winning_lines (b : Board) (col : Color) :
  getLines ≡ₚ winLines ∧
  (is_Some (checkWin b col) ↔
   ∃ line, line ∈ getLines ∧ lineWonBy b col line).
Proof.
  assert (getLines ≡ₚ winLines) as Hperm.
  { vm_compute. solve_Permutation. }
  split; [done|]. unfold checkWin. split.
  - intros [line Hline]. apply find_some in Hline as [Hin Hall].
    exists line. split.
    + rewrite Hperm. by apply list_elem_of_In.
    + by apply forallb_ownedBy.
  - intros (line & Hin & Hwon).
    destruct (find _ winLines) as [found|] eqn:Hfind; [by eexists|].
    rewrite Hperm in Hin.
    pose proof (proj1 (find_none _ _) Hfind line Hin) as Hno.
    apply forallb_ownedBy in Hwon. congruence.
Qed.

(** ** The properties on the example positions *)

Lemma wfBoard_rowBoard : wfBoard rowBoard.
Proof. split; [reflexivity|]. repeat constructor. Defined.

(** On [rowBoard] the detector returns White's row and nothing for Black's
    three in a row. *)
Lemma checkWin_correct_witness :
  wfBoard rowBoard ∧
  checkWin rowBoard white
  = Some [mkPos 1 0; mkPos 1 1; mkPos 1 2; mkPos 1 3] ∧
  (checkWin rowBoard black = None ↔
   ∀ line, line ∈ winLines →
           ∃ pos, pos ∈ line ∧
                  ∀ p, getCell rowBoard pos = Some p → color p ≠ black).
Proof.
  split; [exact wfBoard_rowBoard|].
  destruct (checkWin_correct rowBoard white wfBoard_rowBoard)
    as (_ & _ & _ & _ & _ & _ & Hfirst & _).
  destruct (checkWin_correct rowBoard black wfBoard_rowBoard)
    as (_ & _ & _ & _ & _ & _ & _ & _ & _ & Hnone).
  split; [|exact Hnone].
  apply Hfirst. exists 1. split; [reflexivity|]. split.
  - intros pos Hpos. vm_compute in Hpos.
    repeat (apply elem_of_cons in Hpos as [->|Hpos];
            [eexists; split; reflexivity|]).
    by apply elem_of_nil in Hpos.
  - intros j l Hj Hl Hwon. assert (j = 0) as -> by lia.
    injection Hl as <-. destruct (Hwon (mkPos 0 0)) as (p & Hp & _).
    + vm_compute. left.
    + discriminate Hp.
Defined.

(** Two hands that differ only in their order give the same key. *)
Lemma serializeState_eq_iff_witness :
  wfBoard createEmptyBoard ∧
  serializeState createEmptyBoard (mkHands [PAWN; ROOK] [BISHOP]) white
    (mkDirs (-1) 1)
  = serializeState createEmptyBoard (mkHands [ROOK; PAWN] [BISHOP]) white
      (mkDirs (-1) 1).
Proof.
  split; [exact wfBoard_createEmptyBoard|].
  apply (serializeState_eq_iff createEmptyBoard createEmptyBoard _ _ _ _ _ _
           wfBoard_createEmptyBoard wfBoard_createEmptyBoard).
  split; [reflexivity|]. split; [apply perm_swap|]. by repeat split.
Defined.

(** The scenario of the specification: the Rook takes the Bishop, Black's
    hand gains a Bishop and White's hand stays as it was. *)
Lemma capture_goes_to_victims_owner_witness :
  wfBoard (board captureState) ∧
  applies captureState captureMove ∧
  leavesOrigin captureMove ∧
  getCell (board captureState) (to captureMove) = Some capturedBishop ∧
  color capturedBishop = otherColor (currentPlayer captureState) ∧
  handOf (hands (executeMove None 0 captureState captureMove)) black
  = (handOf (hands captureState) black ++ [BISHOP])%list ∧
  handOf (hands (executeMove None 0 captureState captureMove)) white
  = handOf (hands captureState) white.
Proof.
  assert (wfBoard (board captureState)) as Hwf.
  { vm_compute. split; [reflexivity|repeat constructor]. }
  assert (applies captureState captureMove) as Happ.
  { split; [vm_compute; reflexivity|]. vm_compute. by eexists. }
  assert (leavesOrigin captureMove) as Hleave by (vm_compute; discriminate).
  assert (getCell (board captureState) (to captureMove) = Some capturedBishop)
    as Hvictim by (vm_compute; reflexivity).
  assert (color capturedBishop = otherColor (currentPlayer captureState))
    as Hcol by (vm_compute; reflexivity).
  destruct (capture_goes_to_victims_owner None 0 captureState captureMove
              capturedBishop Hwf Happ Hleave Hvictim Hcol) as (Hopp & _ & Hown).
  split; [exact Hwf|].
  split; [exact Happ|]. split; [exact Hleave|]. split; [exact Hvictim|].
  split; [exact Hcol|]. split; [exact Hopp|].
  apply (Hown (mkPos 0 0)). reflexivity.
Defined.

(** The shuffle of the two Rooks: the position comes back for the third
    time and the game is drawn. *)
Lemma repetition_rule_witness :
  wfBoard (board shuffleState) ∧ onGrid (to shuffleMove) ∧
  applies shuffleState shuffleMove ∧
  winner shuffleState = None ∧
  winner (executeMove None 0 shuffleState shuffleMove) = Some draw.
Proof.
  assert (wfBoard (board shuffleState)) as Hwf.
  { vm_compute. split; [reflexivity|repeat constructor]. }
  assert (onGrid (to shuffleMove)) as Hto by (vm_compute; lia).
  assert (applies shuffleState shuffleMove) as Happ.
  { split; [vm_compute; reflexivity|]. vm_compute. by eexists. }
  split; [exact Hwf|]. split; [exact Hto|].
  split; [exact Happ|]. split; [vm_compute; reflexivity|].
  destruct (repetition_rule None 0 shuffleState shuffleMove Hwf Hto Happ)
    as [Hno _].
  destruct Hno as (_ & _ & _ & _ & _ & Hthird & _).
  - vm_compute. reflexivity.
  - apply Hthird. vm_compute. reflexivity.
Defined.

(** The white Pawn steps onto row 0 and White's direction flips. *)
Lemma pawn_direction_rule_witness :
  wfBoard (board pawnEdgeState) ∧ onGrid (to pawnEdgeMove) ∧
  applies pawnEdgeState pawnEdgeMove ∧
  dirOf (pawnDirections (executeMove None 0 pawnEdgeState pawnEdgeMove)) white
  = 1%Z ∧
  dirOf (pawnDirections (executeMove None 0 pawnEdgeState pawnEdgeMove)) black
  = dirOf (pawnDirections pawnEdgeState) black.
Proof.
  assert (wfBoard (board pawnEdgeState)) as Hwf.
  { vm_compute. split; [reflexivity|repeat constructor]. }
  assert (onGrid (to pawnEdgeMove)) as Hto by (vm_compute; lia).
  assert (applies pawnEdgeState pawnEdgeMove) as Happ.
  { split; [vm_compute; reflexivity|]. vm_compute. by eexists. }
  split; [exact Hwf|]. split; [exact Hto|]. split; [exact Happ|].
  destruct (pawn_direction_rule None 0 pawnEdgeState pawnEdgeMove Hwf Hto Happ)
    as (Hopp & Hzero & _).
  split; [|exact Hopp]. apply Hzero; vm_compute; reflexivity.
Defined.

(** C3 as stated fails for placements: White, whose Pawns move towards row
    0, places a Pawn on row 0 and White's direction changes. *)
Lemma placed_pawn_changes_direction :
  applies (resetGame local medium white) (placeMove PAWN (mkPos 0 0)) ∧
  mtype (placeMove PAWN (mkPos 0 0)) = place ∧
  pawnDirections (resetGame local medium white) = mkDirs (-1) 1 ∧
  pawnDirections
    (executeMove None 0 (resetGame local medium white)
       (placeMove PAWN (mkPos 0 0)))
  = mkDirs 1 1.
Proof.
  split; [split|split_and!].
  - vm_compute. reflexivity.
  - vm_compute. by eexists.
  - reflexivity.
  - reflexivity.
  - vm_compute. reflexivity.
Qed.

Lemma reachable_pawnEdgeState : reachable pawnEdgeState.
Proof.
  unfold pawnEdgeState.
  apply reachable_move; [apply reachable_move; [apply reachable_reset|]|];
    (split; [vm_compute; lia|exact I]).
Defined.

(** The eight kinds are all there after two placements. *)
Lemma piece_conservation_witness :
  reachable pawnEdgeState ∧
  length (allKinds pawnEdgeState) = 8 ∧
  allKinds pawnEdgeState ≡ₚ (INITIAL_HAND ++ INITIAL_HAND)%list.
Proof.
  split; [exact reachable_pawnEdgeState|].
  destruct (piece_conservation pawnEdgeState reachable_pawnEdgeState)
    as (_ & Hkinds & Hlen & _).
  split; [exact Hlen|exact Hkinds].
Defined.


(** Against the hard opponent the reply to White's opening is the one the
    exhaustive search of depth 3 picks. *)
Lemma alpha_beta_exact_witness :
  difficulty hardTurnState = hard ∧
  getCpuMove (mkRandom 0 1) hardTurnState
  = (λ '(bestMove, _), withFeedback bestMove (hardFeedback bestMove))
      <$> hardChoice
            (λ m, exhaustiveMinimax (simulateMove hardTurnState m) 3 false
                    (currentPlayer hardTurnState))
            (getLegalMoves hardTurnState (currentPlayer hardTurnState)).
Proof.
  assert (difficulty hardTurnState = hard) as Hhard by (vm_compute; reflexivity).
  split; [exact Hhard|].
  destruct (alpha_beta_exact hardTurnState) as (_ & _ & _ & Hcpu).
  exact (Hcpu (mkRandom 0 1) Hhard).
Defined.

(** The hard opponent answers the same whatever the draw, and so does the
    medium opponent when a capture is at hand. *)
Lemma cpu_choice_determinism_witness :
  difficulty hardTurnState = hard ∧
  getCpuMove (mkRandom 0 1) hardTurnState
  = getCpuMove (mkRandom 1 2) hardTurnState ∧
  difficulty captureState = medium ∧
  mediumDecided captureState ∧
  getCpuMove (mkRandom 0 1) captureState
  = getCpuMove (mkRandom 1 2) captureState.
Proof.
  assert (difficulty hardTurnState = hard) as Hhard by (vm_compute; reflexivity).
  assert (difficulty captureState = medium) as Hmedium
    by (vm_compute; reflexivity).
  assert (mediumDecided captureState) as Hdecided.
  { right. right. vm_compute. discriminate. }
  destruct (cpu_choice_determinism hardTurnState) as (_ & Hh & _).
  destruct (cpu_choice_determinism captureState) as (_ & _ & Hm & _).
  split; [exact Hhard|]. split; [exact (Hh _ _ Hhard)|].
  split; [exact Hmedium|]. split; [exact Hdecided|].
  exact (Hm _ _ Hmedium Hdecided).
Defined.

(** ** The further properties on the example positions *)

Lemma onGrid_mkPos (i j : nat) : i < 4 → j < 4 → onGrid (mkPos i j).
Proof. intros ? ?. by split. Qed.

Lemma placeMove_legalFor (gameState : GameState) (pt : PieceType)
    (dest : Position) :
  pt ∈ handOf (hands gameState) (currentPlayer gameState) →
  onGrid dest → getCell (board gameState) dest = None →
  legalFor gameState (placeMove pt dest).
Proof.
  intros Hin Hdest Hempty. exists (placeMove pt dest). split_and!; [|done..].
  apply elem_of_getLegalMoves. left. by exists pt, dest.
Qed.

Lemma reachable_foldl (myColor : option Color) (now : N) (s : GameState)
    (moves : list Move) :
  reachable s → Forall onGridMove moves →
  reachable (foldl (executeMove myColor now) s moves).
Proof.
  intros Hs Hmoves. revert s Hs.
  induction Hmoves as [|m moves Hm _ IH]; intros s Hs; simpl; [done|].
  apply IH. by apply reachable_move.
Qed.

Lemma captureMove_legal : captureMove ∈ getLegalMoves captureState white.
Proof.
  apply elem_of_getLegalMoves. right.
  exists capturingRook, (mkPos 0 0), (mkPos 0 3).
  split_and!; try (vm_compute; reflexivity).
  - apply onGrid_mkPos; lia.
  - apply onGrid_mkPos; lia.
  - discriminate.
Qed.

Lemma played_captureState : played captureState.
Proof.
  unfold captureState. apply played_move; [apply played_move|].
  - apply played_reset.
  - apply placeMove_legalFor;
      [vm_compute; repeat constructor|apply onGrid_mkPos; lia|reflexivity].
  - apply placeMove_legalFor;
      [vm_compute; repeat constructor|apply onGrid_mkPos; lia
      |vm_compute; reflexivity].
Qed.

Lemma selectionOk_rookSelected : selectionOk captureState rookSelected.
Proof.
  intros sel from [= <-] [= <-]. exists capturingRook. by vm_compute.
Qed.

Lemma wfBoard_captureState : wfBoard (board captureState).
Proof. vm_compute. split; [reflexivity|repeat constructor]. Qed.

(** The Rook of [captureState] may go to the Bishop's square, which is on
    the grid and holds no white piece. *)
Lemma isValidMove_never_off_grid_or_own_witness :
  isValid (isValidMove captureState capturingRook (mkPos 0 0) (mkPos 0 3))
  = true ∧
  onGrid (mkPos 0 3) ∧
  notOwn (board captureState) capturingRook (mkPos 0 3).
Proof.
  assert (isValid (isValidMove captureState capturingRook (mkPos 0 0)
                     (mkPos 0 3)) = true) as Hvalid
    by (vm_compute; reflexivity).
  split; [exact Hvalid|].
  exact (isValidMove_never_off_grid_or_own captureState capturingRook
           (mkPos 0 0) (mkPos 0 3) Hvalid).
Defined.

(** The Rook's way along row 0 is free, so the capture is valid. *)
Lemma isValidMove_slider_witness :
  (type capturingRook = ROOK ∨ type capturingRook = BISHOP) ∧
  onGrid (mkPos 0 0) ∧ onGrid (mkPos 0 3) ∧ mkPos 0 0 ≠ mkPos 0 3 ∧
  squaresBetween (mkPos 0 0) (mkPos 0 3) = [mkPos 0 1; mkPos 0 2] ∧
  isValid (isValidMove captureState capturingRook (mkPos 0 0) (mkPos 0 3))
  = true.
Proof.
  assert (type capturingRook = ROOK ∨ type capturingRook = BISHOP) as Hty
    by (left; reflexivity).
  assert (onGrid (mkPos 0 0)) as Hfrom by (apply onGrid_mkPos; lia).
  assert (onGrid (mkPos 0 3)) as Hdest by (apply onGrid_mkPos; lia).
  assert (mkPos 0 0 ≠ mkPos 0 3) as Hne by discriminate.
  split; [exact Hty|]. split; [exact Hfrom|]. split; [exact Hdest|].
  split; [exact Hne|]. split; [reflexivity|].
  apply (isValidMove_slider captureState capturingRook (mkPos 0 0) (mkPos 0 3)
           Hty Hfrom Hdest Hne).
  split; [|split].
  - intros t Ht. vm_compute in Ht. injection Ht as <-. discriminate.
  - left. reflexivity.
  - vm_compute. repeat constructor.
Defined.

(** The Pawn of [pawnEdgeState], whose direction is [-1], may step from
    row 1 to the empty square in front of it on row 0. *)
Lemma isValidMove_stepper_witness :
  (type edgePawn = PAWN ∨ type edgePawn = KNIGHT) ∧
  onGrid (mkPos 0 0) ∧
  dirOf (pawnDirections pawnEdgeState) white = (-1)%Z ∧
  isValid (isValidMove pawnEdgeState edgePawn (mkPos 1 0) (mkPos 0 0)) = true.
Proof.
  assert (type edgePawn = PAWN ∨ type edgePawn = KNIGHT) as Hty
    by (left; reflexivity).
  assert (onGrid (mkPos 0 0)) as Hdest by (apply onGrid_mkPos; lia).
  split; [exact Hty|]. split; [exact Hdest|].
  split; [vm_compute; reflexivity|].
  apply (isValidMove_stepper pawnEdgeState edgePawn (mkPos 1 0) (mkPos 0 0)
           Hty Hdest).
  split; [vm_compute; reflexivity|].
  left. split; vm_compute; reflexivity.
Defined.

(** The capture is a legal move of [captureState], it is applied and
    recorded. *)
Lemma legal_move_is_applied_witness :
  winner captureState = None ∧
  captureMove ∈ getLegalMoves captureState (currentPlayer captureState) ∧
  applies captureState captureMove ∧
  history (executeMove None 0 captureState captureMove)
  = (history captureState ++ [captureMove])%list.
Proof.
  assert (winner captureState = None) as Hwin by (vm_compute; reflexivity).
  assert (captureMove ∈ getLegalMoves captureState (currentPlayer captureState))
    as Hin by exact captureMove_legal.
  destruct (legal_move_is_applied None 0 captureState captureMove Hwin Hin)
    as (_ & _ & Happ & Hhist).
  split; [exact Hwin|]. split; [exact Hin|]. split; [exact Happ|exact Hhist].
Defined.

(** On the capture the simulated transition and [executeMove] give the
    same hands and the same board. *)
Lemma simulateMove_matches_executeMove_witness :
  applies captureState captureMove ∧
  hands (simulateMove captureState captureMove)
  = hands (executeMove None 0 captureState captureMove) ∧
  board (simulateMove captureState captureMove)
  = board (executeMove None 0 captureState captureMove).
Proof.
  assert (applies captureState captureMove) as Happ.
  { split; [vm_compute; reflexivity|]. vm_compute. by eexists. }
  assert (mtype captureMove = place →
          getCell (board captureState) (to captureMove) = None) as Hplace
    by discriminate.
  destruct (simulateMove_matches_executeMove None 0 captureState captureMove
              Happ Hplace) as (Hhands & _ & Hboard & _).
  split; [exact Happ|]. split; [exact Hhands|].
  exact (Hboard (mkPos 0 0) eq_refl).
Defined.

Lemma reachable_wonState : reachable wonState.
Proof.
  apply reachable_foldl; [apply reachable_reset|].
  repeat (apply Forall_cons; split; [by split; [apply onGrid_mkPos; lia|]|]).
  apply Forall_nil_2.
Qed.

(** In [wonState] White has won with row 0: White is still the player to
    move and the winning line is the row [checkWin] finds. *)
Lemma reachable_winner_consistent_witness :
  reachable wonState ∧
  winner wonState = Some (Won white) ∧
  currentPlayer wonState = white ∧
  winningLine wonState = checkWin (board wonState) white ∧
  winningLine wonState
  = Some [mkPos 0 0; mkPos 0 1; mkPos 0 2; mkPos 0 3].
Proof.
  assert (winner wonState = Some (Won white)) as Hwon
    by (vm_compute; reflexivity).
  destruct (reachable_winner_consistent wonState reachable_wonState)
    as (_ & Hwinner & _).
  destruct (Hwinner white Hwon) as (Hplayer & Hline & _).
  split; [exact reachable_wonState|]. split; [exact Hwon|].
  split; [exact Hplayer|]. split; [exact Hline|].
  vm_compute. reflexivity.
Defined.

Lemma reachable_pawnEdge :
  reachable (executeMove None 0 pawnEdgeState pawnEdgeMove).
Proof.
  unfold pawnEdgeState.
  repeat (apply reachable_move;
          [|by split; [apply onGrid_mkPos; lia|try (apply onGrid_mkPos; lia)]]).
  apply reachable_reset.
Qed.

(** After the Pawn of [pawnEdgeState] has reached row 0 its direction is
    [1], and both directions are [1] or [-1]. *)
Lemma reachable_unitDirs_witness :
  reachable (executeMove None 0 pawnEdgeState pawnEdgeMove) ∧
  pawnDirections (executeMove None 0 pawnEdgeState pawnEdgeMove)
  = mkDirs 1 1 ∧
  unitDirs (pawnDirections (executeMove None 0 pawnEdgeState pawnEdgeMove)).
Proof.
  split; [exact reachable_pawnEdge|]. split; [vm_compute; reflexivity|].
  exact (reachable_unitDirs _ reachable_pawnEdge).
Defined.

(** Against the medium opponent, after White's opening, the draw 0 makes
    Black place a Pawn on (0,0): a legal move with an explanation, which
    [executeMove] applies. *)
Lemma getCpuMove_legal_witness :
  0 < 1 ∧
  getCpuMove (mkRandom 0 1) cpuTurnState
  = Some (withFeedback (placeMove PAWN (mkPos 0 0))
            "CPU (Medium): No immediate threats, moving strategically.") ∧
  applies cpuTurnState
    (withFeedback (placeMove PAWN (mkPos 0 0))
       "CPU (Medium): No immediate threats, moving strategically.").
Proof.
  assert (rnum (mkRandom 0 1) < rden (mkRandom 0 1)) as Hrnd by (simpl; lia).
  assert (getCpuMove (mkRandom 0 1) cpuTurnState
          = Some (withFeedback (placeMove PAWN (mkPos 0 0))
                    "CPU (Medium): No immediate threats, moving strategically."))
    as Hcpu by (vm_compute; reflexivity).
  destruct (getCpuMove_legal (mkRandom 0 1) cpuTurnState Hrnd) as [_ Hlegal].
  destruct (Hlegal _ Hcpu) as (legal & feedback & _ & _ & Happ).
  split; [lia|]. split; [exact Hcpu|].
  apply Happ. vm_compute. reflexivity.
Defined.

(** In [mediumWinState] the Bishop placed on (3,3) completes Black's row,
    and the medium opponent answers a move that wins. *)
Lemma medium_takes_win_witness :
  difficulty mediumWinState = medium ∧
  winner mediumWinState = None ∧
  ∃ m, getCpuMove (mkRandom 0 1) mediumWinState = Some m ∧
       logicFeedback m = Some "CPU (Medium): Finishing the line for a win!" ∧
       winner (executeMove None 0 mediumWinState m)
       = Some (Won (currentPlayer mediumWinState)).
Proof.
  assert (difficulty mediumWinState = medium) as Hdiff
    by (vm_compute; reflexivity).
  assert (winner mediumWinState = None) as Hwin by (vm_compute; reflexivity).
  split; [exact Hdiff|]. split; [exact Hwin|].
  apply (medium_takes_win (mkRandom 0 1) None 0 mediumWinState Hdiff Hwin).
  exists (placeMove BISHOP (mkPos 3 3)). split.
  - apply elem_of_getLegalMoves. left. exists BISHOP, (mkPos 3 3).
    split_and!; [reflexivity|vm_compute; repeat constructor
                |apply onGrid_mkPos; lia|vm_compute; reflexivity].
  - vm_compute. reflexivity.
Defined.

(** In [captureState] nothing wins and nothing is to be blocked: the
    medium strategy takes the Bishop. *)
Lemma medium_priorities_witness :
  difficulty captureState = medium ∧
  winner captureState = None ∧
  getCpuMove (mkRandom 0 1) captureState
  = Some (withFeedback captureMove
            "CPU (Medium): Prioritizing piece capture.") ∧
  isCapture captureState
    (withFeedback captureMove "CPU (Medium): Prioritizing piece capture.")
  = true ∧
  (∀ legal,
     legal ∈ getLegalMoves captureState (currentPlayer captureState) →
     winner (executeMove None 0 captureState legal)
     ≠ Some (Won (currentPlayer captureState))).
Proof.
  assert (difficulty captureState = medium) as Hdiff
    by (vm_compute; reflexivity).
  assert (winner captureState = None) as Hwin by (vm_compute; reflexivity).
  assert (getCpuMove (mkRandom 0 1) captureState
          = Some (withFeedback captureMove
                    "CPU (Medium): Prioritizing piece capture.")) as Hcpu
    by (vm_compute; reflexivity).
  destruct (medium_priorities (mkRandom 0 1) None 0 captureState _
              Hdiff Hwin Hcpu (or_introl eq_refl)) as (Hcap & _ & Hbetter).
  split; [exact Hdiff|]. split; [exact Hwin|]. split; [exact Hcpu|].
  split; [exact (Hcap eq_refl)|].
  intros legal Hin. exact (proj1 (Hbetter legal Hin)).
Defined.


(** With the Rook selected, a click on the Bishop's square either leaves
    the game alone or plays a legal move. *)
Lemma handleCellClick_plays_legal_witness :
  wfBoard (board captureState) ∧ onGrid (mkPos 0 3) ∧
  selectionOk captureState rookSelected ∧
  (handleCellClick None 0 captureState rookSelected (mkPos 0 3)).1
  ≠ captureState ∧
  ∃ legal,
    legal ∈ getLegalMoves captureState (currentPlayer captureState) ∧
    (handleCellClick None 0 captureState rookSelected (mkPos 0 3)).1
    = executeMove None 0 captureState
        (mkMove (mtype legal) (pieceType legal) (to legal) None None None).
Proof.
  assert (onGrid (mkPos 0 3)) as Hpos by (apply onGrid_mkPos; lia).
  assert ((handleCellClick None 0 captureState rookSelected (mkPos 0 3)).1
          ≠ captureState) as Hchanged.
  { intros Heq. apply (f_equal currentPlayer) in Heq. vm_compute in Heq.
    discriminate Heq. }
  destruct (handleCellClick_plays_legal None 0 captureState rookSelected
              (mkPos 0 3) wfBoard_captureState Hpos selectionOk_rookSelected)
    as [_ [Hsame|(_ & _ & Hlegal)]].
  - destruct (Hchanged Hsame).
  - split; [exact wfBoard_captureState|]. split; [exact Hpos|].
    split; [exact selectionOk_rookSelected|]. split; [exact Hchanged|].
    exact Hlegal.
Defined.

(** With the Rook selected the Bishop's square is hinted, and a click on it
    changes the game. *)
Lemma getValidHint_agrees_witness :
  returnsAtOnce None captureState (currentPlayer captureState) = false ∧
  selectionOk captureState rookSelected ∧
  getValidHint captureState rookSelected (mkPos 0 3) = true ∧
  (handleCellClick None 0 captureState rookSelected (mkPos 0 3)).1
  ≠ captureState.
Proof.
  assert (returnsAtOnce None captureState (currentPlayer captureState) = false)
    as Hguard by (vm_compute; reflexivity).
  assert (getValidHint captureState rookSelected (mkPos 0 3) = true) as Hhint
    by (vm_compute; reflexivity).
  split; [exact Hguard|]. split; [exact selectionOk_rookSelected|].
  split; [exact Hhint|].
  apply (getValidHint_agrees None 0 captureState
           (mkSelected ROOK (Some (mkPos 0 0))) (mkPos 0 3) Hguard
           selectionOk_rookSelected).
  exact Hhint.
Defined.

(** After White's opening against the medium opponent one run of the
    effect plays a legal move for Black. *)
Lemma cpuEffect_moves_witness :
  0 < 1 ∧ currentPlayer cpuTurnState = black ∧ gameMode cpuTurnState = ai ∧
  winner cpuTurnState = None ∧ getLegalMoves cpuTurnState black ≠ [] ∧
  ∃ legal feedback,
    legal ∈ getLegalMoves cpuTurnState black ∧
    cpuEffect (mkRandom 0 1) None 0 false cpuTurnState None
    = (executeMove None 0 cpuTurnState (withFeedback legal feedback), None) ∧
    history (cpuEffect (mkRandom 0 1) None 0 false cpuTurnState None).1
    = (history cpuTurnState ++ [withFeedback legal feedback])%list.
Proof.
  assert (rnum (mkRandom 0 1) < rden (mkRandom 0 1)) as Hrnd by (simpl; lia).
  assert (currentPlayer cpuTurnState = black) as Hplayer
    by (vm_compute; reflexivity).
  assert (gameMode cpuTurnState = ai) as Hmode by (vm_compute; reflexivity).
  assert (winner cpuTurnState = None) as Hwin by (vm_compute; reflexivity).
  assert (getLegalMoves cpuTurnState black ≠ []) as Hmoves
    by (vm_compute; discriminate).
  destruct (cpuEffect_moves (mkRandom 0 1) None 0 cpuTurnState None
              Hrnd Hplayer Hmode Hwin Hmoves)
    as (legal & feedback & Hin & Hui & Hhist & _).
  split; [lia|]. split; [exact Hplayer|]. split; [exact Hmode|].
  split; [exact Hwin|]. split; [exact Hmoves|].
  exists legal, feedback. split; [exact Hin|]. split; [exact Hui|exact Hhist].
Defined.

(** In [captureState] White, who holds three kinds, can place one, and the
    opponent playing White answers. *)
Lemma reachable_hand_can_place_witness :
  reachable captureState ∧ handOf (hands captureState) white ≠ [] ∧
  (∃ pt dest, onGrid dest ∧ getCell (board captureState) dest = None ∧
              placeMove pt dest ∈ getLegalMoves captureState white) ∧
  is_Some (getCpuMove (mkRandom 0 1) captureState).
Proof.
  assert (reachable captureState) as Hreach
    by exact (played_reachable _ played_captureState).
  assert (handOf (hands captureState) white ≠ []) as Hhand
    by (vm_compute; discriminate).
  destruct (reachable_hand_can_place captureState white Hreach Hhand)
    as [Hplace Hcpu].
  split; [exact Hreach|]. split; [exact Hhand|]. split; [exact Hplace|].
  apply Hcpu; [simpl; lia|vm_compute; reflexivity].
Defined.

Lemma played_capturedState : played capturedState.
Proof.
  apply played_move; [exact played_captureState|].
  exists captureMove. split_and!; [exact captureMove_legal|done..].
Qed.

(** After the Rook has taken the Bishop, Black's four kinds are all in
    Black's hand. *)
Lemma played_kindsOf_witness :
  played capturedState ∧
  handOf (hands capturedState) black = [PAWN; ROOK; KNIGHT; BISHOP] ∧
  kindsOf black capturedState ≡ₚ INITIAL_HAND.
Proof.
  split; [exact played_capturedState|]. split; [vm_compute; reflexivity|].
  exact (played_kindsOf capturedState black played_capturedState).
Defined.

(** A click on the Pawn of White's hand and a click on (0,0) in a fresh
    game: the game reached is played by the rules and nothing is selected
    any more. *)
Lemma uiReachable_invariant_witness :
  uiReachable
    (handle None 0
       (handle None 0 (resetGame local medium white, None)
          (HandClick PAWN white))
       (CellClick (mkPos 0 0))) ∧
  played
    (handle None 0
       (handle None 0 (resetGame local medium white, None)
          (HandClick PAWN white))
       (CellClick (mkPos 0 0))).1 ∧
  (handle None 0
     (handle None 0 (resetGame local medium white, None)
        (HandClick PAWN white))
     (CellClick (mkPos 0 0))).2 = None.
Proof.
  assert (uiReachable
            (handle None 0
               (handle None 0 (resetGame local medium white, None)
                  (HandClick PAWN white))
               (CellClick (mkPos 0 0)))) as Hui.
  { apply uiReachable_handle; [apply uiReachable_handle|].
    - apply uiReachable_reset.
    - exact I.
    - apply onGrid_mkPos; lia. }
  destruct (uiReachable_invariant _ Hui) as [Hplayed _].
  split; [exact Hui|]. split; [exact Hplayed|]. vm_compute. reflexivity.
Defined.

(** In [captureState] a click on the Rook and a click on the Bishop's
    square move the Rook there. *)
Lemma two_clicks_play_witness :
  wfBoard (board captureState) ∧
  returnsAtOnce None captureState (currentPlayer captureState) = false ∧
  getCell
    (board
       (handleCellClick None 0
          (handleCellClick None 0 captureState None (mkPos 0 0)).1
          (handleCellClick None 0 captureState None (mkPos 0 0)).2
          (mkPos 0 3)).1)
    (mkPos 0 3)
  = Some capturingRook ∧
  getCell
    (board
       (handleCellClick None 0
          (handleCellClick None 0 captureState None (mkPos 0 0)).1
          (handleCellClick None 0 captureState None (mkPos 0 0)).2
          (mkPos 0 3)).1)
    (mkPos 0 0)
  = None.
Proof.
  assert (returnsAtOnce None captureState (currentPlayer captureState) = false)
    as Hguard by (vm_compute; reflexivity).
  destruct (two_clicks_play None 0 captureState None wfBoard_captureState
              Hguard) as [_ Hmove].
  assert (getCell (board captureState) (mkPos 0 0) = Some capturingRook)
    as Hpiece by (vm_compute; reflexivity).
  assert (color capturingRook = currentPlayer captureState) as Hcol
    by (vm_compute; reflexivity).
  assert (isValid (isValidMove captureState capturingRook (mkPos 0 0)
                     (mkPos 0 3)) = true) as Hvalid
    by (vm_compute; reflexivity).
  assert (∀ sel, @None Selected = Some sel → sfrom sel ≠ Some (mkPos 0 0))
    as Hsel by (intros sel Heq; discriminate Heq).
  destruct (Hmove capturingRook (mkPos 0 0) (mkPos 0 3) Hpiece Hcol Hvalid
              Hsel) as (_ & _ & Hdest & Hfrom).
  split; [exact wfBoard_captureState|]. split; [exact Hguard|].
  split; [exact Hdest|exact Hfrom].
Defined.
